(** * DEFLATE block writer (compress/_flate): a shallow embedding

    The TypeScript sources are embedded as Rocq functions over [Z] (a JS
    [number] holding an integer) and lists (JS arrays and typed arrays).
    Bitwise operators go through ToInt32 as ECMAScript prescribes; array
    reads that yield [undefined] are [None]; exceptions are explicit. *)

From Stdlib Require Import ZArith List String Lia Bool Sorted.
From stdpp Require Import base list.
Import ListNotations.
Local Open Scope Z_scope.

(** ** JavaScript numbers and arrays *)

Module JS.

(** ToInt32: wrap an integer into the signed 32-bit range. *)
Definition to_int32 (z : Z) : Z := (z + 2 ^ 31) mod 2 ^ 32 - 2 ^ 31.

(** [a << b]: both operands through ToInt32/ToUint32, count taken mod 32. *)
Definition shl (a b : Z) : Z := to_int32 (Z.shiftl (to_int32 a) (Z.land b 31)).

(** [a >> b]: sign-propagating shift, count taken mod 32. *)
Definition sar (a b : Z) : Z := Z.shiftr (to_int32 a) (Z.land b 31).

Definition or (a b : Z) : Z := Z.lor (to_int32 a) (to_int32 b).
Definition and (a b : Z) : Z := Z.land (to_int32 a) (to_int32 b).
Definition xor (a b : Z) : Z := Z.lxor (to_int32 a) (to_int32 b).
Definition not (a : Z) : Z := Z.lnot (to_int32 a).

(** Number of bits of a non-negative integer. *)
Definition bitlen (z : Z) : Z := if z =? 0 then 0 else Z.log2 z + 1.

(** An integer result of [*] is rounded to the nearest double (53-bit
    significand, ties to even). Exact below 2^53. *)
Definition round53 (z : Z) : Z :=
  let a := Z.abs z in
  let s := bitlen a - 53 in
  if s <=? 0 then z
  else
    let q := Z.shiftr a s in
    let r := a - Z.shiftl q s in
    let half := Z.shiftl 1 (s - 1) in
    let q' := if (half <? r) || ((r =? half) && Z.odd q) then q + 1 else q in
    Z.sgn z * Z.shiftl q' s.

Definition mul (a b : Z) : Z := round53 (a * b).

(** Reading [a[i]]: [None] stands for [undefined]. *)
Definition get {A} (a : list A) (i : Z) : option A :=
  if i <? 0 then None else a !! Z.to_nat i.

(** [a[i] = v] on an ordinary array: in range it overwrites, past the end
    the array grows and the skipped slots are holes. *)
Definition store {A} (i : Z) (v : A) (a : list (option A)) : list (option A) :=
  let n := Z.to_nat i in
  if (n <? length a)%nat then <[n := Some v]> a
  else a ++ replicate (n - length a) None ++ [Some v].

(** [a[i] = v] on an array of numbers that never has holes in this model
    (frequency tables): only in-range stores are representable. *)
Definition set {A} (i : Z) (v : A) (a : list A) : list A :=
  if i <? 0 then a else <[Z.to_nat i := v]> a.

(** [a[i] = v] on a Uint8Array: value taken mod 256, out-of-range ignored. *)
Definition set_u8 (i : Z) (v : Z) (a : list Z) : list Z :=
  set i (v mod 256) a.

(** [a.slice(start, end)] (a fresh copy), with negative indices counted
    from the end and both clamped to the array. *)
Definition rel (len k : Z) : Z :=
  if k <? 0 then Z.max (len + k) 0 else Z.min k len.

Definition slice {A} (start stop : Z) (a : list A) : list A :=
  let len := Z.of_nat (length a) in
  let s := rel len start in
  let e := rel len stop in
  take (Z.to_nat (e - s)) (drop (Z.to_nat s) a).

Definition slice_from {A} (start : Z) (a : list A) : list A :=
  slice start (Z.of_nat (length a)) a.

Definition len {A} (a : list A) : Z := Z.of_nat (length a).

End JS.

(** ** token.ts *)

Definition LENGTH_SHIFT : Z := 22.
Definition OFFSET_MASK : Z := JS.shl 1 LENGTH_SHIFT - 1.
Definition LITERAL_TYPE : Z := JS.shl 0 30.
Definition MATCH_TYPE : Z := JS.shl 1 30.

Definition LENGTH_CODES : list Z :=
  [ 0; 1; 2; 3; 4; 5; 6; 7; 8; 8;
    9; 9; 10; 10; 11; 11; 12; 12; 12; 12;
    13; 13; 13; 13; 14; 14; 14; 14; 15; 15;
    15; 15; 16; 16; 16; 16; 16; 16; 16; 16;
    17; 17; 17; 17; 17; 17; 17; 17; 18; 18;
    18; 18; 18; 18; 18; 18; 19; 19; 19; 19;
    19; 19; 19; 19; 20; 20; 20; 20; 20; 20;
    20; 20; 20; 20; 20; 20; 20; 20; 20; 20;
    21; 21; 21; 21; 21; 21; 21; 21; 21; 21;
    21; 21; 21; 21; 21; 21; 22; 22; 22; 22;
    22; 22; 22; 22; 22; 22; 22; 22; 22; 22;
    22; 22; 23; 23; 23; 23; 23; 23; 23; 23;
    23; 23; 23; 23; 23; 23; 23; 23; 24; 24;
    24; 24; 24; 24; 24; 24; 24; 24; 24; 24;
    24; 24; 24; 24; 24; 24; 24; 24; 24; 24;
    24; 24; 24; 24; 24; 24; 24; 24; 24; 24;
    25; 25; 25; 25; 25; 25; 25; 25; 25; 25;
    25; 25; 25; 25; 25; 25; 25; 25; 25; 25;
    25; 25; 25; 25; 25; 25; 25; 25; 25; 25;
    25; 25; 26; 26; 26; 26; 26; 26; 26; 26;
    26; 26; 26; 26; 26; 26; 26; 26; 26; 26;
    26; 26; 26; 26; 26; 26; 26; 26; 26; 26;
    26; 26; 26; 26; 27; 27; 27; 27; 27; 27;
    27; 27; 27; 27; 27; 27; 27; 27; 27; 27;
    27; 27; 27; 27; 27; 27; 27; 27; 27; 27;
    27; 27; 27; 27; 27; 28 ].

Definition OFFSET_CODES : list Z :=
  [ 0; 1; 2; 3; 4; 4; 5; 5; 6; 6; 6; 6; 7; 7; 7; 7;
    8; 8; 8; 8; 8; 8; 8; 8; 9; 9; 9; 9; 9; 9; 9; 9;
    10; 10; 10; 10; 10; 10; 10; 10; 10; 10; 10; 10; 10; 10; 10; 10;
    11; 11; 11; 11; 11; 11; 11; 11; 11; 11; 11; 11; 11; 11; 11; 11;
    12; 12; 12; 12; 12; 12; 12; 12; 12; 12; 12; 12; 12; 12; 12; 12;
    12; 12; 12; 12; 12; 12; 12; 12; 12; 12; 12; 12; 12; 12; 12; 12;
    13; 13; 13; 13; 13; 13; 13; 13; 13; 13; 13; 13; 13; 13; 13; 13;
    13; 13; 13; 13; 13; 13; 13; 13; 13; 13; 13; 13; 13; 13; 13; 13;
    14; 14; 14; 14; 14; 14; 14; 14; 14; 14; 14; 14; 14; 14; 14; 14;
    14; 14; 14; 14; 14; 14; 14; 14; 14; 14; 14; 14; 14; 14; 14; 14;
    14; 14; 14; 14; 14; 14; 14; 14; 14; 14; 14; 14; 14; 14; 14; 14;
    14; 14; 14; 14; 14; 14; 14; 14; 14; 14; 14; 14; 14; 14; 14; 14;
    15; 15; 15; 15; 15; 15; 15; 15; 15; 15; 15; 15; 15; 15; 15; 15;
    15; 15; 15; 15; 15; 15; 15; 15; 15; 15; 15; 15; 15; 15; 15; 15;
    15; 15; 15; 15; 15; 15; 15; 15; 15; 15; 15; 15; 15; 15; 15; 15;
    15; 15; 15; 15; 15; 15; 15; 15; 15; 15; 15; 15; 15; 15; 15; 15 ].

(** [class Token { constructor(public value: number) }] *)
Record Token := mkToken { value : Z }.

Module Tok.
Definition literal (t : Token) : Z := value t - LITERAL_TYPE.
Definition offset (t : Token) : Z := JS.and (value t) OFFSET_MASK.
Definition length (t : Token) : Z := JS.sar (value t - MATCH_TYPE) LENGTH_SHIFT.
(** The test the writer uses to tell the two kinds apart:
    [token.value < MATCH_TYPE] is a literal. *)
Definition is_match (t : Token) : bool := negb (value t <? MATCH_TYPE).
End Tok.

Definition literalToken (literal : Z) : Token := mkToken (LITERAL_TYPE + literal).

(** [MATCH_TYPE + xlength << LENGTH_SHIFT + xoffset]: in JavaScript [+]
    binds tighter than [<<], so this is
    [(MATCH_TYPE + xlength) << (LENGTH_SHIFT + xoffset)]. *)
Definition matchToken (xlength xoffset : Z) : Token :=
  mkToken (JS.shl (MATCH_TYPE + xlength) (LENGTH_SHIFT + xoffset)).

Definition lengthCode (len : Z) : option Z := JS.get LENGTH_CODES len.

Definition offsetCode (off : Z) : option Z :=
  if off <? JS.len OFFSET_CODES then JS.get OFFSET_CODES off
  else if JS.sar off 7 <? JS.len OFFSET_CODES
       then (fun c => c + 14) <$> JS.get OFFSET_CODES (JS.sar off 7)
       else (fun c => c + 28) <$> JS.get OFFSET_CODES (JS.sar off 14).

(** ** deflatefast.ts: the hash of the match finder *)

Definition TABLE_BITS : Z := 14.
Definition TABLE_SIZE : Z := JS.shl 1 TABLE_BITS.
Definition TABLE_MASK : Z := TABLE_SIZE - 1.
Definition TABLE_SHIFT : Z := 32 - TABLE_BITS.

(** [b[i] | (b[i+1] * 2**8) | (b[i+2] * 2**16) | (b[i+3] * 2**24)].
    A missing byte counts as 0: it reads as [undefined], its product is
    NaN, and [|] turns both into 0. *)
Definition load32 (b : list Z) (i : Z) : Z :=
  let byte k := default 0 (JS.get b k) in
  JS.or (JS.or (JS.or (byte i) (JS.mul (byte (i + 1)) (2 ^ 8)))
               (JS.mul (byte (i + 2)) (2 ^ 16)))
        (JS.mul (byte (i + 3)) (2 ^ 24)).

(** The [number] branch of [hash]:
    [Math.floor((u * 0x1e35a7bd) / (2 ** TABLE_SHIFT))].
    The product is a double; dividing by a power of two and [Math.floor]
    are exact on it. Nothing reduces the product to 32 bits. *)
Definition hash (u : Z) : Z := JS.mul u 0x1e35a7bd / 2 ^ TABLE_SHIFT.

(** The slot the encoder goes to: [this.table[nextHash & TABLE_MASK]]. *)
Definition table_slot (u : Z) : Z := JS.and (hash u) TABLE_MASK.

(** What the claim calls the hash: the top 14 bits of the 32-bit product. *)
Definition hash_u32 (u : Z) : Z := ((u * 0x1e35a7bd) mod 2 ^ 32) / 2 ^ 18.

(** ** Outcomes of a call

    A call returns normally, or stops: a JavaScript exception propagates
    ([Throw]), a number became [NaN] or [undefined] entered arithmetic
    (beyond this integer model: [NaN]), or the fuel of a loop ran out
    ([Diverge]). *)

Inductive exn := TypeError | Error (msg : string).
Inductive stop := Throw (e : exn) | NaN | Diverge.
Inductive res (A : Type) := Ok (a : A) | Stop (s : stop).
Arguments Ok {A} a.
Arguments Stop {A} s.

Definition res_bind {A B} (r : res A) (k : A -> res B) : res B :=
  match r with Ok a => k a | Stop s => Stop s end.

(** [undefined.f] throws a TypeError. *)
Definition deref {A} (o : option (option A)) : res A :=
  match o with Some (Some a) => Ok a | _ => Stop (Throw TypeError) end.

(** A number read from an array; [undefined] leaves the model. *)
Definition num (o : option Z) : res Z :=
  match o with Some z => Ok z | None => Stop NaN end.

Declare Scope res_scope.
Delimit Scope res_scope with res.
Notation "'let!' x ':=' c 'in' k" := (res_bind c (fun x => k))
  (at level 10, x pattern, c at level 100, k at level 200) : res_scope.
Local Open Scope res_scope.

(** ** utils.ts *)

(** Modelled from the spec: [reverseBits] (utils.ts is not among the
    sources; only its test is). "Returns the 16-bit reversal of v": bit i
    of the argument becomes bit 15 - i of the result. *)
Definition reverseBits (v : Z) : Z :=
  fold_left (fun acc i => if Z.testbit v (Z.of_nat i)
                          then Z.lor acc (Z.shiftl 1 (15 - Z.of_nat i)) else acc)
            (seq 0 16) 0.

(** ** huffman_code.ts *)

Definition MAX_NUM_LIT : Z := 286.
Definition MAX_BITS_LIMIT : Z := 16.

(** [2 ^ 16 - 1] and [2 ^ 31 - 1]: [^] is bitwise xor and binds looser
    than [-], so these are [2 xor 15] and [2 xor 30]. *)
Definition MAX_UINT16 : Z := JS.xor 2 (16 - 1).
Definition MAX_INT32 : Z := JS.xor 2 (31 - 1).

Module LevelInfo.
Record t := mk {
  level : Z;
  lastFreq : Z;
  nextCharFreq : Z;
  nextPairFreq : Z;
  needed : Z }.
End LevelInfo.

Module Hcode.
Record t := mk { code : Z; len : Z }.
(** [set(code, length)] *)
Definition set (code length : Z) (_ : t) : t := mk code length.
Definition set_len (length : Z) (c : t) : t := mk (code c) length.
End Hcode.

Module LiteralNode.
Record t := mk { literal : Z; freq : Z }.
(** [new LiteralNode()] *)
Definition default : t := mk 0 0.
End LiteralNode.

Definition maxNode : LiteralNode.t := LiteralNode.mk MAX_UINT16 MAX_INT32.

Definition _reverseBits (number bitLength : Z) : Z :=
  reverseBits (JS.shl number (16 - bitLength)).

Definition compareByLiteral (lhs rhs : LiteralNode.t) : Z :=
  LiteralNode.literal lhs - LiteralNode.literal rhs.

Definition compareByFreq (lhs rhs : LiteralNode.t) : Z :=
  if LiteralNode.freq lhs =? LiteralNode.freq rhs
  then LiteralNode.literal lhs - LiteralNode.literal rhs
  else LiteralNode.freq lhs - LiteralNode.freq rhs.

(** [Array.prototype.sort(cmp)]: stable; [undefined] entries and holes are
    not compared and end up behind the sorted elements. *)
Fixpoint sort_insert {A} (cmp : A -> A -> Z) (x : A) (l : list A) : list A :=
  match l with
  | [] => [x]
  | y :: l' => if cmp x y <=? 0 then x :: l else y :: sort_insert cmp x l'
  end.

Definition js_sort {A} (cmp : A -> A -> Z) (a : list (option A)) : list (option A) :=
  let present := omap id a in
  (Some <$> foldr (sort_insert cmp) [] present)
    ++ replicate (length a - length present) None.

(** [class HuffmanEncoder]; [new HuffmanEncoder(size)] leaves every entry
    of [codes] undefined: [Array.from({ length: size })]. *)
Record HuffmanEncoder := mkEnc {
  codes : list (option Hcode.t);
  freqcache : list (option LiteralNode.t);
  bitCount : list Z }.

Definition new_HuffmanEncoder (size : Z) : HuffmanEncoder :=
  mkEnc (replicate (Z.to_nat size) None) [] (replicate 17 0).

Definition with_codes (h : HuffmanEncoder) (cs : list (option Hcode.t)) :=
  mkEnc cs (freqcache h) (bitCount h).

(** [bitLength(freq)] *)
Fixpoint bitLength_from (cs : list (option Hcode.t)) (i : Z) (freq : list Z)
    (total : Z) : res Z :=
  match freq with
  | [] => Ok total
  | f :: rest =>
      if f =? 0 then bitLength_from cs (i + 1) rest total
      else let! c := deref (JS.get cs i) in
           bitLength_from cs (i + 1) rest (total + f * Hcode.len c)
  end.

Definition bitLength (h : HuffmanEncoder) (freq : list Z) : res Z :=
  bitLength_from (codes h) 0 freq 0.

(** *** bitCounts *)

(** The working state of the [while (true)] loop of [bitCounts]. *)
Record BitCountsState := mkBC {
  bc_level : Z;
  bc_levels : list (option LevelInfo.t);
  bc_leafCounts : list (list Z) }.

(** [leafCounts[i][j]] and [leafCounts[i][j] = v] on the 16 x 16 matrix.
    A missing row is [undefined] and indexing it throws; the columns used
    are levels, below 16. *)
Definition leaf_row (m : list (list Z)) (i : Z) : res (list Z) :=
  match JS.get m i with
  | Some row => Ok row
  | None => Stop (Throw TypeError)
  end.

Definition leaf_get (m : list (list Z)) (i j : Z) : res Z :=
  let! row := leaf_row m i in num (JS.get row j).

Definition leaf_set (m : list (list Z)) (i j v : Z) : res (list (list Z)) :=
  let! row := leaf_row m i in Ok (JS.set i (JS.set j v row) m).

(** The [for (level = 1; level <= maxBits; level++)] initialisation. *)
Fixpoint bitCounts_init (k : nat) (level maxBits : Z)
    (lst : list (option LiteralNode.t))
    (levels : list (option LevelInfo.t)) (leafCounts : list (list Z))
    : res (list (option LevelInfo.t) * list (list Z)) :=
  match k with
  | O => Ok (levels, leafCounts)
  | S k' =>
      if level <=? maxBits then
        let! n1 := deref (JS.get lst 1) in
        let! n2 := deref (JS.get lst 2) in
        let! n0 := deref (JS.get lst 0) in
        let l := LevelInfo.mk level (LiteralNode.freq n1) (LiteralNode.freq n2)
                   (LiteralNode.freq n0 + LiteralNode.freq n1) 0 in
        let! leafCounts := leaf_set leafCounts level level 2 in
        let l := if level =? 1
                 then LevelInfo.mk (LevelInfo.level l) (LevelInfo.lastFreq l)
                        (LevelInfo.nextCharFreq l) MAX_INT32 (LevelInfo.needed l)
                 else l in
        bitCounts_init k' (level + 1) maxBits lst
          (JS.set level (Some l) levels) leafCounts
      else Ok (levels, leafCounts)
  end.

(** [for (let k = 0; k < level; k++) leafCounts[level-1][k] = leafCounts[level][k]] *)
Fixpoint copy_counts (n : nat) (k level : Z) (leafCounts : list (list Z))
    : res (list (list Z)) :=
  match n with
  | O => Ok leafCounts
  | S n' =>
      if k <? level then
        let! v := leaf_get leafCounts level k in
        let! leafCounts := leaf_set leafCounts (level - 1) k v in
        copy_counts n' (k + 1) level leafCounts
      else Ok leafCounts
  end.

(** [while (levels[level - 1].needed > 0) level--] *)
Fixpoint descend (fuel : nat) (levels : list (option LevelInfo.t)) (level : Z)
    : res Z :=
  match fuel with
  | O => Stop Diverge
  | S fuel' =>
      let! below := deref (JS.get levels (level - 1)) in
      if LevelInfo.needed below >? 0 then descend fuel' levels (level - 1)
      else Ok level
  end.

(** "The next item on this row is a leaf node." *)
Definition take_leaf (lst : list (option LiteralNode.t)) (level : Z)
    (l : LevelInfo.t) (levels : list (option LevelInfo.t))
    (leafCounts : list (list Z))
    : res (LevelInfo.t * list (option LevelInfo.t) * list (list Z)) :=
  let! c := leaf_get leafCounts level level in
  let n := c + 1 in
  let! leafCounts := leaf_set leafCounts level level n in
  let! nd := deref (JS.get lst n) in
  Ok (LevelInfo.mk (LevelInfo.level l) (LevelInfo.nextCharFreq l)
        (LiteralNode.freq nd) (LevelInfo.nextPairFreq l) (LevelInfo.needed l),
      levels, leafCounts).

(** "The next item on this row is a pair from the previous row." *)
Definition take_pair (level : Z) (l : LevelInfo.t)
    (levels : list (option LevelInfo.t)) (leafCounts : list (list Z))
    : res (LevelInfo.t * list (option LevelInfo.t) * list (list Z)) :=
  let l := LevelInfo.mk (LevelInfo.level l) (LevelInfo.nextPairFreq l)
             (LevelInfo.nextCharFreq l) (LevelInfo.nextPairFreq l)
             (LevelInfo.needed l) in
  let! leafCounts := copy_counts 16 0 level leafCounts in
  let! below := deref (JS.get levels (LevelInfo.level l - 1)) in
  let below := LevelInfo.mk (LevelInfo.level below) (LevelInfo.lastFreq below)
                 (LevelInfo.nextCharFreq below) (LevelInfo.nextPairFreq below) 2 in
  Ok (l, JS.set (LevelInfo.level l - 1) (Some below) levels, leafCounts).

(** [l.needed--] and the choice of the next level: [inl] continues the
    loop, [inr] is the [break]. *)
Definition after_item (maxBits level prevFreq : Z) (l : LevelInfo.t)
    (levels : list (option LevelInfo.t)) (leafCounts : list (list Z))
    : res (BitCountsState + list (list Z)) :=
  let l := LevelInfo.mk (LevelInfo.level l) (LevelInfo.lastFreq l)
             (LevelInfo.nextCharFreq l) (LevelInfo.nextPairFreq l)
             (LevelInfo.needed l - 1) in
  let levels := JS.set level (Some l) levels in
  if LevelInfo.needed l =? 0 then
    if LevelInfo.level l =? maxBits then Ok (inr leafCounts)
    else
      let! above := deref (JS.get levels (LevelInfo.level l + 1)) in
      let above := LevelInfo.mk (LevelInfo.level above) (LevelInfo.lastFreq above)
                     (LevelInfo.nextCharFreq above)
                     (prevFreq + LevelInfo.lastFreq l) (LevelInfo.needed above) in
      Ok (inl (mkBC (level + 1)
                 (JS.set (LevelInfo.level l + 1) (Some above) levels) leafCounts))
  else
    let! level := descend 17 levels level in
    Ok (inl (mkBC level levels leafCounts)).

(** One turn of the [while (true)] loop. The test against [Infinity] that
    opens the loop body cannot succeed on finite numbers; it only
    dereferences [l]. *)
Definition bitCounts_step (lst : list (option LiteralNode.t)) (maxBits : Z)
    (st : BitCountsState) : res (BitCountsState + list (list Z)) :=
  let level := bc_level st in
  let levels := bc_levels st in
  let leafCounts := bc_leafCounts st in
  let! l := deref (JS.get levels level) in
  let prevFreq := LevelInfo.lastFreq l in
  let! (l, levels, leafCounts) :=
    if LevelInfo.nextCharFreq l <? LevelInfo.nextPairFreq l
    then take_leaf lst level l levels leafCounts
    else take_pair level l levels leafCounts in
  after_item maxBits level prevFreq l levels leafCounts.

Fixpoint bitCounts_loop (fuel : nat) (lst : list (option LiteralNode.t))
    (maxBits : Z) (st : BitCountsState) : res (list (list Z)) :=
  match fuel with
  | O => Stop Diverge
  | S fuel' =>
      let! r := bitCounts_step lst maxBits st in
      match r with
      | inl st' => bitCounts_loop fuel' lst maxBits st'
      | inr leafCounts => Ok leafCounts
      end
  end.

(** [for (level = maxBits; level > 0; level--) { bitCount[bits] = ...; bits++ }] *)
Fixpoint bitCounts_extract (k : nat) (level bits : Z) (counts : list Z)
    (bitCount : list Z) : res (list Z) :=
  match k with
  | O => Ok bitCount
  | S k' =>
      if level >? 0 then
        let! hi := num (JS.get counts level) in
        let! lo := num (JS.get counts (level - 1)) in
        bitCounts_extract k' (level - 1) (bits + 1) counts
          (JS.set bits (hi - lo) bitCount)
      else Ok bitCount
  end.

(** [bitCounts(list, maxBits)]. It appends [maxNode()] to the caller's
    array, so the grown array is returned next to the bit counts. The loop
    is given [fuel] turns. *)
Definition bitCounts_fuel (fuel : nat) (h : HuffmanEncoder)
    (lst : list (option LiteralNode.t)) (maxBits : Z)
    : res (list Z * list (option LiteralNode.t)) :=
  if maxBits >=? MAX_BITS_LIMIT then Stop (Throw (Error "flate: maxBits too large"))
  else
    let n := JS.len lst in
    let lst := JS.store n maxNode lst in
    let maxBits := if maxBits >? n - 1 then n - 1 else maxBits in
    let levels : list (option LevelInfo.t) :=
      replicate (Z.to_nat MAX_BITS_LIMIT) None in
    let leafCounts : list (list Z) :=
      replicate (Z.to_nat MAX_BITS_LIMIT) (replicate (Z.to_nat MAX_BITS_LIMIT) 0) in
    let! (levels, leafCounts) := bitCounts_init 16 1 maxBits lst levels leafCounts in
    (* levels[maxBits].needed = 2 * n - 4 *)
    let! top := deref (JS.get levels maxBits) in
    let top := LevelInfo.mk (LevelInfo.level top) (LevelInfo.lastFreq top)
                 (LevelInfo.nextCharFreq top) (LevelInfo.nextPairFreq top)
                 (2 * n - 4) in
    let levels := JS.set maxBits (Some top) levels in
    let! leafCounts := bitCounts_loop fuel lst maxBits (mkBC maxBits levels leafCounts) in
    let! top_count := leaf_get leafCounts maxBits maxBits in
    if negb (top_count =? n)
    then Stop (Throw (Error "leafCounts[maxBits][maxBits] != n"))
    else
      let bitCount := JS.slice 0 (maxBits + 1) (bitCount h) in
      let! counts := leaf_row leafCounts maxBits in
      let! bitCount := bitCounts_extract 16 maxBits 1 counts bitCount in
      Ok (bitCount, lst).

(** The fuel [bitCounts] gives its loop. *)
Definition bitCounts (h : HuffmanEncoder) (lst : list (option LiteralNode.t))
    (maxBits : Z) : res (list Z * list (option LiteralNode.t)) :=
  bitCounts_fuel (512 * (length lst + 2)) h lst maxBits.

(** *** assignEncodingAndSize *)

(** [for (const node of chunk) { this.codes[node.literal] = new Hcode(...); code++ }] *)
Fixpoint assign_chunk (chunk : list (option LiteralNode.t)) (n code : Z)
    (cs : list (option Hcode.t)) : res Z * list (option Hcode.t) :=
  match chunk with
  | [] => (Ok code, cs)
  | None :: _ => (Stop (Throw TypeError), cs)
  | Some node :: rest =>
      assign_chunk rest n (code + 1)
        (JS.store (LiteralNode.literal node)
                  (Hcode.mk (_reverseBits code n) n) cs)
  end.

Fixpoint assign_from (bitCount : list Z) (n code : Z)
    (lst : list (option LiteralNode.t)) (cs : list (option Hcode.t))
    : res unit * list (option Hcode.t) :=
  match bitCount with
  | [] => (Ok tt, cs)
  | bits :: rest =>
      let code := JS.shl code 1 in
      if (n =? 0) || (bits =? 0) then assign_from rest (n + 1) code lst cs
      else
        let chunk := JS.slice_from (JS.len lst - bits) lst in
        let chunk := js_sort compareByLiteral chunk in
        match assign_chunk chunk n code cs with
        | (Ok code, cs) =>
            assign_from rest (n + 1) code (JS.slice 0 (JS.len lst - bits) lst) cs
        | (Stop s, cs) => (Stop s, cs)
        end
  end.

Definition assignEncodingAndSize (bitCount : list Z)
    (lst : list (option LiteralNode.t)) (cs : list (option Hcode.t))
    : res unit * list (option Hcode.t) :=
  assign_from bitCount 0 0 lst cs.

(** *** generate *)

(** The first loop of [generate]: collect the non-zero literals and clear
    the length of the others. [this.codes[i].len = 0] needs [codes[i]] to be
    an object. *)
Fixpoint generate_collect (i : Z) (freq : list Z)
    (lst : list (option LiteralNode.t)) (count : Z)
    (cs : list (option Hcode.t))
    : res (list (option LiteralNode.t) * Z) * list (option Hcode.t) :=
  match freq with
  | [] => (Ok (lst, count), cs)
  | f :: rest =>
      if negb (f =? 0) then
        generate_collect (i + 1) rest
          (JS.store count (LiteralNode.mk i f) lst) (count + 1) cs
      else
        let lst := JS.store count LiteralNode.default lst in
        match JS.get cs i with
        | Some (Some c) =>
            generate_collect (i + 1) rest lst count
              (JS.set i (Some (Hcode.set_len 0 c)) cs)
        | _ => (Stop (Throw TypeError), cs)
        end
  end.

(** The [count <= 2] branch: [this.codes[node.literal].set(i, 1)] for every
    index [i] of [list]. *)
Fixpoint generate_small (i : Z) (lst : list (option LiteralNode.t))
    (cs : list (option Hcode.t)) : res unit * list (option Hcode.t) :=
  match lst with
  | [] => (Ok tt, cs)
  | None :: _ => (Stop (Throw TypeError), cs)
  | Some node :: rest =>
      match JS.get cs (LiteralNode.literal node) with
      | Some (Some c) =>
          generate_small (i + 1) rest
            (JS.set (LiteralNode.literal node) (Some (Hcode.set i 1 c)) cs)
      | _ => (Stop (Throw TypeError), cs)
      end
  end.

(** [generate(freq, maxBits)]: the outcome and the encoder it leaves. *)
Definition generate (h : HuffmanEncoder) (freq : list Z) (maxBits : Z)
    : res unit * HuffmanEncoder :=
  let lst := JS.slice 0 (JS.len freq + 1) (freqcache h) in
  match generate_collect 0 freq lst 0 (codes h) with
  | (Stop s, cs) => (Stop s, with_codes h cs)
  | (Ok (lst, count), cs) =>
      let lst := JS.store (JS.len freq) LiteralNode.default lst in
      (* the source has the truncation commented out: // list = list[:count] *)
      if count <=? 2 then
        let '(r, cs) := generate_small 0 lst cs in (r, with_codes h cs)
      else
        let lst := js_sort compareByFreq lst in
        match bitCounts h lst maxBits with
        | Stop s => (Stop s, with_codes h cs)
        | Ok (bitCount, lst) =>
            let '(r, cs) := assignEncodingAndSize bitCount lst cs in
            (r, with_codes h cs)
        end
  end.

(** *** The fixed encodings *)

Definition generateFixedLiteralEncoding : HuffmanEncoder :=
  let h := new_HuffmanEncoder MAX_NUM_LIT in
  with_codes h
    (imap (fun i _ =>
             let ch := Z.of_nat i in
             if ch <? 144 then Some (Hcode.mk (_reverseBits (ch + 48) 8) 8)
             else if ch <? 256 then Some (Hcode.mk (_reverseBits (ch + 400 - 144) 9) 9)
             else if ch <? 280 then Some (Hcode.mk (_reverseBits (ch - 256) 7) 7)
             else Some (Hcode.mk (_reverseBits (ch + 192 - 280) 8) 8))
          (codes h)).

Definition generateFixedOffsetEncoding : HuffmanEncoder :=
  let h := new_HuffmanEncoder 30 in
  with_codes h
    (imap (fun i _ => Some (Hcode.mk (_reverseBits (Z.of_nat i) 5) 5)) (codes h)).

Definition fixedLiteralEncoding : HuffmanEncoder := generateFixedLiteralEncoding.
Definition fixedOffsetEncoding : HuffmanEncoder := generateFixedOffsetEncoding.

(** ** huffman_bit_writer.ts *)

Definition OFFSET_CODE_COUNT : Z := 30.
Definition END_BLOCK_MARKER : Z := 256.
Definition LENGTH_CODES_START : Z := 257.
Definition CODEGEN_CODE_COUNT : Z := 19.
Definition BAD_CODE : Z := 255.
Definition BUFFER_FLUSH_SIZE : Z := 240.
Definition BUFFER_SIZE : Z := BUFFER_FLUSH_SIZE + 8.
Definition MAX_STORE_BLOCK_SIZE : Z := 65535.

Definition LENGTH_EXTRA_BITS : list Z :=
  [ 0; 0; 0;
    0; 0; 0; 0; 0; 1; 1; 1; 1; 2;
    2; 2; 2; 3; 3; 3; 3; 4; 4; 4;
    4; 5; 5; 5; 5; 0 ].

Definition LENGTH_BASE : list Z :=
  [ 0; 1; 2; 3; 4; 5; 6; 7; 8; 10;
    12; 14; 16; 20; 24; 28; 32; 40; 48; 56;
    64; 80; 96; 112; 128; 160; 192; 224; 255 ].

Definition OFFSET_EXTRA_BITS : list Z :=
  [ 0; 0; 0; 0; 1; 1; 2; 2; 3; 3;
    4; 4; 5; 5; 6; 6; 7; 7; 8; 8;
    9; 9; 10; 10; 11; 11; 12; 12; 13; 13 ].

Definition OFFSET_BASE : list Z :=
  [ 0x000000; 0x000001; 0x000002; 0x000003; 0x000004;
    0x000006; 0x000008; 0x00000c; 0x000010; 0x000018;
    0x000020; 0x000030; 0x000040; 0x000060; 0x000080;
    0x0000c0; 0x000100; 0x000180; 0x000200; 0x000300;
    0x000400; 0x000600; 0x000800; 0x000c00; 0x001000;
    0x001800; 0x002000; 0x003000; 0x004000; 0x006000 ].

Definition codegenOrder : list Z :=
  [16; 17; 18; 0; 8; 7; 9; 6; 10; 5; 11; 4; 12; 3; 13; 2; 14; 1; 15].

(** *** The byte sink ([Deno.Writer])

    The sink keeps the chunks it was handed, oldest first. [budget] is how
    many more writes it accepts before [write] throws ([None]: it never
    throws). *)
Record Sink := mkSink { received : list (list Z); budget : option nat }.

Definition sink_write (b : list Z) (k : Sink) : Sink + exn :=
  match budget k with
  | Some O => inr (Error "write failed")
  | Some (S n) => inl (mkSink (received k ++ [b]) (Some n))
  | None => inl (mkSink (received k ++ [b]) None)
  end.

(** All bytes the sink received, in order. *)
Definition sink_bytes (k : Sink) : list Z := concat (received k).

(** *** The writer

    The fields of [class HuffmanBitWriter], and with them the one piece of
    module-level mutable state the class reaches: the [singleton] behind
    [huffOffset.instance()]. *)
Record Writer := mkWriter {
  bits : Z;
  nbits : Z;
  bytes : list Z;
  codegenFreq : list Z;
  nbytes : Z;
  literalFreq : list Z;
  offsetFreq : list Z;
  codegen : list Z;
  literalEncoding : HuffmanEncoder;
  offsetEncoding : HuffmanEncoder;
  codegenEncoding : HuffmanEncoder;
  err : option exn;
  writer : Sink;
  singleton : option HuffmanEncoder }.

(** [new HuffmanBitWriter(writer)]. The source sizes [offsetEncoding] with
    CODEGEN_CODE_COUNT and [codegenEncoding] with OFFSET_CODE_COUNT. *)
Definition new_HuffmanBitWriter (k : Sink) : Writer :=
  mkWriter 0 0 (replicate (Z.to_nat BUFFER_SIZE) 0)
    (replicate (Z.to_nat CODEGEN_CODE_COUNT) 0) 0
    (replicate (Z.to_nat MAX_NUM_LIT) 0)
    (replicate (Z.to_nat OFFSET_CODE_COUNT) 0)
    (replicate (Z.to_nat (MAX_NUM_LIT + OFFSET_CODE_COUNT + 1)) 0)
    (new_HuffmanEncoder MAX_NUM_LIT)
    (new_HuffmanEncoder CODEGEN_CODE_COUNT)
    (new_HuffmanEncoder OFFSET_CODE_COUNT)
    None k None.

Definition set_bits v (w : Writer) := mkWriter v (nbits w) (bytes w) (codegenFreq w) (nbytes w) (literalFreq w) (offsetFreq w) (codegen w) (literalEncoding w) (offsetEncoding w) (codegenEncoding w) (err w) (writer w) (singleton w).
Definition set_nbits v (w : Writer) := mkWriter (bits w) v (bytes w) (codegenFreq w) (nbytes w) (literalFreq w) (offsetFreq w) (codegen w) (literalEncoding w) (offsetEncoding w) (codegenEncoding w) (err w) (writer w) (singleton w).
Definition set_bytes v (w : Writer) := mkWriter (bits w) (nbits w) v (codegenFreq w) (nbytes w) (literalFreq w) (offsetFreq w) (codegen w) (literalEncoding w) (offsetEncoding w) (codegenEncoding w) (err w) (writer w) (singleton w).
Definition set_codegenFreq v (w : Writer) := mkWriter (bits w) (nbits w) (bytes w) v (nbytes w) (literalFreq w) (offsetFreq w) (codegen w) (literalEncoding w) (offsetEncoding w) (codegenEncoding w) (err w) (writer w) (singleton w).
Definition set_nbytes v (w : Writer) := mkWriter (bits w) (nbits w) (bytes w) (codegenFreq w) v (literalFreq w) (offsetFreq w) (codegen w) (literalEncoding w) (offsetEncoding w) (codegenEncoding w) (err w) (writer w) (singleton w).
Definition set_literalFreq v (w : Writer) := mkWriter (bits w) (nbits w) (bytes w) (codegenFreq w) (nbytes w) v (offsetFreq w) (codegen w) (literalEncoding w) (offsetEncoding w) (codegenEncoding w) (err w) (writer w) (singleton w).
Definition set_offsetFreq v (w : Writer) := mkWriter (bits w) (nbits w) (bytes w) (codegenFreq w) (nbytes w) (literalFreq w) v (codegen w) (literalEncoding w) (offsetEncoding w) (codegenEncoding w) (err w) (writer w) (singleton w).
Definition set_codegen v (w : Writer) := mkWriter (bits w) (nbits w) (bytes w) (codegenFreq w) (nbytes w) (literalFreq w) (offsetFreq w) v (literalEncoding w) (offsetEncoding w) (codegenEncoding w) (err w) (writer w) (singleton w).
Definition set_literalEncoding v (w : Writer) := mkWriter (bits w) (nbits w) (bytes w) (codegenFreq w) (nbytes w) (literalFreq w) (offsetFreq w) (codegen w) v (offsetEncoding w) (codegenEncoding w) (err w) (writer w) (singleton w).
Definition set_offsetEncoding v (w : Writer) := mkWriter (bits w) (nbits w) (bytes w) (codegenFreq w) (nbytes w) (literalFreq w) (offsetFreq w) (codegen w) (literalEncoding w) v (codegenEncoding w) (err w) (writer w) (singleton w).
Definition set_codegenEncoding v (w : Writer) := mkWriter (bits w) (nbits w) (bytes w) (codegenFreq w) (nbytes w) (literalFreq w) (offsetFreq w) (codegen w) (literalEncoding w) (offsetEncoding w) v (err w) (writer w) (singleton w).
Definition set_err v (w : Writer) := mkWriter (bits w) (nbits w) (bytes w) (codegenFreq w) (nbytes w) (literalFreq w) (offsetFreq w) (codegen w) (literalEncoding w) (offsetEncoding w) (codegenEncoding w) v (writer w) (singleton w).
Definition set_writer v (w : Writer) := mkWriter (bits w) (nbits w) (bytes w) (codegenFreq w) (nbytes w) (literalFreq w) (offsetFreq w) (codegen w) (literalEncoding w) (offsetEncoding w) (codegenEncoding w) (err w) v (singleton w).
Definition set_singleton v (w : Writer) := mkWriter (bits w) (nbits w) (bytes w) (codegenFreq w) (nbytes w) (literalFreq w) (offsetFreq w) (codegen w) (literalEncoding w) (offsetEncoding w) (codegenEncoding w) (err w) (writer w) v.

(** Methods run in a state monad over the writer; the state survives a
    stop, as the object survives an exception. *)
Definition M (A : Type) : Type := Writer -> res A * Writer.

Definition ret {A} (a : A) : M A := fun w => (Ok a, w).
Definition bind {A B} (m : M A) (k : A -> M B) : M B :=
  fun w => match m w with
           | (Ok a, w') => k a w'
           | (Stop s, w') => (Stop s, w')
           end.
Definition lift {A} (r : res A) : M A := fun w => (r, w).
Definition get_w : M Writer := fun w => (Ok w, w).
Definition modify (f : Writer -> Writer) : M unit := fun w => (Ok tt, f w).
Definition throw {A} (e : exn) : M A := fun w => (Stop (Throw e), w).

Declare Scope writer_scope.
Delimit Scope writer_scope with M.
Notation "'do!' x <- c ;; k" := (bind c (fun x => k))
  (at level 10, x pattern, c at level 99, k at level 200) : writer_scope.
Notation "'run!' c ;; k" := (bind c (fun _ => k))
  (at level 10, c at level 99, k at level 200) : writer_scope.
Local Open Scope writer_scope.

(** [a[i]++] on a table of numbers; an absent slot would become NaN. *)
Definition freq_incr (i : Z) (a : list Z) : res (list Z) :=
  let! v := num (JS.get a i) in Ok (JS.set i (v + 1) a).

(** [a[i] = v] on a table of numbers: in range, or appending at the end;
    further out the array would get holes. *)
Definition freq_put (i v : Z) (a : list Z) : res (list Z) :=
  if (0 <=? i) && (i <? JS.len a) then Ok (JS.set i v a)
  else if i =? JS.len a then Ok (a ++ [v])
  else Stop NaN.

Definition reset (k : Sink) : M unit :=
  modify (fun w => set_err None (set_nbytes 0 (set_nbits 0 (set_bits 0 (set_writer k w))))).

(** [write(b)]: the sink's exception is caught into [err]. *)
Definition write (b : list Z) : M unit := fun w =>
  match err w with
  | Some _ => (Ok tt, w)
  | None =>
      match sink_write b (writer w) with
      | inl k => (Ok tt, set_writer k w)
      | inr e => (Ok tt, set_err (Some e) w)
      end
  end.

(** The loop of [flush]. [n] is [const n = this.nbytes]: the source never
    advances it, every pending byte is stored at the same index. *)
Fixpoint flush_loop (fuel : nat) (n : Z) : M unit :=
  match fuel with
  | O => lift (Stop Diverge)
  | S fuel' =>
      do! w <- get_w ;;
      if negb (nbits w =? 0) then
        run! modify (fun w => set_bytes (JS.set_u8 n (bits w) (bytes w)) w) ;;
        run! modify (fun w => set_bits (JS.sar (bits w) 8) w) ;;
        run! modify (fun w => if nbits w >? 8 then set_nbits (nbits w - 8) w
                              else set_nbits 0 w) ;;
        flush_loop fuel' n
      else ret tt
  end.

(** The loop ends within [nbits + 2] turns whatever [nbits] is: a turn
    takes 8 off [nbits] while it is above 8 and sets it to 0 otherwise
    (so also when it is negative), and one more turn sees the 0. *)
Definition flush : M unit :=
  do! w <- get_w ;;
  match err w with
  | Some _ => modify (set_nbits 0)
  | None =>
      let n := nbytes w in
      run! flush_loop (Z.to_nat (nbits w) + 2) n ;;
      run! modify (set_bits 0) ;;
      do! w <- get_w ;;
      run! write (JS.slice 0 n (bytes w)) ;;
      modify (set_nbytes 0)
  end.

(** The [if (this.nbits >= 48) { ... }] block that [writeBits] and
    [writeCode] both carry. [this.bytes.slice(n, n + 6)] is a copy: the six
    stores go to the copy and [this.bytes] keeps its content. *)
Definition store_six : M unit :=
  do! w <- get_w ;;
  if nbits w >=? 48 then
    let bits0 := bits w in
    run! modify (fun w => set_bits (JS.sar (bits w) 48) w) ;;
    run! modify (fun w => set_nbits (nbits w - 48) w) ;;
    let n := nbytes w in
    let copy := JS.slice n (n + 6) (bytes w) in
    let copy := JS.set_u8 0 bits0 copy in
    let copy := JS.set_u8 1 (JS.sar bits0 8) copy in
    let copy := JS.set_u8 2 (JS.sar bits0 16) copy in
    let copy := JS.set_u8 3 (JS.sar bits0 24) copy in
    let copy := JS.set_u8 4 (JS.sar bits0 32) copy in
    let copy := JS.set_u8 5 (JS.sar bits0 40) copy in
    let n := n + 6 in
    do! n <- (if n >=? BUFFER_FLUSH_SIZE
              then do! w <- get_w ;;
                   run! write (JS.slice 0 n (bytes w)) ;;
                   ret 0
              else ret n) ;;
    modify (set_nbytes n)
  else ret tt.

Definition writeBits (b nb : Z) : M unit :=
  do! w <- get_w ;;
  match err w with
  | Some _ => ret tt
  | None =>
      run! modify (fun w => set_bits (JS.or (bits w) (JS.shl b (nbits w))) w) ;;
      run! modify (fun w => set_nbits (nbits w + nb) w) ;;
      store_six
  end.

(** [writeCode(c)]; [None] is an [undefined] argument. *)
Definition writeCode (c : option Hcode.t) : M unit :=
  do! w <- get_w ;;
  match err w with
  | Some _ => ret tt
  | None =>
      match c with
      | None => throw TypeError
      | Some c =>
          run! modify (fun w => set_bits (JS.or (bits w) (JS.shl (Hcode.code c) (nbits w))) w) ;;
          run! modify (fun w => set_nbits (nbits w + Hcode.len c) w) ;;
          store_six
      end
  end.

(** [while (this.nbits !== 0) { this.bytes[n] = this.bits; ...; n++ }] *)
Fixpoint writeBytes_loop (fuel : nat) (n : Z) : M Z :=
  match fuel with
  | O => do! w <- get_w ;;
         if nbits w =? 0 then ret n else lift (Stop Diverge)
  | S fuel' =>
      do! w <- get_w ;;
      if negb (nbits w =? 0) then
        run! modify (fun w => set_bytes (JS.set_u8 n (bits w) (bytes w)) w) ;;
        run! modify (fun w => set_bits (JS.sar (bits w) 8) w) ;;
        run! modify (fun w => set_nbits (nbits w - 8) w) ;;
        writeBytes_loop fuel' (n + 1)
      else ret n
  end.

Definition writeBytes (b : list Z) : M unit :=
  do! w <- get_w ;;
  match err w with
  | Some _ => ret tt
  | None =>
      let n := nbytes w in
      if negb (JS.and (nbits w) 7 =? 0) then
        modify (set_err (Some (Error "flate: internal error: writeBytes with unfinished bits")))
      else
        do! n <- writeBytes_loop (Z.to_nat (nbits w / 8)) n ;;
        run! (if negb (n =? 0)
              then do! w <- get_w ;; write (JS.slice 0 n (bytes w))
              else ret tt) ;;
        run! modify (set_nbytes 0) ;;
        write b
  end.

(** *** generateCodegen *)

(** [for (i = 0; i < cgnl.length; i++) cgnl[i] = enc.codes[i].len] *)
Fixpoint copy_lens (n : nat) (i : Z) (cgnl : list Z) (cs : list (option Hcode.t))
    : res (list Z) :=
  match n with
  | O => Ok cgnl
  | S n' =>
      let! c := deref (JS.get cs i) in
      copy_lens n' (i + 1) (JS.set_u8 i (Hcode.len c) cgnl) cs
  end.

(** The run-length loop works on [(count, outIndex, codegen, codegenFreq)]. *)
Definition rle_state : Type := Z * Z * list Z * list Z.

(** [while (count >= 3) { n = min(6, count); emit 16, n - 3; count -= n }] *)
Fixpoint rle_repeat (fuel : nat) (st : rle_state) : res rle_state :=
  let '(count, outIndex, cg, cf) := st in
  match fuel with
  | O => Stop Diverge
  | S fuel' =>
      if count >=? 3 then
        let n := if 6 >? count then count else 6 in
        let cg := JS.set_u8 outIndex 16 cg in
        let outIndex := outIndex + 1 in
        let cg := JS.set_u8 outIndex (n - 3) cg in
        let outIndex := outIndex + 1 in
        let! cf := freq_incr 16 cf in
        rle_repeat fuel' (count - n, outIndex, cg, cf)
      else Ok st
  end.

(** [while (count >= 11) { n = min(138, count); emit 18, n - 11; count -= n }] *)
Fixpoint rle_zeros (fuel : nat) (st : rle_state) : res rle_state :=
  let '(count, outIndex, cg, cf) := st in
  match fuel with
  | O => Stop Diverge
  | S fuel' =>
      if count >=? 11 then
        let n := if 138 >? count then count else 138 in
        let cg := JS.set_u8 outIndex 18 cg in
        let outIndex := outIndex + 1 in
        let cg := JS.set_u8 outIndex (n - 11) cg in
        let outIndex := outIndex + 1 in
        let! cf := freq_incr 18 cf in
        rle_zeros fuel' (count - n, outIndex, cg, cf)
      else Ok st
  end.

(** [for (; count >= 0; count--) { emit size }] *)
Fixpoint rle_rest (fuel : nat) (size : Z) (st : rle_state) : res rle_state :=
  let '(count, outIndex, cg, cf) := st in
  match fuel with
  | O => Stop Diverge
  | S fuel' =>
      if count >=? 0 then
        let cg := JS.set_u8 outIndex size cg in
        let outIndex := outIndex + 1 in
        let! cf := freq_incr size cf in
        rle_rest fuel' size (count - 1, outIndex, cg, cf)
      else Ok st
  end.

(** Generate the codes for [count] copies of [size]. *)
Definition rle_run (size : Z) (st : rle_state) : res rle_state :=
  let '(count, outIndex, cg, cf) := st in
  let! (count, outIndex, cg, cf) :=
    if negb (size =? 0) then
      let cg := JS.set_u8 outIndex size cg in
      let outIndex := outIndex + 1 in
      let! cf := freq_incr size cf in
      let count := count - 1 in
      rle_repeat (Z.to_nat count + 1) (count, outIndex, cg, cf)
    else
      let! (count, outIndex, cg, cf) :=
        rle_zeros (Z.to_nat count + 1) (count, outIndex, cg, cf) in
      if count >=? 3 then
        let cg := JS.set_u8 outIndex 17 cg in
        let outIndex := outIndex + 1 in
        let cg := JS.set_u8 outIndex (count - 3) cg in
        let outIndex := outIndex + 1 in
        let! cf := freq_incr 17 cf in
        Ok (0, outIndex, cg, cf)
      else Ok (count, outIndex, cg, cf)
  in
  let count := count - 1 in
  rle_rest (Z.to_nat (count + 1) + 1) size (count, outIndex, cg, cf).

Definition same_size (a b : option Z) : bool :=
  match a, b with
  | Some x, Some y => x =? y
  | None, None => true
  | _, _ => false
  end.

(** [for (inIndex = 1; size != BAD_CODE; inIndex++)]; [size] is [None]
    once the read ran past the buffer. Returns [outIndex] and both arrays. *)
Fixpoint rle_loop (fuel : nat) (inIndex : Z) (size : option Z) (st : rle_state)
    : res rle_state :=
  let '(count, outIndex, cg, cf) := st in
  match fuel with
  | O => Stop Diverge
  | S fuel' =>
      if negb (same_size size (Some BAD_CODE)) then
        let nextSize := JS.get cg inIndex in
        if same_size nextSize size
        then rle_loop fuel' (inIndex + 1) size (count + 1, outIndex, cg, cf)
        else
          let! s := num size in
          let! (_, outIndex, cg, cf) := rle_run s st in
          rle_loop fuel' (inIndex + 1) nextSize (1, outIndex, cg, cf)
      else Ok st
  end.

(** [generateCodegen(numLiterals, numOffsets, litEnc, offEnc)]. Both
    [cgnl] arrays are [codegen.slice(...)]: copies. The code lengths are
    stored into the copies; [codegen] itself only gets the marker. *)
Definition generateCodegen (numLiterals numOffsets : Z)
    (litEnc offEnc : HuffmanEncoder) : M unit :=
  run! modify (fun w => set_codegenFreq ((fun _ => 0) <$> codegenFreq w) w) ;;
  do! w <- get_w ;;
  let cg := codegen w in
  let cgnl := JS.slice 0 numLiterals cg in
  do! cgnl <- lift (copy_lens (length cgnl) 0 cgnl (codes litEnc)) ;;
  let cgnl := JS.slice numLiterals (numLiterals + numOffsets) cg in
  do! cgnl <- lift (copy_lens (length cgnl) 0 cgnl (codes offEnc)) ;;
  let cg := JS.set_u8 (numLiterals + numOffsets) BAD_CODE cg in
  run! modify (set_codegen cg) ;;
  let size := JS.get cg 0 in
  match rle_loop (length cg + 2) 1 size (1, 0, cg, codegenFreq w) with
  | Stop s => lift (Stop s)
  | Ok (_, outIndex, cg, cf) =>
      run! modify (set_codegenFreq cf) ;;
      modify (set_codegen (JS.set_u8 outIndex BAD_CODE cg))
  end.

(** *** Sizes *)

(** Run [generate] on one of the writer's encoders. *)
Definition generate_with (get : Writer -> HuffmanEncoder)
    (put : HuffmanEncoder -> Writer -> Writer) (freq : list Z) (maxBits : Z)
    : M unit :=
  fun w => let '(r, h) := generate (get w) freq maxBits in (r, put h w).

(** [while (numCodegens > 4 && codegenFreq[codegenOrder[numCodegens-1]] === 0)] *)
Fixpoint trim_codegens (fuel : nat) (numCodegens : Z) (cf : list Z) : Z :=
  match fuel with
  | O => numCodegens
  | S fuel' =>
      if (numCodegens >? 4)
         && match (i ← JS.get codegenOrder (numCodegens - 1); JS.get cf i) with
            | Some 0 => true
            | _ => false
            end
      then trim_codegens fuel' (numCodegens - 1) cf
      else numCodegens
  end.

Definition dynamicSize (litEnc offEnc : HuffmanEncoder) (extraBits : Z)
    : M (Z * Z) :=
  do! w <- get_w ;;
  let cf := codegenFreq w in
  let numCodegens := trim_codegens (length cf) (JS.len cf) cf in
  lift (let! cgbits := bitLength (codegenEncoding w) (JS.slice_from 0 cf) in
        let! f16 := num (JS.get cf 16) in
        let! f17 := num (JS.get cf 17) in
        let! f18 := num (JS.get cf 18) in
        let header := 3 + 5 + 5 + 4 + (3 * numCodegens) + cgbits
                      + f16 * 2 + f17 * 3 + f18 * 7 in
        let! lbits := bitLength litEnc (literalFreq w) in
        let! obits := bitLength offEnc (offsetFreq w) in
        Ok (header + lbits + obits + extraBits, numCodegens)).

Definition fixedSize (extraBits : Z) : M Z :=
  do! w <- get_w ;;
  lift (let! lbits := bitLength fixedLiteralEncoding (literalFreq w) in
        let! obits := bitLength fixedOffsetEncoding (offsetFreq w) in
        Ok (3 + lbits + obits + extraBits)).

(** [storedSize(inBytes)]; [None] is [null]. *)
Definition storedSize (inBytes : option (list Z)) : Z * bool :=
  match inBytes with
  | None => (0, false)
  | Some b =>
      if JS.len b <=? MAX_STORE_BLOCK_SIZE then ((JS.len b + 5) * 8, true)
      else (0, false)
  end.

(** The test [storable && ssize < (size + size >> 4)] of [writeBlockDynamic]
    and [writeBlockHuff]. [+] binds tighter than [>>]: the right-hand side
    is [(size + size) >> 4]. *)
Definition store_instead (storable : bool) (ssize size : Z) : bool :=
  storable && (ssize <? JS.sar (size + size) 4).

(** What the claim compares against: [size + size / 16]. *)
Definition store_margin (storable : bool) (ssize size : Z) : bool :=
  storable && (ssize <? size + Z.shiftr size 4).

(** *** Headers *)

Fixpoint header_lengths (n : nat) (i numCodegens : Z) : M unit :=
  match n with
  | O => ret tt
  | S n' =>
      if i <? numCodegens then
        do! w <- get_w ;;
        do! c <- lift (deref (k ← JS.get codegenOrder i;
                              JS.get (codes (codegenEncoding w)) k)) ;;
        run! writeBits (Hcode.len c) 3 ;;
        header_lengths n' (i + 1) numCodegens
      else ret tt
  end.

(** The [while (true)] loop over [codegen]; an [undefined] extra-bits
    operand of [<<] counts as 0. *)
Fixpoint header_codegen (fuel : nat) (i : Z) : M unit :=
  match fuel with
  | O => lift (Stop Diverge)
  | S fuel' =>
      do! w <- get_w ;;
      let codeWord := JS.get (codegen w) i in
      let i := i + 1 in
      if same_size codeWord (Some BAD_CODE) then ret tt
      else
        run! writeCode (mjoin (k ← codeWord; JS.get (codes (codegenEncoding w)) k)) ;;
        do! w <- get_w ;;
        let extra := default 0 (JS.get (codegen w) i) in
        match codeWord with
        | Some 16 => run! writeBits extra 2 ;; header_codegen fuel' (i + 1)
        | Some 17 => run! writeBits extra 3 ;; header_codegen fuel' (i + 1)
        | Some 18 => run! writeBits extra 7 ;; header_codegen fuel' (i + 1)
        | _ => header_codegen fuel' i
        end
  end.

Definition writeDynamicHeader (numLiterals numOffsets numCodegens : Z)
    (isEof : bool) : M unit :=
  do! w <- get_w ;;
  match err w with
  | Some _ => ret tt
  | None =>
      let firstBits := if isEof then 5 else 4 in
      run! writeBits firstBits 3 ;;
      run! writeBits (numLiterals - 257) 5 ;;
      run! writeBits (numOffsets - 1) 5 ;;
      run! writeBits (numCodegens - 4) 4 ;;
      run! header_lengths (Z.to_nat numCodegens) 0 numCodegens ;;
      header_codegen (length (codegen w) + 1) 0
  end.

Definition writeStoredHeader (length : Z) (isEof : bool) : M unit :=
  do! w <- get_w ;;
  match err w with
  | Some _ => ret tt
  | None =>
      let flag := if isEof then 1 else 0 in
      run! writeBits flag 3 ;;
      run! flush ;;
      run! writeBits length 16 ;;
      writeBits (JS.not length) 16
  end.

Definition writeFixedHeader (isEof : bool) : M unit :=
  do! w <- get_w ;;
  match err w with
  | Some _ => ret tt
  | None =>
      let value := if isEof then 3 else 2 in
      writeBits value 3
  end.

(** *** indexTokens and writeTokens *)

Fixpoint index_loop (tokens : list Token) (lf ofr : list Z)
    : res (list Z * list Z) :=
  match tokens with
  | [] => Ok (lf, ofr)
  | token :: rest =>
      if value token <? MATCH_TYPE then
        let! lf := freq_incr (Tok.literal token) lf in
        index_loop rest lf ofr
      else
        let length := Tok.length token in
        let offset := Tok.offset token in
        let! lc := num (lengthCode length) in
        let! lf := freq_incr (LENGTH_CODES_START + lc) lf in
        let! oc := num (offsetCode offset) in
        let! ofr := freq_incr oc ofr in
        index_loop rest lf ofr
  end.

(** [while (this.literalFreq[numLiterals - 1] === 0) numLiterals--] *)
Fixpoint trim_literals (fuel : nat) (numLiterals : Z) (lf : list Z) : Z :=
  match fuel with
  | O => numLiterals
  | S fuel' =>
      match JS.get lf (numLiterals - 1) with
      | Some 0 => trim_literals fuel' (numLiterals - 1) lf
      | _ => numLiterals
      end
  end.

(** [while (numOffsets > 0 && this.offsetFreq[numOffsets - 1] === 0) numOffsets--] *)
Fixpoint trim_offsets (fuel : nat) (numOffsets : Z) (ofr : list Z) : Z :=
  match fuel with
  | O => numOffsets
  | S fuel' =>
      if (numOffsets >? 0)
         && match JS.get ofr (numOffsets - 1) with Some 0 => true | _ => false end
      then trim_offsets fuel' (numOffsets - 1) ofr
      else numOffsets
  end.

Definition indexTokens (tokens : list Token) : M (Z * Z) :=
  run! modify (fun w => set_literalFreq ((fun _ => 0) <$> literalFreq w) w) ;;
  run! modify (fun w => set_offsetFreq ((fun _ => 0) <$> offsetFreq w) w) ;;
  do! w <- get_w ;;
  do! (lf, ofr) <- lift (index_loop tokens (literalFreq w) (offsetFreq w)) ;;
  run! modify (set_literalFreq lf) ;;
  run! modify (set_offsetFreq ofr) ;;
  let numLiterals := trim_literals (length lf + 1) (JS.len lf) lf in
  let numOffsets := trim_offsets (length ofr) (JS.len ofr) ofr in
  do! numOffsets <-
    (if numOffsets =? 0
     then do! ofr <- lift (freq_put 0 1 ofr) ;;
          run! modify (set_offsetFreq ofr) ;;
          ret 1
     else ret numOffsets) ;;
  do! w <- get_w ;;
  run! generate_with literalEncoding set_literalEncoding (literalFreq w) 15 ;;
  run! generate_with offsetEncoding set_offsetEncoding (offsetFreq w) 15 ;;
  ret (numLiterals, numOffsets).

Fixpoint writeTokens_loop (tokens : list Token)
    (leCodes oeCodes : list (option Hcode.t)) : M unit :=
  match tokens with
  | [] => ret tt
  | token :: rest =>
      if value token <? MATCH_TYPE then
        run! writeCode (mjoin (JS.get leCodes (Tok.literal token))) ;;
        writeTokens_loop rest leCodes oeCodes
      else
        (* Write the length *)
        let length := Tok.length token in
        do! lCode <- lift (num (lengthCode length)) ;;
        run! writeCode (mjoin (JS.get leCodes (lCode + LENGTH_CODES_START))) ;;
        do! extraLengthBits <- lift (num (JS.get LENGTH_EXTRA_BITS lCode)) ;;
        run! (if extraLengthBits >? 0
              then do! base <- lift (num (JS.get LENGTH_BASE lCode)) ;;
                   writeBits (length - base) extraLengthBits
              else ret tt) ;;
        (* Write the offset *)
        let offset := Tok.offset token in
        do! oCode <- lift (num (offsetCode offset)) ;;
        run! writeCode (mjoin (JS.get oeCodes oCode)) ;;
        do! extraOffsetBits <- lift (num (JS.get OFFSET_EXTRA_BITS oCode)) ;;
        run! (if extraOffsetBits >? 0
              then do! base <- lift (num (JS.get OFFSET_BASE oCode)) ;;
                   writeBits (offset - base) extraOffsetBits
              else ret tt) ;;
        writeTokens_loop rest leCodes oeCodes
  end.

Definition writeTokens (tokens : list Token)
    (leCodes oeCodes : list (option Hcode.t)) : M unit :=
  do! w <- get_w ;;
  match err w with
  | Some _ => ret tt
  | None => writeTokens_loop tokens leCodes oeCodes
  end.

(** *** writeBlock and writeBlockDynamic *)

(** [for (code = from; code < upto; code++) extraBits += freq[code] * table[code - base]] *)
Fixpoint extra_loop (n : nat) (code upto base : Z) (freq table : list Z)
    (extraBits : Z) : res Z :=
  match n with
  | O => Ok extraBits
  | S n' =>
      if code <? upto then
        let! f := num (JS.get freq code) in
        let! e := num (JS.get table (code - base)) in
        extra_loop n' (code + 1) upto base freq table (extraBits + f * e)
      else Ok extraBits
  end.

Definition writeBlock (tokens : list Token) (eof : bool)
    (input : option (list Z)) : M unit :=
  do! w <- get_w ;;
  match err w with
  | Some _ => ret tt
  | None =>
      let tokens := tokens ++ [mkToken END_BLOCK_MARKER] in
      do! (numLiterals, numOffsets) <- indexTokens tokens ;;
      let '(storedSize, storable) := storedSize input in
      do! w <- get_w ;;
      do! extraBits <-
        (if storable then
           lift (let! e := extra_loop (Z.to_nat numLiterals) (LENGTH_CODES_START + 8)
                             numLiterals LENGTH_CODES_START (literalFreq w)
                             LENGTH_EXTRA_BITS 0 in
                 extra_loop (Z.to_nat numOffsets) 4 numOffsets 0 (offsetFreq w)
                   OFFSET_EXTRA_BITS e)
         else ret 0) ;;
      (* Fixed Huffman baseline. *)
      do! size <- fixedSize extraBits ;;
      do! w <- get_w ;;
      run! generateCodegen numLiterals numOffsets (literalEncoding w) (offsetEncoding w) ;;
      do! w <- get_w ;;
      run! generate_with codegenEncoding set_codegenEncoding
             (JS.slice_from 0 (codegenFreq w)) 7 ;;
      do! w <- get_w ;;
      do! (dynamicSize, numCodegens) <-
        dynamicSize (literalEncoding w) (offsetEncoding w) extraBits ;;
      (* [useFixed] stands for [literalEncoding === fixedLiteralEncoding] *)
      let useFixed := negb (dynamicSize <? size) in
      let size := if dynamicSize <? size then dynamicSize else size in
      if storable && (storedSize <? size) then
        run! writeStoredHeader (JS.len (default [] input)) eof ;;
        writeBytes (default [] input)
      else
        run! (if useFixed then writeFixedHeader eof
              else writeDynamicHeader numLiterals numOffsets numCodegens eof) ;;
        do! w <- get_w ;;
        if useFixed
        then writeTokens tokens (codes fixedLiteralEncoding) (codes fixedOffsetEncoding)
        else writeTokens tokens (codes (literalEncoding w)) (codes (offsetEncoding w))
  end.

Definition writeBlockDynamic (tokens : list Token) (eof : bool)
    (input : option (list Z)) : M unit :=
  do! w <- get_w ;;
  match err w with
  | Some _ => ret tt
  | None =>
      let tokens := tokens ++ [mkToken END_BLOCK_MARKER] in
      do! (numLiterals, numOffsets) <- indexTokens tokens ;;
      do! w <- get_w ;;
      run! generateCodegen numLiterals numOffsets (literalEncoding w) (offsetEncoding w) ;;
      do! w <- get_w ;;
      run! generate_with codegenEncoding set_codegenEncoding
             (JS.slice_from 0 (codegenFreq w)) 7 ;;
      do! w <- get_w ;;
      do! (size, numCodegens) <-
        dynamicSize (literalEncoding w) (offsetEncoding w) 0 ;;
      (* Store bytes, if we don't get a reasonable improvement. *)
      let '(ssize, storable) := storedSize input in
      if store_instead storable ssize size then
        run! writeStoredHeader (JS.len (default [] input)) eof ;;
        writeBytes (default [] input)
      else
        run! writeDynamicHeader numLiterals numOffsets numCodegens eof ;;
        do! w <- get_w ;;
        writeTokens tokens (codes (literalEncoding w)) (codes (offsetEncoding w))
  end.

(** *** histogram

    [histogram(b, h)] receives the array [h] by reference and rebinds its
    parameter to [h.slice(0, 256)]. To see what the caller's array goes
    through, arrays of numbers live in a store here and are named by their
    address. A slot is [Some z], or [None] for NaN or a hole. *)
Module Heap.
Definition t : Type := list (list (option Z)).

(** A fresh array: its address is the next free one. *)
Definition alloc (a : list (option Z)) (hp : t) : nat * t :=
  (length hp, hp ++ [a]).

(** [a[i]++] on one array: a number is incremented, anything else
    (NaN, a hole, a slot past the end) is NaN afterwards. *)
Definition bump (i : Z) (a : list (option Z)) : list (option Z) :=
  match JS.get a i with
  | Some (Some v) => JS.set i (Some (v + 1)) a
  | Some None => a
  | None => if i <? 0 then a
            else a ++ replicate (Z.to_nat i - length a) None ++ [None]
  end.

(** [h[i]++] through the address [h]. *)
Definition incr (h : nat) (i : Z) (hp : t) : t :=
  match hp !! h with
  | Some a => <[h := bump i a]> hp
  | None => hp
  end.

(** Read an array back as a table of numbers. *)
Definition numbers (h : nat) (hp : t) : res (list Z) :=
  match hp !! h with
  | Some a => match mapM id a with Some l => Ok l | None => Stop NaN end
  | None => Stop (Throw TypeError)
  end.
End Heap.

(** [function histogram(b, h) { h = h.slice(0, 256); for (const t of b) h[t]++ }] *)
Definition histogram (b : list Z) (h : nat) (hp : Heap.t) : res Heap.t :=
  match hp !! h with
  | None => Stop (Throw TypeError)
  | Some a =>
      let '(h, hp) := Heap.alloc (JS.slice 0 256 a) hp in
      Ok (fold_left (fun hp t => Heap.incr h t hp) b hp)
  end.

(** *** writeBlockHuff *)

(** [huffOffset.instance()] *)
Definition huffOffset_instance : M HuffmanEncoder := fun w =>
  match singleton w with
  | Some h => (Ok h, w)
  | None =>
      let offsetFreq := JS.set 0 1 (replicate (Z.to_nat OFFSET_CODE_COUNT) 0) in
      let huffOffset := new_HuffmanEncoder OFFSET_CODE_COUNT in
      match generate huffOffset offsetFreq 15 with
      | (Ok _, huffOffset) => (Ok huffOffset, set_singleton (Some huffOffset) w)
      | (Stop s, _) => (Stop s, w)
      end
  end.

(** The frequency tables [writeBlockHuff] sets up, from "Clear histogram"
    to [const numOffsets = 1]. *)
Definition huff_frequencies (input : list Z) : M unit :=
  run! modify (fun w => set_literalFreq ((fun _ => 0) <$> literalFreq w) w) ;;
  do! w <- get_w ;;
  let '(h, hp) := Heap.alloc (Some <$> literalFreq w) [] in
  do! hp <- lift (histogram input h hp) ;;
  do! lf <- lift (Heap.numbers h hp) ;;
  do! lf <- lift (freq_put END_BLOCK_MARKER 1 lf) ;;
  run! modify (set_literalFreq lf) ;;
  do! ofr <- lift (freq_put 0 1 (offsetFreq w)) ;;
  modify (set_offsetFreq ofr).

(** The inlined bit writing of [writeBlockHuff]; [None] is the early
    [return] after a failed write. *)
Fixpoint huff_loop (input : list Z) (encoding : list (option Hcode.t)) (n : Z)
    : M (option Z) :=
  match input with
  | [] => ret (Some n)
  | t :: rest =>
      do! c <- lift (deref (JS.get encoding t)) ;;
      run! modify (fun w => set_bits (JS.or (bits w) (JS.shl (Hcode.code c) (nbits w))) w) ;;
      run! modify (fun w => set_nbits (nbits w + Hcode.len c) w) ;;
      do! w <- get_w ;;
      if nbits w <? 48 then huff_loop rest encoding n
      else
        (* Store 6 bytes *)
        let bits0 := bits w in
        run! modify (fun w => set_bits (JS.sar (bits w) 48) w) ;;
        run! modify (fun w => set_nbits (nbits w - 48) w) ;;
        let copy := JS.slice n (n + 6) (bytes w) in
        let copy := JS.set_u8 0 bits0 copy in
        let copy := JS.set_u8 1 (JS.sar bits0 8) copy in
        let copy := JS.set_u8 2 (JS.sar bits0 16) copy in
        let copy := JS.set_u8 3 (JS.sar bits0 24) copy in
        let copy := JS.set_u8 4 (JS.sar bits0 32) copy in
        let copy := JS.set_u8 5 (JS.sar bits0 40) copy in
        let n := n + 6 in
        if n <? BUFFER_FLUSH_SIZE then huff_loop rest encoding n
        else
          run! write (JS.slice 0 n (bytes w)) ;;
          do! w <- get_w ;;
          match err w with
          | Some _ => ret None
          | None => huff_loop rest encoding 0
          end
  end.

(** [writeBlockHuff] after [this.literalEncoding.generate(...)]: from
    "Figure out smallest code" on. *)
Definition huff_emit (eof : bool) (input : list Z) : M unit :=
  let numLiterals := END_BLOCK_MARKER + 1 in
  let numOffsets := 1 in
  do! w <- get_w ;;
  do! off <- huffOffset_instance ;;
  run! generateCodegen numLiterals numOffsets (literalEncoding w) off ;;
  do! w <- get_w ;;
  run! generate_with codegenEncoding set_codegenEncoding
         (JS.slice_from 0 (codegenFreq w)) 7 ;;
  do! w <- get_w ;;
  do! off <- huffOffset_instance ;;
  do! (size, numCodegens) <- dynamicSize (literalEncoding w) off 0 ;;
  (* Store bytes, if we don't get a reasonable improvement. *)
  let '(ssize, storable) := storedSize (Some input) in
  if store_instead storable ssize size then
    run! writeStoredHeader (JS.len input) eof ;;
    writeBytes input
  else
    run! writeDynamicHeader numLiterals numOffsets numCodegens eof ;;
    do! w <- get_w ;;
    let encoding := JS.slice 0 257 (codes (literalEncoding w)) in
    let n := nbytes w in
    do! r <- huff_loop input encoding n ;;
    match r with
    | None => ret tt
    | Some n =>
        run! modify (set_nbytes n) ;;
        writeCode (mjoin (JS.get encoding END_BLOCK_MARKER))
    end.

(** [writeBlockHuff] from [this.literalEncoding.generate(this.literalFreq, 15)]
    on. *)
Definition huff_encode (eof : bool) (input : list Z) : M unit :=
  do! w <- get_w ;;
  run! generate_with literalEncoding set_literalEncoding (literalFreq w) 15 ;;
  huff_emit eof input.

Definition writeBlockHuff (eof : bool) (input : list Z) : M unit :=
  do! w <- get_w ;;
  match err w with
  | Some _ => ret tt
  | None =>
      run! huff_frequencies input ;;
      huff_encode eof input
  end.

(** ** deflatefast.ts: the encoder *)

(** [BigInt(b[i]) | BigInt(b[i + 1]) << BigInt(8) | ...]: exact integers;
    [BigInt(undefined)] throws a TypeError. *)
Definition load64 (b : list Z) (i : Z) : res Z :=
  let byte k : res Z :=
    match JS.get b (i + k) with
    | Some v => Ok v
    | None => Stop (Throw TypeError)
    end in
  let! b0 := byte 0 in
  let! b1 := byte 1 in
  let! b2 := byte 2 in
  let! b3 := byte 3 in
  let! b4 := byte 4 in
  let! b5 := byte 5 in
  let! b6 := byte 6 in
  let! b7 := byte 7 in
  Ok (Z.lor (Z.lor (Z.lor (Z.lor (Z.lor (Z.lor (Z.lor b0
        (Z.shiftl b1 8)) (Z.shiftl b2 16)) (Z.shiftl b3 24))
        (Z.shiftl b4 32)) (Z.shiftl b5 40)) (Z.shiftl b6 48)) (Z.shiftl b7 56)).

(** The [bigint] branch of [hash]:
    [Math.floor(Number((u * BigInt(0x1e35a7bd)) / BigInt(2 ** TABLE_SHIFT)))].
    The product and the quotient (truncated) are exact; [Number] rounds
    the quotient to a double. *)
Definition hash_bigint (u : Z) : Z :=
  JS.round53 (Z.quot (u * 0x1e35a7bd) (2 ^ TABLE_SHIFT)).

(** [for (const v of lit) dst.push(literalToken(v)); return dst] *)
Definition emitLiteral (dst : list Token) (lit : list Z) : list Token :=
  dst ++ (literalToken <$> lit).

(** [for (let i = 0; i < n; i++) if (a[i] !== b[i]) return i]: the index
    returned from inside the loop, [None] when the loop runs to its end. *)
Fixpoint first_diff (n : nat) (i : Z) (a b : list Z) : option Z :=
  match n with
  | O => None
  | S n' =>
      if bool_decide (JS.get a i = JS.get b i)
      then first_diff n' (i + 1) a b
      else Some i
  end.

Module TableEntry.
Record t := mk { val : Z; offset : Z }.
End TableEntry.

Module DeflateFast.

Definition MAX_INT32 : Z := 2 ^ 31 - 1.
Definition BUFFER_RESET : Z := MAX_INT32 - MAX_STORE_BLOCK_SIZE * 2.
Definition BASE_MATCH_LENGTH : Z := 3.
Definition MIN_MATCH_LENGTH : Z := 4.
Definition MAX_MATCH_LENGTH : Z := 258.
Definition BASE_MATCH_OFFSET : Z := 1.
Definition MAX_MATCH_OFFSET : Z := JS.shl 1 15.
Definition INPUT_MARGIN : Z := 16 - 1.
Definition MIN_NON_LITERAL_BLOCK_SIZE : Z := 1 + 1 + INPUT_MARGIN.

(** [class DeflateFast]. A slot of [table] is [None] when it is a hole. *)
Record t := mk {
  table : list (option TableEntry.t);
  prev : list Z;
  cur : Z }.

(** [new DeflateFast()] *)
Definition new : t :=
  mk (replicate (Z.to_nat TABLE_SIZE) (Some (TableEntry.mk 0 0)))
     (replicate (Z.to_nat MAX_STORE_BLOCK_SIZE) 0)
     MAX_STORE_BLOCK_SIZE.

(** [matchLen(s, t, src)], which reads [this.prev]. *)
Definition matchLen (prev : list Z) (s t : Z) (src : list Z) : Z :=
  let s1 := s + MAX_MATCH_LENGTH - 4 in
  let s1 := if s1 >? JS.len src then JS.len src else s1 in
  if t >=? 0 then
    (* inside the current block *)
    let b := JS.slice_from t src in
    let a := JS.slice s s1 src in
    let b := JS.slice 0 (JS.len a) b in
    match first_diff (length a) 0 a b with
    | Some i => i
    | None => JS.len a
    end
  else
    (* a match in the previous block *)
    let tp := JS.len prev + t in
    if tp <? 0 then 0
    else
      let a := JS.slice s s1 src in
      let b := JS.slice_from tp prev in
      let b := if JS.len b >? JS.len a then JS.slice 0 (JS.len a) b else b in
      let a := JS.slice 0 (JS.len b) a in
      match first_diff (length b) 0 a b with
      | Some i => i
      | None =>
          let n := JS.len b in
          if s + n =? s1 then n
          else
            (* continue in the current block *)
            let a := JS.slice (s + n) s1 src in
            let b := JS.slice 0 (JS.len a) src in
            match first_diff (length a) 0 a b with
            | Some i => i + n
            | None => JS.len a + n
            end
      end.

(** The second loop of [shiftOffsets]:
    [this.table[i].offset = max(0, this.table[i].offset - cur + MAX_MATCH_OFFSET + 1)].
    It stops with a TypeError at a hole, the entries before it updated. *)
Fixpoint shift_entries (cur : Z) (tbl : list (option TableEntry.t))
    : res unit * list (option TableEntry.t) :=
  match tbl with
  | [] => (Ok tt, [])
  | None :: _ => (Stop (Throw TypeError), tbl)
  | Some e :: rest =>
      let v := TableEntry.offset e - cur + MAX_MATCH_OFFSET + 1 in
      let v := if v <? 0 then 0 else v in
      let '(r, rest) := shift_entries cur rest in
      (r, Some (TableEntry.mk (TableEntry.val e) v) :: rest)
  end.

Definition shiftOffsets (e : t) : res unit * t :=
  if JS.len (prev e) =? 0 then
    (Ok tt, mk ((fun _ => Some (TableEntry.mk 0 0)) <$> table e) (prev e)
              (MAX_MATCH_OFFSET + 1))
  else
    match shift_entries (cur e) (table e) with
    | (Ok _, tbl) => (Ok tt, mk tbl (prev e) (MAX_MATCH_OFFSET + 1))
    | (Stop s, tbl) => (Stop s, mk tbl (prev e) (cur e))
    end.

Definition reset (e : t) : res unit * t :=
  let e := mk (table e) (JS.slice 0 0 (prev e)) (cur e + MAX_MATCH_OFFSET) in
  if cur e >=? BUFFER_RESET then shiftOffsets e else (Ok tt, e).

(** The first inner loop of [encode]: look for a candidate. [None] is
    [break emitRemainder]; [Some (s, candidate)] is the plain [break]. The
    table is stored into before [candidate.offset] is read. *)
Fixpoint search (fuel : nat) (src : list Z) (cur sLimit : Z)
    (skip nextS cv nextHash : Z) (tbl : list (option TableEntry.t))
    : res (option (Z * TableEntry.t)) * list (option TableEntry.t) :=
  match fuel with
  | O => (Stop Diverge, tbl)
  | S fuel' =>
      let s := nextS in
      let bytesBetweenHashLookups := JS.sar skip 5 in
      let nextS := s + bytesBetweenHashLookups in
      let skip := skip + bytesBetweenHashLookups in
      if nextS >? sLimit then (Ok None, tbl)
      else
        let slot := JS.and nextHash TABLE_MASK in
        let candidate := JS.get tbl slot in
        let now := load32 src nextS in
        let tbl := JS.store slot (TableEntry.mk cv (s + cur)) tbl in
        let nextHash := hash now in
        match candidate with
        | Some (Some c) =>
            let offset := s - (TableEntry.offset c - cur) in
            if (offset >? MAX_MATCH_OFFSET) || negb (cv =? TableEntry.val c)
            then search fuel' src cur sLimit skip nextS now nextHash tbl
            else (Ok (Some (s, c)), tbl)
        | _ => (Stop (Throw TypeError), tbl)
        end
  end.

(** How the second inner loop of [encode] ends: [Remainder dst nextEmit]
    is [break emitRemainder], [Resume dst nextEmit s cv nextHash] the plain
    [break]. *)
Inductive extended :=
  | Remainder (dst : list Token) (nextEmit : Z)
  | Resume (dst : list Token) (nextEmit s cv nextHash : Z).

(** The second inner loop of [encode]: emit a match at [s], then look at
    what follows it. *)
Fixpoint extend (fuel : nat) (prev src : list Z) (cur sLimit : Z)
    (s : Z) (candidate : TableEntry.t) (dst : list Token)
    (tbl : list (option TableEntry.t))
    : res extended * list (option TableEntry.t) :=
  match fuel with
  | O => (Stop Diverge, tbl)
  | S fuel' =>
      let s := s + 4 in
      let t := TableEntry.offset candidate - cur + 4 in
      let l := matchLen prev s t src in
      let dst := dst ++ [matchToken (l + 4 - BASE_MATCH_LENGTH)
                                    (s - t - BASE_MATCH_OFFSET)] in
      let s := s + l in
      let nextEmit := s in
      if s >=? sLimit then (Ok (Remainder dst nextEmit), tbl)
      else
        match load64 src (s - 1) with
        | Stop st => (Stop st, tbl)
        | Ok x =>
            let prevHash := hash_bigint x in
            let tbl := JS.store (JS.and prevHash TABLE_MASK)
                         (TableEntry.mk (JS.round53 x) (cur + s - 1)) tbl in
            let x := Z.shiftr x 8 in
            let currHash := hash_bigint x in
            let slot := JS.and currHash TABLE_MASK in
            let candidate := JS.get tbl slot in
            let tbl := JS.store slot (TableEntry.mk (JS.round53 x) (cur + s)) tbl in
            match candidate with
            | Some (Some c) =>
                let offset := s - (TableEntry.offset c - cur) in
                if (offset >? MAX_MATCH_OFFSET)
                   || negb (JS.round53 x =? TableEntry.val c)
                then
                  let cv := JS.round53 (Z.shiftr x 8) in
                  (Ok (Resume dst nextEmit (s + 1) cv (hash cv)), tbl)
                else extend fuel' prev src cur sLimit s c dst tbl
            | _ => (Stop (Throw TypeError), tbl)
            end
        end
  end.

(** The loop labelled [emitRemainder]; it returns [dst] and [nextEmit].
    Each of the three loops gets [fuel] turns. *)
Fixpoint encode_loop (fuel turns : nat) (prev src : list Z) (cur sLimit : Z)
    (s nextEmit cv nextHash : Z) (dst : list Token)
    (tbl : list (option TableEntry.t))
    : res (list Token * Z) * list (option TableEntry.t) :=
  match turns with
  | O => (Stop Diverge, tbl)
  | S turns' =>
      match search fuel src cur sLimit 32 s cv nextHash tbl with
      | (Stop st, tbl) => (Stop st, tbl)
      | (Ok None, tbl) => (Ok (dst, nextEmit), tbl)
      | (Ok (Some (s, candidate)), tbl) =>
          let dst := emitLiteral dst (JS.slice nextEmit s src) in
          match extend fuel prev src cur sLimit s candidate dst tbl with
          | (Stop st, tbl) => (Stop st, tbl)
          | (Ok (Remainder dst nextEmit), tbl) => (Ok (dst, nextEmit), tbl)
          | (Ok (Resume dst nextEmit s cv nextHash), tbl) =>
              encode_loop fuel turns' prev src cur sLimit s nextEmit cv nextHash
                dst tbl
          end
      end
  end.

(** [for (let i = 0; i < src.length; i++) this.prev[i] = src[i]] on the
    typed array [prev]: stores past its end are ignored. *)
Fixpoint copy_block (i : Z) (src prev : list Z) : list Z :=
  match src with
  | [] => prev
  | v :: rest => copy_block (i + 1) rest (JS.set_u8 i v prev)
  end.

(** [encode(dst, src)]: the tokens returned and the encoder left behind. *)
Definition encode (dst : list Token) (src : list Z) (e : t)
    : res (list Token) * t :=
  match (if cur e >=? BUFFER_RESET then shiftOffsets e else (Ok tt, e)) with
  | (Stop st, e) => (Stop st, e)
  | (Ok _, e) =>
      if JS.len src <? MIN_NON_LITERAL_BLOCK_SIZE then
        (Ok (emitLiteral dst src),
         mk (table e) (JS.slice 0 0 (prev e)) (cur e + MAX_STORE_BLOCK_SIZE))
      else
        let sLimit := JS.len src - INPUT_MARGIN in
        let cv := load32 src 0 in
        let fuel := S (length src) in
        match encode_loop fuel fuel (prev e) src (cur e) sLimit 0 0 cv (hash cv)
                dst (table e) with
        | (Stop st, tbl) => (Stop st, mk tbl (prev e) (cur e))
        | (Ok (dst, nextEmit), tbl) =>
            let dst := if nextEmit <? JS.len src
                       then emitLiteral dst (JS.slice_from nextEmit src)
                       else dst in
            (Ok dst,
             mk tbl (copy_block 0 src (JS.slice 0 (JS.len src) (prev e)))
                (cur e + JS.len src))
        end
  end.

End DeflateFast.

(** ** What the specification expects

    These definitions follow the wording of the specification, not the
    sources; the theorems below compare the embedded code against them. *)

(** The [n] low bits of [v], least significant first. *)
Definition bits_of (v n : Z) : list bool :=
  (fun i => Z.testbit v (Z.of_nat i)) <$> seq 0 (Z.to_nat n).

Definition byte_of (bs : list bool) : Z :=
  foldr (fun b acc => Z.b2z b + 2 * acc) 0 bs.

Fixpoint bytes_of (fuel : nat) (bs : list bool) : list Z :=
  match fuel, bs with
  | _, [] => []
  | O, _ => []
  | S fuel', _ => byte_of (take 8 bs) :: bytes_of fuel' (drop 8 bs)
  end.

(** The byte stream of a sequence of [(v, n)] writes: all bits in order,
    LSB first within each byte, the last byte padded with zeros. *)
Definition expected_stream (ws : list (Z * Z)) : list Z :=
  let bs := concat ((fun p => bits_of (fst p) (snd p)) <$> ws) in
  bytes_of (length bs) bs.

(** [writeBits(v_1, n_1); ...; flush()] *)
Definition write_all (ws : list (Z * Z)) : M unit :=
  fold_right (fun p k => run! writeBits (fst p) (snd p) ;; k) flush ws.

(** Reading a codegen buffer back (RFC 1951, 3.2.7): 0..15 is a length,
    16 repeats the previous length 3..6 times, 17 is 3..10 zeros, 18 is
    11..138 zeros; 255 ends the buffer. *)
Fixpoint rle_decode (cg : list Z) (prev : Z) : option (list Z) :=
  match cg with
  | [] => None
  | s :: rest =>
      if s =? 255 then Some []
      else if s <? 16 then (fun l => s :: l) <$> rle_decode rest s
      else
        match rest with
        | [] => None
        | extra :: rest' =>
            if s =? 16
            then (fun l => replicate (Z.to_nat (extra + 3)) prev ++ l) <$> rle_decode rest' prev
            else if s =? 17
            then (fun l => replicate (Z.to_nat (extra + 3)) 0 ++ l) <$> rle_decode rest' 0
            else if s =? 18
            then (fun l => replicate (Z.to_nat (extra + 11)) 0 ++ l) <$> rle_decode rest' 0
            else None
        end
  end.

(** The sequence [generateCodegen] is meant to encode:
    [litEnc.codes[0..numLiterals].len ++ offEnc.codes[0..numOffsets].len]. *)
Definition code_lengths (numLiterals numOffsets : Z)
    (litEnc offEnc : HuffmanEncoder) : list (option Z) :=
  let lens (cs : list (option Hcode.t)) : list (option Z) :=
    (fun c : option Hcode.t => Hcode.len <$> c) <$> cs in
  lens (JS.slice 0 numLiterals (codes litEnc))
    ++ lens (JS.slice 0 numOffsets (codes offEnc)).

(** Kraft's sum over the symbols of non-zero frequency, scaled by 2^15:
    the sum of [2^(15 - codes[i].len)]; the inequality asks for at most
    2^15. [None] when such a symbol has no table entry. *)
Fixpoint kraft_from (cs : list (option Hcode.t)) (i : Z) (freq : list Z)
    : option Z :=
  match freq with
  | [] => Some 0
  | f :: rest =>
      if f =? 0 then kraft_from cs (i + 1) rest
      else c ← mjoin (JS.get cs i);
           total ← kraft_from cs (i + 1) rest;
           Some (2 ^ (15 - Hcode.len c) + total)
  end.

Definition kraft15 (h : HuffmanEncoder) (freq : list Z) : option Z :=
  kraft_from (codes h) 0 freq.

(** Number of symbols with a non-zero frequency. *)
Definition count_nonzero (freq : list Z) : Z :=
  JS.len (filter (fun f => f <> 0) freq).

(** An encoder table left as it was, except that lengths may have been
    cleared: no entry appeared and no code value changed. *)
Definition only_cleared (cs cs' : list (option Hcode.t)) : Prop :=
  length cs' = length cs /\
  forall (i : nat) (c' : option Hcode.t),
    cs' !! i = Some c' ->
    exists c, cs !! i = Some c /\
      (c' = c \/ exists x, c = Some x /\ c' = Some (Hcode.set_len 0 x)).

(** An encoder table left as it was, except that the entry of every
    symbol of frequency 0 has its length set to 0. *)
Definition zero_lengths_cleared (freq : list Z) (cs cs' : list (option Hcode.t))
    : Prop :=
  length cs' = length cs /\
  forall k : nat,
    cs' !! k = match freq !! k with
               | Some 0 => fmap (Hcode.set_len 0) <$> cs !! k
               | _ => cs !! k
               end.

(** An encoder whose [size] table entries are all [new Hcode()]. *)
Definition blank_encoder (size : nat) : HuffmanEncoder :=
  mkEnc (replicate size (Some (Hcode.mk 0 0))) [] (replicate 17 0).

(** A writer on a sink that accepts everything. *)
Definition fresh_writer : Writer := new_HuffmanBitWriter (mkSink [] None).

(** ** Vocabulary of the proofs *)

(** A call that ends in an exception. *)
Definition throws {A} (r : res A) : Prop := exists e, r = Stop (Throw e).

(** The order [compareByFreq] sorts by, on the frequencies alone. *)
Definition freq_le (x y : LiteralNode.t) : Prop :=
  LiteralNode.freq x <= LiteralNode.freq y.

(** What [bitCounts] needs from the sorted array: if its first three
    entries are nodes, the third weighs at least the first two together. *)
Definition pair_first (lst : list (option LiteralNode.t)) : Prop :=
  forall n0 n1 n2,
    lst !! 0%nat = Some (Some n0) -> lst !! 1%nat = Some (Some n1) ->
    lst !! 2%nat = Some (Some n2) ->
    LiteralNode.freq n0 + LiteralNode.freq n1 <= LiteralNode.freq n2.

(** The shape of [leafCounts]. *)
Definition square (lc : list (list Z)) : Prop :=
  length lc = 16%nat /\ forall row, row ∈ lc -> length row = 16%nat.

(** Level [k] asked for [needed] items, otherwise as the initialisation of
    [bitCounts] leaves it when the first three frequencies are [f0], [f1],
    [f2]. *)
Definition asked_level (f0 f1 f2 : Z) (k : nat) (needed : Z) : LevelInfo.t :=
  LevelInfo.mk (Z.of_nat k) f1 f2
    (if Z.of_nat k =? 1 then MAX_INT32 else f0 + f1) needed.

(** The loop of [bitCounts] arrives at level [L], which was asked for
    [needed] items and has produced none; the levels below are fresh and
    [levels[0]] is undefined. *)
Record arrived (f0 f1 f2 : Z) (L : nat) (levels : list (option LevelInfo.t))
    (needed : Z) : Prop := mkArrived {
  arr_len : length levels = 16%nat;
  arr_top : (1 <= L < 16)%nat;
  arr_zero : levels !! 0%nat = Some None;
  arr_below : forall k, (1 <= k < L)%nat ->
                        levels !! k = Some (Some (asked_level f0 f1 f2 k 0));
  arr_here : levels !! L = Some (Some (asked_level f0 f1 f2 L needed));
  arr_needed : 2 <= needed }.

(** A writer whose sink has already failed, with bits still pending. *)
Definition failed_writer : Writer :=
  set_err (Some (Error "write failed")) (set_nbits 3 (set_bits 5 fresh_writer)).

(** The table [writeBlockHuff] hands to [generate] when [literalFreq] has
    [n] slots: all zero but the end-of-block marker. *)
Definition huff_table (n : nat) : list Z := <[256%nat := 1]> (replicate n 0).

(** The table of the match finder is whole: TABLE_SIZE slots, none a
    hole, every offset at least 0 and below [bound]. *)
Definition table_ok (bound : Z) (tbl : list (option TableEntry.t)) : Prop :=
  length tbl = Z.to_nat TABLE_SIZE
  /\ forall o, o ∈ tbl ->
       exists x, o = Some x /\ 0 <= TableEntry.offset x < bound.

(** What the methods of [DeflateFast] keep true of the object: the table
    is whole with every offset below [cur], and [cur] has not come within
    one block of 2^31. *)
Definition encoder_ok (e : DeflateFast.t) : Prop :=
  table_ok (DeflateFast.cur e) (DeflateFast.table e)
  /\ 0 < DeflateFast.cur e < DeflateFast.BUFFER_RESET + MAX_STORE_BLOCK_SIZE.

(** How far behind [cur] an entry lies. *)
Definition distance (cur : Z) (x : TableEntry.t) : Z := cur - TableEntry.offset x.

(** The [k] low bytes of the bit buffer, least significant first, as
    the loop of [writeBytes] takes them off: [bits & 255], then
    [bits >>= 8]. *)
Fixpoint drained (k : nat) (bits : Z) : list Z :=
  match k with
  | O => []
  | S k' => bits mod 256 :: drained k' (JS.sar bits 8)
  end.


(** A call of one of the two methods that add bits to the bit buffer. *)
Inductive BitOp :=
  | Bits (b nb : Z)
  | Code (c : Hcode.t).

Definition write_op (o : BitOp) : M unit :=
  match o with
  | Bits b nb => writeBits b nb
  | Code c => writeCode (Some c)
  end.

(** A run of such calls, in order, and then [flush()]. *)
Definition write_ops (os : list BitOp) : M unit :=
  fold_right (fun o k => run! write_op o ;; k) flush os.

(** How [writeBlock], [writeBlockDynamic] and [writeBlockHuff] emit a
    stored block:
    [await this.writeStoredHeader(input.length, eof); await this.writeBytes(input)]. *)
Definition stored_block (input : list Z) (eof : bool) : M unit :=
  bind (writeStoredHeader (JS.len input) eof) (fun _ => writeBytes input).

(** The counters [indexTokens] increments for [t] exist, in a literal
    table of [nlit] slots and an offset table of [noff]: the literal of a
    literal token; the length code (from LENGTH_CODES_START on) and the
    offset code of a match token. *)
Definition counted (nlit noff : Z) (t : Token) : Prop :=
  if value t <? MATCH_TYPE then 0 <= Tok.literal t < nlit
  else exists lc oc,
         lengthCode (Tok.length t) = Some lc
         /\ 0 <= LENGTH_CODES_START + lc < nlit
         /\ offsetCode (Tok.offset t) = Some oc
         /\ 0 <= oc < noff.

(** The frequency of the code that comes [i]-th in [codegenOrder]. *)
Definition ordered_freq (cf : list Z) (i : Z) : option Z :=
  i' ← JS.get codegenOrder i; JS.get cf i'.


(** The code [offsetCode] gives to [off], with the base and the number of
    extra bits the writer's tables hold for it, brackets [off]. *)
Definition offset_bracket (off : Z) : bool :=
  match offsetCode off with
  | Some c =>
      (0 <=? c) && (c <? OFFSET_CODE_COUNT)
      && match JS.get OFFSET_BASE c, JS.get OFFSET_EXTRA_BITS c with
         | Some base, Some extra => (base <=? off) && (off <? base + 2 ^ extra)
         | _, _ => false
         end
  | None => false
  end.

(** The same for the 128 offsets from [q * 128] on, which [offsetCode]
    sends to [OFFSET_CODES[q] + 14]. *)
Definition offset_bracket_far (q : Z) : bool :=
  match JS.get OFFSET_CODES q with
  | Some c0 =>
      let c := c0 + 14 in
      (0 <=? c) && (c <? OFFSET_CODE_COUNT)
      && match JS.get OFFSET_BASE c, JS.get OFFSET_EXTRA_BITS c with
         | Some base, Some extra =>
             (base <=? q * 128) && (q * 128 + 127 <? base + 2 ^ extra)
         | _, _ => false
         end
  | None => false
  end.

Definition length_bracket (len : Z) : bool :=
  match lengthCode len with
  | Some c =>
      (0 <=? c) && (c <? JS.len LENGTH_BASE)
      && match JS.get LENGTH_BASE c, JS.get LENGTH_EXTRA_BITS c with
         | Some base, Some extra => (base <=? len) && (len <? base + 2 ^ extra)
         | _, _ => false
         end
  | None => false
  end.

(** [P] holds on the [n] integers from [z] on. *)
Fixpoint all_from (P : Z -> bool) (z : Z) (n : nat) : bool :=
  match n with
  | O => true
  | S n' => P z && all_from P (z + 1) n'
  end.

(** [matchToken xlength] with the shift count [sh] would read back as
    [xlength] and an offset that asks for that very count. *)
Definition reads_back (xlength sh : Z) : bool :=
  let t := mkToken (JS.shl (MATCH_TYPE + xlength) sh) in
  Tok.is_match t && (Tok.length t =? xlength)
  && (Z.land (LENGTH_SHIFT + Tok.offset t) 31 =? sh).

(** Two writers that differ at most in the bit buffer and in one byte of
    the staging buffer. *)
Definition same_but_bits (n : Z) (w w' : Writer) : Prop :=
  length (bytes w') = length (bytes w)
  /\ (forall i, i <> n -> JS.get (bytes w') i = JS.get (bytes w) i)
  /\ codegenFreq w' = codegenFreq w /\ nbytes w' = nbytes w
  /\ literalFreq w' = literalFreq w /\ offsetFreq w' = offsetFreq w
  /\ codegen w' = codegen w /\ literalEncoding w' = literalEncoding w
  /\ offsetEncoding w' = offsetEncoding w
  /\ codegenEncoding w' = codegenEncoding w
  /\ err w' = err w /\ writer w' = writer w /\ singleton w' = singleton w.


(** ** Theorems *)

(** The two values checked by the repository's test of [reverseBits]. *)
Example reverseBits_test :
  reverseBits 11 = 53248 /\ reverseBits 35593 = 37073.
Proof. split; reflexivity. Qed.

(** C3. [matchToken] does not build a match token. For xlength = 0,
    xoffset = 0 it returns the token 0, which the writer reads as the
    literal 0 and whose [length()] is -256; for xlength = 1, xoffset = 1 it
    returns 8388608, again below MATCH_TYPE, with [length()] = -254 and
    [offset()] = 0. The claim expects bit 30 set and the accessors to give
    back xlength and xoffset. *)
Theorem matchToken_shifts_the_sum :
  matchToken 0 0 = mkToken 0
  /\ Tok.is_match (matchToken 0 0) = false
  /\ Tok.length (matchToken 0 0) = -256
  /\ matchToken 1 1 = mkToken 8388608
  /\ Tok.is_match (matchToken 1 1) = false
  /\ Tok.length (matchToken 1 1) = -254
  /\ Tok.offset (matchToken 1 1) = 0.
Proof. vm_compute. repeat split. Qed.

(** C7. [hash] is not reduced to 14 bits. The four bytes 0, 0, 4, 0 load as
    u = 2^18; [hash] returns the whole multiplier 506832829, far above
    2^14, where the top 14 bits of the 32-bit product are 10173. The mask
    at the table lookups does not always repair it: the bytes 142, 153, 61,
    120 load as 2017302926, whose product needs 60 bits and is rounded as
    a double; the slot used is 6339, the top 14 bits of the 32-bit product
    are 6338. *)
Theorem hash_exceeds_table_size :
  load32 [0; 0; 4; 0] 0 = 262144
  /\ hash 262144 = 506832829
  /\ (hash 262144 <? 2 ^ 14) = false
  /\ hash_u32 262144 = 10173
  /\ load32 [142; 153; 61; 120] 0 = 2017302926
  /\ table_slot 2017302926 = 6339
  /\ hash_u32 2017302926 = 6338.
Proof. vm_compute. repeat split. Qed.

(** C1. [flush] loses the pending bits. On a fresh writer,
    [writeBits(1, 1); flush()] hands the sink one empty chunk where the
    claim expects the byte 1; three 16-bit writes of 0xFFFF followed by
    [flush()] deliver six zero bytes where the claim expects six 0xFF. *)
Theorem flush_loses_pending_bits :
  (let '(r, w) := write_all [(1, 1)] fresh_writer in
   r = Ok tt /\ received (writer w) = [[]] /\ sink_bytes (writer w) = [])
  /\ expected_stream [(1, 1)] = [1]
  /\ (let '(r, w) := write_all [(65535, 16); (65535, 16); (65535, 16)] fresh_writer in
      r = Ok tt /\ sink_bytes (writer w) = [0; 0; 0; 0; 0; 0])
  /\ expected_stream [(65535, 16); (65535, 16); (65535, 16)]
     = [255; 255; 255; 255; 255; 255].
Proof. vm_compute. repeat split. Qed.

(** C2. [generateCodegen] never copies the code lengths into [codegen]. On
    a fresh writer, with the fixed literal and offset encodings (lengths
    8, 9, 7 and 5), [generateCodegen(257, 1, ...)] leaves 18, 127, 18, 109,
    255 in the buffer: the encoding of 258 zeros, the stale content of the
    buffer, and not of the 258 code lengths. *)
Theorem generateCodegen_encodes_stale_buffer :
  code_lengths 257 1 fixedLiteralEncoding fixedOffsetEncoding
    = Some <$> (replicate 144 8 ++ replicate 112 9 ++ [7; 5])
  /\ (let '(r, w) := generateCodegen 257 1 fixedLiteralEncoding
                       fixedOffsetEncoding fresh_writer in
      r = Ok tt
      /\ take 5 (codegen w) = [18; 127; 18; 109; 255]
      /\ rle_decode (codegen w) 0 = Some (replicate 258 0)
      /\ codegenFreq w = replicate 18 0 ++ [2]).
Proof. vm_compute. repeat split. Qed.

(** C4. [writeBlockDynamic] emits no block at all on a fresh writer: with
    no tokens and an empty input it stops with a TypeError inside
    [indexTokens] (the literal encoder's table has no entries yet) and the
    sink receives nothing. Its stored-block test is moreover
    [ssize < ((size + size) >> 4)]: for ssize = 40 and size = 100 it
    answers "dynamic" where the claimed margin [size + size / 16] answers
    "stored". *)
Theorem writeBlockDynamic_throws_and_misplaces_margin :
  (let '(r, w) := writeBlockDynamic [] false (Some []) fresh_writer in
   r = Stop (Throw TypeError) /\ received (writer w) = [] /\ err w = None)
  /\ store_instead true 40 100 = false
  /\ store_margin true 40 100 = true.
Proof. vm_compute. repeat split. Qed.

(** C5. The small case of [generate] walks the whole [list], not its first
    [count] entries. (a) The call made by [huffOffset.instance()], a new
    30-symbol encoder with only symbol 0 used, stops with a TypeError.
    (b) With table entries present, frequencies 5, 7, 0 give symbol 0 the
    code value 3 instead of 0. (c) A single symbol of frequency 0 ends with
    length 1 instead of 0. (d) Frequencies 0, 5, 7 stop with a TypeError. *)
Theorem generate_small_case_overruns :
  fst (generate (new_HuffmanEncoder 30) (1 :: replicate 29 0) 15)
    = Stop (Throw TypeError)
  /\ generate (blank_encoder 3) [5; 7; 0] 15
     = (Ok tt, with_codes (blank_encoder 3)
                 [Some (Hcode.mk 3 1); Some (Hcode.mk 1 1); Some (Hcode.mk 0 0)])
  /\ generate (blank_encoder 1) [0] 15
     = (Ok tt, with_codes (blank_encoder 1) [Some (Hcode.mk 1 1)])
  /\ fst (generate (blank_encoder 3) [0; 5; 7] 15) = Stop (Throw TypeError).
Proof. vm_compute. repeat split. Qed.

(** C6. [generate] produces no code for the input of the repository's own
    test: [new HuffmanEncoder(4).generate([1, 3, 2, 4], 7)] stops with a
    TypeError in [bitCounts] ([levels[0]] is undefined) and the table stays
    empty, so the four used symbols have no length at all. When the table
    has entries the call stops the same way and leaves the four used
    symbols with length 0: Kraft's sum is then 4, that is 4 * 2^15 on the
    scale of [kraft15], above 2^15. The test expects lengths 3, 2, 3, 1. *)
Theorem generate_general_case_throws :
  generate (new_HuffmanEncoder 4) [1; 3; 2; 4] 7
    = (Stop (Throw TypeError), new_HuffmanEncoder 4)
  /\ kraft15 (snd (generate (new_HuffmanEncoder 4) [1; 3; 2; 4] 7)) [1; 3; 2; 4]
     = None
  /\ generate (blank_encoder 4) [1; 3; 2; 4] 7
     = (Stop (Throw TypeError), blank_encoder 4)
  /\ kraft15 (snd (generate (blank_encoder 4) [1; 3; 2; 4] 7)) [1; 3; 2; 4]
     = Some (4 * 2 ^ 15).
Proof. vm_compute. repeat split. Qed.

(** *** The sticky error *)

Section StickyError.
Variable w : Writer.
Variable e : exn.
Hypothesis failed : err w = Some e.

Lemma writeBits_after_error b nb : writeBits b nb w = (Ok tt, w).
Proof. unfold writeBits, bind, get_w. now rewrite failed. Qed.

Lemma writeCode_after_error c : writeCode c w = (Ok tt, w).
Proof. unfold writeCode, bind, get_w. now rewrite failed. Qed.

Lemma writeBytes_after_error b : writeBytes b w = (Ok tt, w).
Proof. unfold writeBytes, bind, get_w. now rewrite failed. Qed.

Lemma write_after_error b : write b w = (Ok tt, w).
Proof. unfold write. now rewrite failed. Qed.

Lemma writeBlock_after_error tokens eof input :
  writeBlock tokens eof input w = (Ok tt, w).
Proof. unfold writeBlock, bind, get_w. now rewrite failed. Qed.

Lemma writeBlockDynamic_after_error tokens eof input :
  writeBlockDynamic tokens eof input w = (Ok tt, w).
Proof. unfold writeBlockDynamic, bind, get_w. now rewrite failed. Qed.

Lemma writeBlockHuff_after_error eof input :
  writeBlockHuff eof input w = (Ok tt, w).
Proof. unfold writeBlockHuff, bind, get_w. now rewrite failed. Qed.

Lemma flush_after_error : flush w = (Ok tt, set_nbits 0 w).
Proof. unfold flush, bind, get_w, modify. now rewrite failed. Qed.
End StickyError.

(** C9. Once [err] is set, [writeBits], [writeCode], [writeBytes], [write],
    [writeBlock], [writeBlockDynamic] and [writeBlockHuff] return at once
    and leave the whole writer, so also the bit buffer, the staging buffer
    and the sink, as it was; [flush] only sets [nbits] to 0. *)
Theorem sticky_error_makes_operations_noops (w : Writer) (e : exn) :
  err w = Some e ->
  (forall b nb, writeBits b nb w = (Ok tt, w))
  /\ (forall c, writeCode c w = (Ok tt, w))
  /\ (forall b, writeBytes b w = (Ok tt, w))
  /\ (forall b, write b w = (Ok tt, w))
  /\ (forall tokens eof input, writeBlock tokens eof input w = (Ok tt, w))
  /\ (forall tokens eof input, writeBlockDynamic tokens eof input w = (Ok tt, w))
  /\ (forall eof input, writeBlockHuff eof input w = (Ok tt, w))
  /\ flush w = (Ok tt, set_nbits 0 w)
  /\ (let w' := snd (flush w) in
      nbits w' = 0 /\ bits w' = bits w /\ bytes w' = bytes w
      /\ nbytes w' = nbytes w /\ writer w' = writer w /\ err w' = err w).
Proof.
  intros failed.
  repeat split;
    eauto using writeBits_after_error, writeCode_after_error,
      writeBytes_after_error, write_after_error, writeBlock_after_error,
      writeBlockDynamic_after_error, writeBlockHuff_after_error,
      flush_after_error;
    now rewrite (flush_after_error w e failed).
Qed.

Lemma sticky_error_witness :
  err failed_writer = Some (Error "write failed")
  /\ writeBits 1 1 failed_writer = (Ok tt, failed_writer)
  /\ writeBlockHuff true [1; 2; 3] failed_writer = (Ok tt, failed_writer)
  /\ nbits (snd (flush failed_writer)) = 0
  /\ bits (snd (flush failed_writer)) = 5.
Proof.
  split; [reflexivity |].
  destruct (sticky_error_makes_operations_noops failed_writer
              (Error "write failed") eq_refl)
    as (Hbits & _ & _ & _ & _ & _ & Hhuff & _ & Hn & Hb & _).
  split; [apply Hbits |]. split; [apply Hhuff |]. split; [exact Hn | exact Hb].
Defined.

(** *** The limit on maxBits *)

Lemma only_cleared_refl cs : only_cleared cs cs.
Proof. split; [reflexivity | intros i c' H; exists c'; auto]. Qed.

Lemma only_cleared_trans cs1 cs2 cs3 :
  only_cleared cs1 cs2 -> only_cleared cs2 cs3 -> only_cleared cs1 cs3.
Proof.
  intros [L12 H12] [L23 H23]. split; [congruence |].
  intros i c3 H3.
  destruct (H23 i c3 H3) as (c2 & H2 & Hc2).
  destruct (H12 i c2 H2) as (c1 & H1 & Hc1).
  exists c1. split; [exact H1 |].
  destruct Hc2 as [-> | (x & -> & ->)]; [exact Hc1 |].
  destruct Hc1 as [<- | (y & -> & Hy)]; [right; eauto |].
  injection Hy as ->. right. exists y. split; reflexivity.
Qed.

Lemma only_cleared_insert cs (i : nat) c :
  cs !! i = Some (Some c) ->
  only_cleared cs (<[i := Some (Hcode.set_len 0 c)]> cs).
Proof.
  intros Hi. split; [apply length_insert |].
  intros j c' Hj. destruct (decide (i = j)) as [<- | Hne].
  - rewrite list_lookup_insert_eq in Hj by (eapply lookup_lt_Some; eauto).
    injection Hj as <-. exists (Some c). split; [exact Hi | right; eauto].
  - rewrite list_lookup_insert_ne in Hj by exact Hne. exists c'. auto.
Qed.

Lemma JS_get_nat {A} (l : list A) (i : Z) :
  0 <= i -> JS.get l i = l !! Z.to_nat i.
Proof. intros Hi. unfold JS.get. destruct (Z.ltb_spec i 0); [lia | reflexivity]. Qed.

Lemma JS_set_nat {A} (l : list A) (i : Z) (v : A) :
  0 <= i -> JS.set i v l = <[Z.to_nat i := v]> l.
Proof. intros Hi. unfold JS.set. destruct (Z.ltb_spec i 0); [lia | reflexivity]. Qed.

Lemma count_nonzero_cons f freq :
  count_nonzero (f :: freq)
  = (if f =? 0 then 0 else 1) + count_nonzero freq.
Proof.
  unfold count_nonzero, JS.len. rewrite filter_cons.
  destruct (Z.eqb_spec f 0) as [-> | Hf].
  - rewrite decide_False by (intros H; now apply H). lia.
  - rewrite decide_True by exact Hf. simpl length. lia.
Qed.

(** The first loop of [generate] completes when every zero-frequency
    symbol has a table entry; it counts the used symbols and only clears
    lengths. *)
Lemma generate_collect_ok (freq : list Z) :
  forall (i : Z) (lst : list (option LiteralNode.t)) (count : Z)
         (cs : list (option Hcode.t)),
    0 <= i ->
    (forall k : nat, freq !! k = Some 0 ->
                     exists c, cs !! (Z.to_nat i + k)%nat = Some (Some c)) ->
    exists lst' cs',
      generate_collect i freq lst count cs
        = (Ok (lst', count + count_nonzero freq), cs')
      /\ only_cleared cs cs'.
Proof.
  induction freq as [| f freq IH]; intros i lst count cs Hi Hz.
  - exists lst, cs. simpl. unfold count_nonzero, JS.len. simpl.
    rewrite Z.add_0_r. split; [reflexivity | apply only_cleared_refl].
  - simpl generate_collect. rewrite count_nonzero_cons.
    destruct (Z.eqb_spec f 0) as [-> | Hf]; simpl negb; cbv iota.
    + destruct (Hz 0%nat eq_refl) as (c & Hc).
      rewrite Nat.add_0_r in Hc.
      rewrite JS_get_nat by exact Hi. rewrite Hc.
      rewrite JS_set_nat by exact Hi.
      destruct (IH (i + 1) (JS.store count LiteralNode.default lst) count
                  (<[Z.to_nat i := Some (Hcode.set_len 0 c)]> cs))
        as (lst' & cs' & E & OC).
      * lia.
      * intros k Hk. destruct (Hz (S k) Hk) as (c1 & Hc1).
        exists c1. rewrite list_lookup_insert_ne by lia.
        replace (Z.to_nat (i + 1) + k)%nat with (Z.to_nat i + S k)%nat by lia.
        exact Hc1.
      * exists lst', cs'. rewrite E. split; [f_equal; f_equal; f_equal; lia |].
        eapply only_cleared_trans; [apply only_cleared_insert; exact Hc | exact OC].
    + destruct (IH (i + 1) (JS.store count (LiteralNode.mk i f) lst) (count + 1) cs)
        as (lst' & cs' & E & OC).
      * lia.
      * intros k Hk. destruct (Hz (S k) Hk) as (c1 & Hc1).
        exists c1.
        replace (Z.to_nat (i + 1) + k)%nat with (Z.to_nat i + S k)%nat by lia.
        exact Hc1.
      * exists lst', cs'. rewrite E. split; [f_equal; f_equal; f_equal; lia | exact OC].
Qed.

Lemma collect_count (freq : list Z) :
  forall i lst count cs lst' count' cs',
    generate_collect i freq lst count cs = (Ok (lst', count'), cs') ->
    count' = count + count_nonzero freq.
Proof.
  induction freq as [| f freq IH]; intros i lst count cs lst' count' cs' E.
  - simpl in E. injection E as _ <- _. unfold count_nonzero, JS.len. simpl. lia.
  - simpl in E. rewrite count_nonzero_cons.
    destruct (Z.eqb_spec f 0) as [-> | Hf]; simpl in E.
    + destruct (JS.get cs i) as [[c |] |]; try discriminate.
      apply IH in E. lia.
    + apply IH in E. lia.
Qed.

Lemma collect_stop (freq : list Z) :
  forall i lst count cs s cs',
    generate_collect i freq lst count cs = (Stop s, cs') -> s = Throw TypeError.
Proof.
  induction freq as [| f freq IH]; intros i lst count cs s cs' E; simpl in E.
  - discriminate.
  - destruct (Z.eqb_spec f 0) as [-> | Hf]; simpl in E.
    + destruct (JS.get cs i) as [[c |] |]; [eapply IH, E | congruence | congruence].
    + eapply IH, E.
Qed.

Lemma small_stop (lst : list (option LiteralNode.t)) :
  forall i cs s cs',
    generate_small i lst cs = (Stop s, cs') -> s = Throw TypeError.
Proof.
  induction lst as [| [nd |] lst IH]; intros i cs s cs' E; cbn in E.
  - discriminate.
  - destruct (JS.get cs (LiteralNode.literal nd)) as [[c |] |];
      [eapply IH, E | congruence | congruence].
  - congruence.
Qed.

(** The first loop of [generate], when it runs to its end, has set to 0
    the length of the symbols of frequency 0 and changed nothing else. *)
Lemma generate_collect_clears (freq : list Z) :
  forall (i : Z) lst count cs lst' count' cs',
    0 <= i ->
    generate_collect i freq lst count cs = (Ok (lst', count'), cs') ->
    length cs' = length cs
    /\ forall k : nat,
         cs' !! k = if (k <? Z.to_nat i)%nat then cs !! k
                    else match freq !! (k - Z.to_nat i)%nat with
                         | Some 0 => fmap (Hcode.set_len 0) <$> cs !! k
                         | _ => cs !! k
                         end.
Proof.
  induction freq as [| f freq IH]; intros i lst count cs lst' count' cs' Hi E.
  - simpl in E. injection E as _ _ <-. split; [reflexivity |].
    intros k. destruct (k <? Z.to_nat i)%nat; [reflexivity |].
    now rewrite lookup_nil.
  - simpl in E.
    assert (Hnext : Z.to_nat (i + 1) = S (Z.to_nat i)) by lia.
    destruct (Z.eqb_spec f 0) as [-> | Hf]; simpl in E.
    + destruct (JS.get cs i) as [[c |] |] eqn:Eg; try discriminate.
      rewrite JS_get_nat in Eg by exact Hi.
      rewrite JS_set_nat in E by exact Hi.
      apply IH in E as [Hlen Hk]; [| lia].
      rewrite length_insert in Hlen. split; [exact Hlen |].
      intros k. rewrite Hk, Hnext.
      destruct (Nat.ltb_spec k (Z.to_nat i)) as [Hlt | Hge].
      * destruct (Nat.ltb_spec k (S (Z.to_nat i))); [| lia].
        apply list_lookup_insert_ne. lia.
      * destruct (Nat.eq_dec k (Z.to_nat i)) as [-> | Hne].
        -- destruct (Nat.ltb_spec (Z.to_nat i) (S (Z.to_nat i))); [| lia].
           rewrite Nat.sub_diag. cbn [lookup list_lookup].
           rewrite list_lookup_insert_eq by (eapply lookup_lt_Some; exact Eg).
           now rewrite Eg.
        -- destruct (Nat.ltb_spec k (S (Z.to_nat i))); [lia |].
           replace (k - Z.to_nat i)%nat with (S (k - S (Z.to_nat i))) by lia.
           cbn [lookup list_lookup].
           now rewrite list_lookup_insert_ne by lia.
    + apply IH in E as [Hlen Hk]; [| lia].
      split; [exact Hlen |].
      intros k. rewrite Hk, Hnext.
      destruct (Nat.ltb_spec k (Z.to_nat i)) as [Hlt | Hge].
      * destruct (Nat.ltb_spec k (S (Z.to_nat i))); [reflexivity | lia].
      * destruct (Nat.eq_dec k (Z.to_nat i)) as [-> | Hne].
        -- destruct (Nat.ltb_spec (Z.to_nat i) (S (Z.to_nat i))); [| lia].
           rewrite Nat.sub_diag. cbn [lookup list_lookup].
           destruct f; [congruence | reflexivity | reflexivity].
        -- destruct (Nat.ltb_spec k (S (Z.to_nat i))); [lia |].
           replace (k - Z.to_nat i)%nat with (S (k - S (Z.to_nat i))) by lia.
           reflexivity.
Qed.

(** With two used symbols or fewer [generate] never gets to [bitCounts]:
    it returns from the small case, or a missing table entry or a hole of
    [list] makes it throw a TypeError. *)
Lemma generate_small_case_outcome (h : HuffmanEncoder) (freq : list Z)
    (maxBits : Z) :
  count_nonzero freq <= 2 ->
  fst (generate h freq maxBits) = Ok tt
  \/ fst (generate h freq maxBits) = Stop (Throw TypeError).
Proof.
  intros Hcount. unfold generate.
  destruct (generate_collect 0 freq _ 0 (codes h))
    as [[[lst count] | s] cs] eqn:E.
  - apply collect_count in E as Hc. rewrite Z.add_0_l in Hc. subst count.
    destruct (Z.leb_spec (count_nonzero freq) 2) as [_ | ?]; [| lia].
    destruct (generate_small 0 _ cs) as [[[] | s] cs2] eqn:Es; cbn [fst].
    + now left.
    + apply small_stop in Es as ->. now right.
  - apply collect_stop in E as ->. now right.
Qed.

(** C8, as the code has it. With maxBits >= 16, on an encoder whose table
    has an entry for every zero-frequency symbol: if at least three
    symbols have a non-zero frequency, [generate] throws
    "flate: maxBits too large" and assigns no code, the table being as it
    was except that the length of every zero-frequency symbol is set to
    0; if two symbols or fewer have, the check is not reached, and
    [generate] returns normally or throws a TypeError, never that error
    (see [generate_small_case_skips_the_check] and
    [generate_small_case_type_error]). *)
Theorem generate_rejects_large_maxBits (h : HuffmanEncoder) (freq : list Z)
    (maxBits : Z) :
  16 <= maxBits ->
  (forall i : nat, freq !! i = Some 0 -> exists c, codes h !! i = Some (Some c)) ->
  (3 <= count_nonzero freq ->
   exists cs,
     generate h freq maxBits
       = (Stop (Throw (Error "flate: maxBits too large")), with_codes h cs)
     /\ only_cleared (codes h) cs
     /\ zero_lengths_cleared freq (codes h) cs)
  /\ (count_nonzero freq <= 2 ->
      fst (generate h freq maxBits) = Ok tt
      \/ fst (generate h freq maxBits) = Stop (Throw TypeError)).
Proof.
  intros Hmax Hz. split; [| apply generate_small_case_outcome].
  intros Hcount.
  destruct (generate_collect_ok freq 0
              (JS.slice 0 (JS.len freq + 1) (freqcache h)) 0 (codes h))
    as (lst' & cs' & E & OC); [lia | exact Hz |].
  exists cs'. split; [| split; [exact OC |]].
  - unfold generate. rewrite E. rewrite Z.add_0_l.
    destruct (Z.leb_spec (count_nonzero freq) 2) as [Hle | _]; [lia |].
    unfold bitCounts, bitCounts_fuel.
    destruct (Z.geb_spec maxBits MAX_BITS_LIMIT) as [_ | Hlt];
      [reflexivity | unfold MAX_BITS_LIMIT in Hlt; lia].
  - apply generate_collect_clears in E as [Hlen Hk]; [| lia].
    split; [exact Hlen |]. intros k. rewrite Hk.
    change (Z.to_nat 0) with 0%nat. now rewrite Nat.sub_0_r.
Qed.

Lemma generate_rejects_large_maxBits_witness :
  16 <= 16
  /\ 3 <= count_nonzero [1; 0; 2; 3]
  /\ exists cs,
       generate (blank_encoder 4) [1; 0; 2; 3] 16
         = (Stop (Throw (Error "flate: maxBits too large")),
            with_codes (blank_encoder 4) cs)
       /\ only_cleared (codes (blank_encoder 4)) cs
       /\ zero_lengths_cleared [1; 0; 2; 3] (codes (blank_encoder 4)) cs.
Proof.
  split; [lia |]. split; [vm_compute; discriminate |].
  apply (generate_rejects_large_maxBits (blank_encoder 4) [1; 0; 2; 3] 16).
  - lia.
  - intros [| [| [| [| i]]]] H; simpl in H; try discriminate.
    eexists. reflexivity.
  - vm_compute. discriminate.
Defined.

(** C8 as stated fails: with two used symbols and maxBits = 16, [generate]
    returns normally and has assigned both symbols a code of length 1. *)
Lemma generate_small_case_skips_the_check :
  generate (blank_encoder 2) [1; 1] 16
    = (Ok tt, with_codes (blank_encoder 2)
                [Some (Hcode.mk 2 1); Some (Hcode.mk 1 1)])
  /\ ~ (exists e, fst (generate (blank_encoder 2) [1; 1] 16) = Stop (Throw e)).
Proof.
  split; [vm_compute; reflexivity |].
  intros (e & H). vm_compute in H. discriminate.
Qed.

(** The small case can also throw: on [new HuffmanEncoder(2)], whose
    table has no entries, the same call ends in a TypeError. *)
Example generate_small_case_type_error :
  fst (generate (new_HuffmanEncoder 2) [1; 1] 16) = Stop (Throw TypeError).
Proof. vm_compute. reflexivity. Qed.

(** *** histogram and the caller's table *)

Lemma incr_other (h' : nat) (t : Z) (hp : Heap.t) (k : nat) :
  k <> h' -> Heap.incr h' t hp !! k = hp !! k.
Proof.
  intros Hk. unfold Heap.incr. destruct (hp !! h'); [| reflexivity].
  apply list_lookup_insert_ne. congruence.
Qed.

Lemma histogram_loop_other (h' : nat) (b : list Z) :
  forall (hp : Heap.t) (k : nat),
    k <> h' ->
    fold_left (fun hp t => Heap.incr h' t hp) b hp !! k = hp !! k.
Proof.
  induction b as [| t b IH]; intros hp k Hk; simpl; [reflexivity |].
  rewrite IH by exact Hk. apply incr_other, Hk.
Qed.

(** Every array that existed before the call is unchanged after it. *)
Lemma histogram_frame (b : list Z) (h : nat) (hp : Heap.t) (a : list (option Z)) :
  hp !! h = Some a ->
  exists hp', histogram b h hp = Ok hp'
              /\ forall k, (k < length hp)%nat -> hp' !! k = hp !! k.
Proof.
  intros Hh. unfold histogram, Heap.alloc. rewrite Hh.
  eexists. split; [reflexivity |].
  intros k Hk. rewrite histogram_loop_other by lia.
  apply lookup_app_l, Hk.
Qed.

Lemma numbers_of_table (lf : list Z) (hp : Heap.t) (h : nat) :
  hp !! h = Some (Some <$> lf) -> Heap.numbers h hp = Ok lf.
Proof.
  intros Hh. unfold Heap.numbers. rewrite Hh.
  now rewrite (mapM_fmap_Some id Some lf) by reflexivity.
Qed.

Lemma huff_table_only_end_block (n i : nat) (v : Z) :
  huff_table n !! i = Some v -> v <> 0 -> i = 256%nat.
Proof.
  intros Hi Hv. destruct (decide (i = 256%nat)) as [-> | Hne]; [reflexivity |].
  unfold huff_table in Hi. rewrite list_lookup_insert_ne in Hi by congruence.
  apply lookup_replicate in Hi as [-> _]. congruence.
Qed.

Lemma huff_frequencies_table (input : list Z) (w : Writer) :
  (256 < length (literalFreq w))%nat ->
  exists ofr,
    freq_put 0 1 (offsetFreq w) = Ok ofr
    /\ huff_frequencies input w
       = (Ok tt, set_offsetFreq ofr
                   (set_literalFreq (huff_table (length (literalFreq w))) w)).
Proof.
  intros Hlen.
  assert (Hofr : exists ofr, freq_put 0 1 (offsetFreq w) = Ok ofr).
  { unfold freq_put, JS.len. destruct (offsetFreq w) as [| x l]; simpl; eauto. }
  destruct Hofr as (ofr & Hofr). exists ofr. split; [exact Hofr |].
  unfold huff_frequencies, bind, modify, get_w, lift, Heap.alloc.
  cbn [literalFreq set_literalFreq offsetFreq length].
  destruct (histogram_frame input 0 [Some <$> ((fun _ : Z => 0) <$> literalFreq w)]
              (Some <$> ((fun _ : Z => 0) <$> literalFreq w)) eq_refl)
    as (hp' & E & Hsame).
  rewrite app_nil_l, E.
  rewrite (numbers_of_table ((fun _ : Z => 0) <$> literalFreq w) hp' 0)
    by (rewrite Hsame by (simpl; lia); reflexivity).
  rewrite (const_fmap (fun _ : Z => 0) (literalFreq w) 0) by reflexivity.
  assert (Hput : freq_put END_BLOCK_MARKER 1 (replicate (length (literalFreq w)) 0)
                 = Ok (huff_table (length (literalFreq w)))).
  { unfold freq_put, JS.len, END_BLOCK_MARKER. rewrite length_replicate.
    destruct (Z.ltb_spec 256 (Z.of_nat (length (literalFreq w)))); [| lia].
    reflexivity. }
  rewrite Hput. cbn [offsetFreq set_literalFreq]. rewrite Hofr. reflexivity.
Qed.

(** C10. [histogram] leaves the caller's array as it was: it allocates a
    slice and increments that. So, whatever the input bytes, the literal
    table of [writeBlockHuff] is [huff_table], in which only symbol 256 is
    non-zero, and that is the table its literal code is computed from:
    the call is [literalEncoding.generate] on [huff_table] with maxBits 15,
    followed by the rest of the method, on a writer that does not depend
    on the input; when that [generate] throws, [writeBlockHuff] ends with
    the same exception and the encoder as [generate] left it. *)
Theorem histogram_leaves_caller_table (b : list Z) (h : nat) (hp : Heap.t)
    (a : list (option Z)) (w : Writer) (eof : bool) :
  hp !! h = Some a ->
  err w = None ->
  (256 < length (literalFreq w))%nat ->
  (exists hp', histogram b h hp = Ok hp' /\ hp' !! h = Some a)
  /\ (exists w1,
        (forall input, huff_frequencies input w = (Ok tt, w1))
        /\ literalFreq w1 = huff_table (length (literalFreq w))
        /\ literalFreq w1 !! 256%nat = Some 1
        /\ (forall i v, literalFreq w1 !! i = Some v -> v <> 0 -> i = 256%nat)
        /\ writeBlockHuff eof b w = huff_encode eof b w1
        /\ literalEncoding w1 = literalEncoding w
        /\ writeBlockHuff eof b w
           = (run! generate_with literalEncoding set_literalEncoding
                     (huff_table (length (literalFreq w))) 15 ;;
              huff_emit eof b) w1
        /\ (forall s h',
              generate (literalEncoding w) (huff_table (length (literalFreq w))) 15
              = (Stop s, h') ->
              writeBlockHuff eof b w = (Stop s, set_literalEncoding h' w1))).
Proof.
  intros Hh Herr Hlen. split.
  - destruct (histogram_frame b h hp a Hh) as (hp' & E & Hsame).
    exists hp'. split; [exact E |].
    rewrite Hsame by (eapply lookup_lt_Some; exact Hh). exact Hh.
  - destruct (huff_frequencies_table b w Hlen) as (ofr & Hofr & Eb).
    exists (set_offsetFreq ofr
              (set_literalFreq (huff_table (length (literalFreq w))) w)).
    assert (Hcall : writeBlockHuff eof b w
                    = huff_encode eof b
                        (set_offsetFreq ofr
                           (set_literalFreq (huff_table (length (literalFreq w))) w))).
    { unfold writeBlockHuff, bind, get_w. now rewrite Herr, Eb. }
    split; [| split; [reflexivity | split; [| split; [| split; [exact Hcall |]]]]].
    + intros input.
      destruct (huff_frequencies_table input w Hlen) as (ofr' & Hofr' & E).
      rewrite E. congruence.
    + cbn [literalFreq set_offsetFreq set_literalFreq]. unfold huff_table.
      apply list_lookup_insert_eq. now rewrite length_replicate.
    + cbn [literalFreq set_offsetFreq set_literalFreq].
      apply huff_table_only_end_block.
    + split; [reflexivity |]. split; [rewrite Hcall; reflexivity |].
      intros s h' Hgen. rewrite Hcall.
      unfold huff_encode, bind, get_w, generate_with.
      cbn [literalFreq literalEncoding set_offsetFreq set_literalFreq].
      now rewrite Hgen.
Qed.

Lemma histogram_leaves_caller_table_witness :
  [[Some 7; Some 0; Some 2]] !! 0%nat = Some [Some 7; Some 0; Some 2]
  /\ err fresh_writer = None
  /\ (256 < length (literalFreq fresh_writer))%nat
  /\ (exists hp', histogram [1; 1; 2] 0 [[Some 7; Some 0; Some 2]] = Ok hp'
                  /\ hp' !! 0%nat = Some [Some 7; Some 0; Some 2])
  /\ (exists w1, literalFreq w1 !! 256%nat = Some 1
                 /\ writeBlockHuff false [1; 1; 2] fresh_writer
                    = huff_encode false [1; 1; 2] w1
                 /\ writeBlockHuff false [1; 1; 2] fresh_writer
                    = (run! generate_with literalEncoding set_literalEncoding
                              (huff_table (length (literalFreq fresh_writer))) 15 ;;
                       huff_emit false [1; 1; 2]) w1
                 /\ writeBlockHuff false [1; 1; 2] fresh_writer
                    = (Stop (Throw TypeError),
                       set_literalEncoding (literalEncoding fresh_writer) w1)).
Proof.
  assert (Hlen : (256 < length (literalFreq fresh_writer))%nat)
    by (vm_compute; lia).
  split; [reflexivity |]. split; [reflexivity |]. split; [exact Hlen |].
  destruct (histogram_leaves_caller_table [1; 1; 2] 0
              [[Some 7; Some 0; Some 2]] [Some 7; Some 0; Some 2]
              fresh_writer false eq_refl eq_refl Hlen)
    as (Hhist & w1 & _ & _ & Hend & _ & Hhuff & _ & Hgen & Hstop).
  split; [exact Hhist |]. exists w1.
  split; [exact Hend |]. split; [exact Hhuff |]. split; [exact Hgen |].
  apply Hstop. vm_compute. reflexivity.
Defined.

(** *** The general case of generate

    For frequencies that are counts (none negative) with three or more
    used symbols, [generate] never returns: [bitCounts] stops. The sorted
    [list] starts with the extra [new LiteralNode()] of frequency 0, so
    every level from 2 up begins by taking a pair and sends the loop one
    level down, until it asks for [levels[0]]. *)

Lemma compareByFreq_le x y : compareByFreq x y <= 0 -> freq_le x y.
Proof.
  unfold compareByFreq, freq_le.
  destruct (Z.eqb_spec (LiteralNode.freq x) (LiteralNode.freq y)); lia.
Qed.

Lemma compareByFreq_gt x y : ~ compareByFreq x y <= 0 -> freq_le y x.
Proof.
  unfold compareByFreq, freq_le.
  destruct (Z.eqb_spec (LiteralNode.freq x) (LiteralNode.freq y)); lia.
Qed.

Lemma sort_insert_elem {A} (cmp : A -> A -> Z) (x z : A) (l : list A) :
  z ∈ sort_insert cmp x l <-> z = x \/ z ∈ l.
Proof.
  induction l as [| y l IH]; simpl.
  - rewrite elem_of_cons. reflexivity.
  - destruct (cmp x y <=? 0).
    + rewrite elem_of_cons. reflexivity.
    + rewrite !elem_of_cons, IH. tauto.
Qed.

Lemma sort_insert_sorted (x : LiteralNode.t) (l : list LiteralNode.t) :
  StronglySorted freq_le l ->
  StronglySorted freq_le (sort_insert compareByFreq x l).
Proof.
  induction 1 as [| y l Hs IH Hy]; simpl.
  - repeat constructor.
  - destruct (Z.leb_spec (compareByFreq x y) 0) as [Hle | Hgt].
    + constructor; [constructor; assumption |].
      apply compareByFreq_le in Hle. constructor; [exact Hle |].
      eapply Forall_impl; [exact Hy |]. unfold freq_le in *. intros; lia.
    + constructor; [exact IH |].
      apply Forall_forall. intros z Hz.
      apply sort_insert_elem in Hz as [-> | Hz].
      * apply compareByFreq_gt. lia.
      * rewrite Forall_forall in Hy. auto.
Qed.

Lemma insertion_sorted (l : list LiteralNode.t) :
  StronglySorted freq_le (foldr (sort_insert compareByFreq) [] l).
Proof.
  induction l as [| x l IH]; simpl; [constructor | now apply sort_insert_sorted].
Qed.

Lemma insertion_elem {A} (cmp : A -> A -> Z) (z : A) (l : list A) :
  z ∈ foldr (sort_insert cmp) [] l <-> z ∈ l.
Proof.
  induction l as [| x l IH]; simpl; [reflexivity |].
  rewrite sort_insert_elem, elem_of_cons, IH. reflexivity.
Qed.

Lemma js_sort_pair_first (lst : list (option LiteralNode.t)) :
  Some LiteralNode.default ∈ lst ->
  (forall nd, Some nd ∈ lst -> 0 <= LiteralNode.freq nd) ->
  pair_first (js_sort compareByFreq lst).
Proof.
  intros Hzero Hpos n0 n1 n2 H0 H1 H2. unfold js_sort in *.
  set (present := omap id lst) in *.
  assert (Hin : forall nd, nd ∈ foldr (sort_insert compareByFreq) [] present
                           <-> Some nd ∈ lst).
  { intros nd. rewrite insertion_elem. unfold present.
    rewrite list_elem_of_omap. split.
    - intros (o & Ho & Hid). simpl in Hid. now subst o.
    - intros Hnd. exists (Some nd). auto. }
  pose proof (insertion_sorted present) as Hs.
  destruct (foldr (sort_insert compareByFreq) [] present) as [| s0 [| s1 [| s2 rest]]];
    simpl in H0, H1, H2;
    try (apply lookup_replicate in H0 as [? _]; discriminate);
    try (apply lookup_replicate in H1 as [? _]; discriminate);
    try (apply lookup_replicate in H2 as [? _]; discriminate).
  injection H0 as <-. injection H1 as <-. injection H2 as <-.
  apply StronglySorted_inv in Hs as [Hs Hall0].
  apply StronglySorted_inv in Hs as [_ Hall1].
  assert (Hdef : freq_le s0 LiteralNode.default).
  { assert (Hd : LiteralNode.default ∈ s0 :: s1 :: s2 :: rest) by now apply Hin.
    apply elem_of_cons in Hd as [<- | Hd]; [unfold freq_le; lia |].
    rewrite Forall_forall in Hall0. auto. }
  assert (H0pos : 0 <= LiteralNode.freq s0) by (apply Hpos, Hin; left).
  apply Forall_cons in Hall1 as [H12 _].
  unfold freq_le in *. simpl in Hdef. lia.
Qed.

Lemma get_of_nat {A} (l : list A) (k : nat) : JS.get l (Z.of_nat k) = l !! k.
Proof. rewrite JS_get_nat by lia. now rewrite Nat2Z.id. Qed.

Lemma set_of_nat {A} (l : list A) (k : nat) (v : A) :
  JS.set (Z.of_nat k) v l = <[k := v]> l.
Proof. rewrite JS_set_nat by lia. now rewrite Nat2Z.id. Qed.

Lemma throws_stop {A} (e : exn) : throws (Stop (A := A) (Throw e)).
Proof. now exists e. Qed.

Lemma throws_bind {A B} (c : res A) (k : A -> res B) :
  throws c -> throws (res_bind c k).
Proof. intros (e & ->). now exists e. Qed.

Lemma deref_cases {A} (o : option (option A)) :
  (exists a, o = Some (Some a)) \/ deref o = Stop (Throw TypeError).
Proof. destruct o as [[a |] |]; simpl; eauto. Qed.

(** The 16 x 16 matrix keeps its shape, so its reads stay in range. *)
Lemma leaf_row_square (lc : list (list Z)) (i : Z) :
  square lc -> 0 <= i < 16 ->
  exists row, leaf_row lc i = Ok row /\ lc !! Z.to_nat i = Some row
              /\ length row = 16%nat.
Proof.
  intros [Hlen Hrows] Hi. unfold leaf_row. rewrite JS_get_nat by lia.
  destruct (lookup_lt_is_Some_2 lc (Z.to_nat i)) as (row & Hrow); [lia |].
  rewrite Hrow. exists row. repeat split.
  apply Hrows. eapply list_elem_of_lookup_2, Hrow.
Qed.

Lemma leaf_get_square (lc : list (list Z)) (i j : Z) :
  square lc -> 0 <= i < 16 -> 0 <= j < 16 -> exists v, leaf_get lc i j = Ok v.
Proof.
  intros Hsq Hi Hj. unfold leaf_get.
  destruct (leaf_row_square lc i Hsq Hi) as (row & -> & _ & Hrow).
  cbn [res_bind]. rewrite JS_get_nat by lia.
  destruct (lookup_lt_is_Some_2 row (Z.to_nat j)) as (v & Hv); [lia |].
  rewrite Hv. simpl. eauto.
Qed.

Lemma leaf_set_square (lc : list (list Z)) (i j v : Z) :
  square lc -> 0 <= i < 16 ->
  exists lc', leaf_set lc i j v = Ok lc' /\ square lc'.
Proof.
  intros Hsq Hi. unfold leaf_set.
  destruct (leaf_row_square lc i Hsq Hi) as (row & -> & Hrow & Hlen).
  cbn [res_bind]. eexists. split; [reflexivity |].
  destruct Hsq as [Hlc Hrows]. rewrite JS_set_nat by lia.
  split; [now rewrite length_insert |].
  intros r Hr. apply list_elem_of_lookup in Hr as (k & Hk).
  apply list_lookup_insert_Some in Hk as [(_ & <- & _) | (_ & Hk)].
  - unfold JS.set. destruct (j <? 0); [| rewrite length_insert]; exact Hlen.
  - apply Hrows. eapply list_elem_of_lookup_2, Hk.
Qed.

Lemma copy_counts_square (level : Z) (n : nat) :
  forall (k : Z) (lc : list (list Z)),
    square lc -> 0 <= k -> level < 16 ->
    exists lc', copy_counts n k level lc = Ok lc' /\ square lc'.
Proof.
  induction n as [| n IH]; intros k lc Hsq Hk Hlevel; simpl; [eauto |].
  destruct (Z.ltb_spec k level); [| eauto].
  destruct (leaf_get_square lc level k Hsq) as (v & ->); [lia | lia |].
  cbn [res_bind].
  destruct (leaf_set_square lc (level - 1) k v Hsq) as (lc1 & -> & Hsq1); [lia |].
  cbn [res_bind]. apply IH; [exact Hsq1 | lia | lia].
Qed.

Lemma descend_undefined (fuel : nat) (levels : list (option LevelInfo.t)) (L : nat) :
  levels !! L = Some None ->
  descend (S fuel) levels (Z.of_nat (S L)) = Stop (Throw TypeError).
Proof.
  intros H. simpl descend.
  replace (Z.of_nat (S L) - 1) with (Z.of_nat L) by lia.
  now rewrite get_of_nat, H.
Qed.

Lemma descend_asked (fuel : nat) (levels : list (option LevelInfo.t)) (L : nat)
    (below : LevelInfo.t) :
  levels !! L = Some (Some below) -> 0 < LevelInfo.needed below ->
  descend (S fuel) levels (Z.of_nat (S L)) = descend fuel levels (Z.of_nat L).
Proof.
  intros H Hn. simpl descend.
  replace (Z.of_nat (S L) - 1) with (Z.of_nat L) by lia.
  rewrite get_of_nat, H. simpl.
  destruct (Z.gtb_spec (LevelInfo.needed below) 0); [reflexivity | lia].
Qed.

Lemma descend_idle (fuel : nat) (levels : list (option LevelInfo.t)) (L : nat)
    (below : LevelInfo.t) :
  levels !! L = Some (Some below) -> LevelInfo.needed below <= 0 ->
  descend (S fuel) levels (Z.of_nat (S L)) = Ok (Z.of_nat (S L)).
Proof.
  intros H Hn. simpl descend.
  replace (Z.of_nat (S L) - 1) with (Z.of_nat L) by lia.
  rewrite get_of_nat, H. simpl.
  destruct (Z.gtb_spec (LevelInfo.needed below) 0); [lia | reflexivity].
Qed.

Section GeneralCase.
Variables f0 f1 f2 : Z.
Hypothesis pair_chosen : f0 + f1 <= f2.
Variable lst : list (option LiteralNode.t).
Variable maxBits : Z.

(** After an item at level [S L] with more to come, the loop looks below. *)
Lemma after_item_more (L : nat) (prevFreq : Z) (l : LevelInfo.t)
    (levels : list (option LevelInfo.t)) (lc : list (list Z)) :
  LevelInfo.needed l - 1 <> 0 ->
  after_item maxBits (Z.of_nat (S L)) prevFreq l levels lc
  = let levels' :=
      <[S L := Some (LevelInfo.mk (LevelInfo.level l) (LevelInfo.lastFreq l)
                       (LevelInfo.nextCharFreq l) (LevelInfo.nextPairFreq l)
                       (LevelInfo.needed l - 1))]> levels in
    let! level := descend 17 levels' (Z.of_nat (S L)) in
    Ok (inl (mkBC level levels' lc)).
Proof.
  intros Hn. unfold after_item. cbn [LevelInfo.needed].
  destruct (Z.eqb_spec (LevelInfo.needed l - 1) 0); [contradiction |].
  now rewrite set_of_nat.
Qed.

(** One turn at a level the loop has just arrived at: a TypeError, or the
    loop arrives one level lower. *)
Lemma step_goes_down (L : nat) (levels : list (option LevelInfo.t))
    (lc : list (list Z)) (needed : Z) :
  arrived f0 f1 f2 (S L) levels needed -> square lc ->
  forall r, bitCounts_step lst maxBits (mkBC (Z.of_nat (S L)) levels lc) = r ->
  r = Stop (Throw TypeError)
  \/ (exists levels' lc',
        r = Ok (inl (mkBC (Z.of_nat L) levels' lc'))
        /\ arrived f0 f1 f2 L levels' 2 /\ square lc').
Proof.
  intros [Hlen Htop Hzero Hbelow Hhere Hneeded] Hsq r Hr.
  unfold bitCounts_step in Hr. cbn [bc_level bc_levels bc_leafCounts] in Hr.
  rewrite get_of_nat, Hhere in Hr. cbn [deref res_bind] in Hr.
  unfold asked_level in Hr.
  cbn [LevelInfo.nextCharFreq LevelInfo.nextPairFreq LevelInfo.lastFreq] in Hr.
  destruct L as [| L].
  - (* level 1: whatever it takes, it ends up asking for levels[0] *)
    left. change (Z.of_nat 1 =? 1) with true in Hr. cbv iota in Hr.
    destruct (f2 <? MAX_INT32).
    + unfold take_leaf in Hr.
      destruct (leaf_get_square lc (Z.of_nat 1) (Z.of_nat 1) Hsq) as (c & Hc);
        [lia | lia |].
      rewrite Hc in Hr. cbn [res_bind] in Hr.
      destruct (leaf_set_square lc (Z.of_nat 1) (Z.of_nat 1) (c + 1) Hsq)
        as (lc1 & Hc1 & _); [lia |].
      rewrite Hc1 in Hr. cbn [res_bind] in Hr.
      destruct (deref_cases (JS.get lst (c + 1))) as [(nd & Hnd) | Hnd];
        rewrite Hnd in Hr; [| now subst r].
      cbn [deref res_bind] in Hr. rewrite after_item_more in Hr by (cbn; lia).
      cbv zeta in Hr. rewrite descend_undefined in Hr; [now subst r |].
      rewrite list_lookup_insert_ne by lia. exact Hzero.
    + unfold take_pair in Hr. cbn [LevelInfo.level] in Hr.
      destruct (copy_counts_square (Z.of_nat 1) 16 0 lc Hsq) as (lc' & Hc & _);
        [lia | lia |].
      rewrite Hc in Hr. cbn [res_bind] in Hr.
      replace (Z.of_nat 1 - 1) with (Z.of_nat 0) in Hr by lia.
      rewrite get_of_nat, Hzero in Hr. now subst r.
  - (* level 2 and up: a pair, and down *)
    assert (Hne1 : (Z.of_nat (S (S L)) =? 1) = false) by (apply Z.eqb_neq; lia).
    rewrite Hne1 in Hr.
    destruct (Z.ltb_spec f2 (f0 + f1)) as [Hlt | _]; [lia |].
    unfold take_pair in Hr.
    cbn [LevelInfo.level LevelInfo.nextPairFreq LevelInfo.nextCharFreq
         LevelInfo.needed] in Hr.
    destruct (copy_counts_square (Z.of_nat (S (S L))) 16 0 lc Hsq)
      as (lc' & Hc & Hsq'); [lia | lia |].
    rewrite Hc in Hr. cbn [res_bind] in Hr.
    replace (Z.of_nat (S (S L)) - 1) with (Z.of_nat (S L)) in Hr by lia.
    rewrite get_of_nat, (Hbelow (S L)) in Hr by lia. cbn [deref res_bind] in Hr.
    rewrite set_of_nat in Hr. rewrite after_item_more in Hr by (cbn; lia).
    cbn [LevelInfo.level LevelInfo.lastFreq LevelInfo.nextCharFreq
         LevelInfo.nextPairFreq LevelInfo.needed asked_level] in Hr.
    cbv zeta in Hr.
    set (below := LevelInfo.mk (Z.of_nat (S L)) f1 f2
                    (if Z.of_nat (S L) =? 1 then MAX_INT32 else f0 + f1) 2) in *.
    set (here := LevelInfo.mk (Z.of_nat (S (S L))) (f0 + f1) f2 (f0 + f1) (needed - 1)) in *.
    set (levels' := <[S (S L) := Some here]> (<[S L := Some below]> levels)) in *.
    assert (Hb : levels' !! S L = Some (Some below)).
    { unfold levels'. rewrite list_lookup_insert_ne by lia.
      apply list_lookup_insert_eq. lia. }
    rewrite (descend_asked 16 levels' (S L) below Hb) in Hr by (cbn; lia).
    destruct L as [| L].
    + left. rewrite descend_undefined in Hr; [now subst r |].
      unfold levels'. rewrite !list_lookup_insert_ne by lia. exact Hzero.
    + right. exists levels', lc'.
      assert (Hidle : levels' !! S L = Some (Some (asked_level f0 f1 f2 (S L) 0))).
      { unfold levels'. rewrite !list_lookup_insert_ne by lia. apply Hbelow. lia. }
      rewrite (descend_idle 15 levels' (S L) _ Hidle) in Hr by (cbn; lia).
      split; [now rewrite <- Hr |]. split; [| exact Hsq'].
      constructor.
      * unfold levels'. now rewrite !length_insert.
      * lia.
      * unfold levels'. rewrite !list_lookup_insert_ne by lia. exact Hzero.
      * intros k Hk. unfold levels'. rewrite !list_lookup_insert_ne by lia.
        apply Hbelow. lia.
      * exact Hb.
      * lia.
Qed.

(** From a level it has just arrived at, the loop goes down one level a
    turn and throws before it can reach its [break]. *)
Lemma loop_throws (L : nat) :
  forall (fuel : nat) (levels : list (option LevelInfo.t)) (lc : list (list Z))
         (needed : Z),
    arrived f0 f1 f2 L levels needed -> square lc -> (L <= fuel)%nat ->
    bitCounts_loop fuel lst maxBits (mkBC (Z.of_nat L) levels lc)
    = Stop (Throw TypeError).
Proof.
  induction L as [| L IH]; intros fuel levels lc needed Harr Hsq Hfuel.
  - destruct Harr as [_ Htop _ _ _ _]. lia.
  - destruct fuel as [| fuel]; [lia |].
    cbn [bitCounts_loop].
    destruct (step_goes_down L levels lc needed Harr Hsq _ eq_refl)
      as [-> | (levels' & lc' & -> & Harr' & Hsq')]; [reflexivity |].
    cbn [res_bind]. eapply IH; [exact Harr' | exact Hsq' | lia].
Qed.

End GeneralCase.

Lemma store_elem {A} (i : Z) (v : A) (l : list (option A)) (o : option A) :
  o ∈ JS.store i v l -> o = Some v \/ o ∈ l \/ o = None.
Proof.
  unfold JS.store. destruct (Z.to_nat i <? length l)%nat.
  - intros H. apply list_elem_of_lookup in H as (j & Hj).
    destruct (decide (Z.to_nat i = j)) as [<- | Hne].
    + apply list_lookup_insert_Some in Hj as [(_ & <- & _) | (? & _)]; [auto | lia].
    + rewrite list_lookup_insert_ne in Hj by exact Hne.
      right; left. eapply list_elem_of_lookup_2, Hj.
  - rewrite !elem_of_app, list_elem_of_singleton.
    intros [H | [H | H]]; auto.
    apply elem_of_replicate in H as [-> _]. auto.
Qed.

Lemma store_has {A} (i : Z) (v : A) (l : list (option A)) :
  Some v ∈ JS.store i v l.
Proof.
  unfold JS.store. destruct (Nat.ltb_spec (Z.to_nat i) (length l)).
  - eapply list_elem_of_lookup_2. apply list_lookup_insert_eq. assumption.
  - rewrite !elem_of_app, list_elem_of_singleton. auto.
Qed.

Lemma store_length {A} (i : Z) (v : A) (l : list (option A)) :
  (Z.to_nat i < length (JS.store i v l))%nat.
Proof.
  unfold JS.store. destruct (Nat.ltb_spec (Z.to_nat i) (length l)).
  - now rewrite length_insert.
  - rewrite !length_app, length_replicate. simpl. lia.
Qed.

Lemma js_sort_length {A} (cmp : A -> A -> Z) (l : list (option A)) :
  length (js_sort cmp l) = length l.
Proof.
  unfold js_sort. rewrite length_app, length_fmap, length_replicate.
  assert (Hins : forall k : list A, length (foldr (sort_insert cmp) [] k) = length k).
  { induction k as [| x k IH]; simpl; [reflexivity |].
    rewrite <- IH. generalize (foldr (sort_insert cmp) [] k). intros m.
    induction m as [| y m IHm]; simpl; [reflexivity |].
    destruct (cmp x y <=? 0); simpl; congruence. }
  rewrite Hins.
  clear Hins. induction l as [| [x |] l IH]; cbn in *; lia.
Qed.

Lemma collect_nodes (freq : list Z) :
  forall i lst count cs lst' count' cs',
    generate_collect i freq lst count cs = (Ok (lst', count'), cs') ->
    (forall f, f ∈ freq -> 0 <= f) ->
    (forall nd, Some nd ∈ lst -> 0 <= LiteralNode.freq nd) ->
    forall nd, Some nd ∈ lst' -> 0 <= LiteralNode.freq nd.
Proof.
  induction freq as [| f freq IH];
    intros i lst count cs lst' count' cs' E Hfreq Hlst.
  - simpl in E. injection E as <- _ _. exact Hlst.
  - simpl in E.
    assert (Hf0 : 0 <= f) by (apply Hfreq; left).
    assert (Hrest : forall g, g ∈ freq -> 0 <= g) by (intros g Hg; apply Hfreq; now right).
    destruct (Z.eqb_spec f 0) as [-> | Hf]; simpl in E.
    + destruct (JS.get cs i) as [[c |] |]; try discriminate.
      eapply IH; [exact E | exact Hrest |].
      intros nd Hnd. apply store_elem in Hnd as [Hnd | [Hnd | Hnd]];
        [injection Hnd as ->; simpl; lia | auto | discriminate].
    + eapply IH; [exact E | exact Hrest |].
      intros nd Hnd. apply store_elem in Hnd as [Hnd | [Hnd | Hnd]];
        [injection Hnd as ->; simpl; lia | auto | discriminate].
Qed.

Lemma count_nonzero_length (freq : list Z) : count_nonzero freq <= JS.len freq.
Proof.
  unfold count_nonzero, JS.len.
  pose proof (length_filter (fun f : Z => f <> 0) freq). lia.
Qed.

(** The initialisation of the levels: it completes with levels 1 to
    [mb] set up, or throws. *)
Lemma bitCounts_init_ok (lst : list (option LiteralNode.t)) (mb : nat) (k : nat) :
  forall (lv : nat) levels lc,
    (1 <= lv)%nat -> length levels = 16%nat -> (mb < 16)%nat ->
    (mb + 1 - lv <= k)%nat -> square lc ->
    bitCounts_init k (Z.of_nat lv) (Z.of_nat mb) lst levels lc = Stop (Throw TypeError)
    \/ exists levels' lc',
         bitCounts_init k (Z.of_nat lv) (Z.of_nat mb) lst levels lc = Ok (levels', lc')
         /\ length levels' = 16%nat /\ square lc'
         /\ (forall j, (j < lv)%nat -> levels' !! j = levels !! j)
         /\ ((lv <= mb)%nat ->
             exists n0 n1 n2,
               lst !! 0%nat = Some (Some n0) /\ lst !! 1%nat = Some (Some n1)
               /\ lst !! 2%nat = Some (Some n2)
               /\ forall j, (lv <= j <= mb)%nat ->
                    levels' !! j
                    = Some (Some (asked_level (LiteralNode.freq n0)
                                    (LiteralNode.freq n1) (LiteralNode.freq n2) j 0))).
Proof.
  induction k as [| k IH]; intros lv levels lc Hlv Hlen Hmb Hk Hsq.
  - right. exists levels, lc. simpl.
    repeat split; [exact Hlen | apply Hsq | apply Hsq | lia].
  - simpl bitCounts_init.
    destruct (Z.leb_spec (Z.of_nat lv) (Z.of_nat mb)) as [Hle | Hgt].
    + rewrite !(JS_get_nat lst) by lia.
      change (Z.to_nat 1) with 1%nat. change (Z.to_nat 2) with 2%nat.
      change (Z.to_nat 0) with 0%nat.
      destruct (lst !! 1%nat) as [[n1 |] |]; [| now left | now left].
      destruct (lst !! 2%nat) as [[n2 |] |]; [| now left | now left].
      destruct (lst !! 0%nat) as [[n0 |] |]; [| now left | now left].
      cbn [deref res_bind].
      destruct (leaf_set_square lc (Z.of_nat lv) (Z.of_nat lv) 2 Hsq)
        as (lc1 & -> & Hsq1); [lia |].
      cbn [res_bind].
      replace (Z.of_nat lv + 1) with (Z.of_nat (S lv)) by lia.
      rewrite set_of_nat.
      match goal with
      | |- context [bitCounts_init k _ _ lst ?lvs ?lcs] =>
          destruct (IH (S lv) lvs lcs) as [E | (levels' & lc' & E & Hlen' & Hsq' & Hlow & Hhigh)];
            [lia | now rewrite length_insert | exact Hmb | lia
             | exact Hsq1 | now left |]
      end.
      right. exists levels', lc'.
      split; [exact E |]. split; [exact Hlen' |]. split; [exact Hsq' |]. split.
      * intros j Hj. rewrite Hlow by lia. apply list_lookup_insert_ne. lia.
      * intros _. exists n0, n1, n2. repeat split.
        intros j Hj. destruct (decide (j = lv)) as [-> | Hne].
        -- rewrite Hlow by lia. rewrite list_lookup_insert_eq by lia.
           unfold asked_level. cbn [LevelInfo.level LevelInfo.lastFreq
             LevelInfo.nextCharFreq LevelInfo.nextPairFreq LevelInfo.needed].
           now destruct (Z.of_nat lv =? 1).
        -- destruct Hhigh as (m0 & m1 & m2 & H0 & H1 & H2 & Hall); [lia |].
           injection H0 as <-. injection H1 as <-. injection H2 as <-.
           apply Hall. lia.
    + right. exists levels, lc.
      repeat split; [exact Hlen | apply Hsq | apply Hsq | lia].
Qed.

(** [bitCounts] throws on an array that starts with a pair no heavier than
    its third entry. *)
Lemma bitCounts_throws (fuel : nat) (h : HuffmanEncoder)
    (lst : list (option LiteralNode.t)) (maxBits : Z) :
  (16 <= fuel)%nat -> (3 <= length lst)%nat -> pair_first lst ->
  throws (bitCounts_fuel fuel h lst maxBits).
Proof.
  intros Hfuel Hlen Hpair. unfold bitCounts_fuel.
  destruct (Z.geb_spec maxBits MAX_BITS_LIMIT) as [_ | Hmax]; [apply throws_stop |].
  unfold MAX_BITS_LIMIT in Hmax.
  set (n := JS.len lst).
  set (lst' := JS.store n maxNode lst).
  set (mbz := if maxBits >? n - 1 then n - 1 else maxBits).
  assert (Hmbz : mbz < 16) by (unfold mbz; destruct (maxBits >? n - 1) eqn:E; lia).
  assert (Hn : 3 <= n) by (unfold n, JS.len; lia).
  assert (Hsame : forall j, (j < 3)%nat -> lst' !! j = lst !! j).
  { intros j Hj. unfold lst', JS.store, n, JS.len. rewrite Nat2Z.id.
    rewrite Nat.ltb_irrefl. apply lookup_app_l. lia. }
  assert (Hsq : square (replicate (Z.to_nat MAX_BITS_LIMIT)
                          (replicate (Z.to_nat MAX_BITS_LIMIT) 0))).
  { split; [reflexivity |]. intros row Hrow.
    now apply elem_of_replicate in Hrow as [-> _]. }
  destruct (Z.le_gt_cases mbz 0) as [Hlow | Hhigh].
  - (* no level is set up: levels[maxBits] is undefined *)
    assert (Einit : forall levels lc,
               bitCounts_init 16 1 mbz lst' levels lc = Ok (levels, lc)).
    { intros levels lc. simpl. destruct (Z.leb_spec 1 mbz); [lia | reflexivity]. }
    rewrite Einit. cbn [res_bind].
    assert (Hget : deref (JS.get (replicate (Z.to_nat MAX_BITS_LIMIT)
                                    (None : option LevelInfo.t)) mbz)
                   = Stop (Throw TypeError)).
    { unfold JS.get. destruct (mbz <? 0); [reflexivity |].
      replace (Z.to_nat mbz) with 0%nat by lia. reflexivity. }
    rewrite Hget. apply throws_stop.
  - set (mb := Z.to_nat mbz).
    replace mbz with (Z.of_nat mb) by (unfold mb; lia).
    change 1 with (Z.of_nat 1) at 1.
    match goal with
    | |- context [bitCounts_init 16 _ _ lst' ?lvs ?lcs] =>
        destruct (bitCounts_init_ok lst' mb 16 1 lvs lcs)
          as [-> | (levels & lc & -> & Hlen' & Hsq' & Hlow & Hlevels)];
          [lia | reflexivity | unfold mb; lia | unfold mb; lia | exact Hsq
           | apply throws_stop |]
    end.
    destruct Hlevels as (n0 & n1 & n2 & H0 & H1 & H2 & Hall); [unfold mb; lia |].
    cbn [res_bind]. rewrite get_of_nat, (Hall mb) by (unfold mb; lia).
    cbn [deref res_bind]. rewrite set_of_nat.
    cbn [LevelInfo.level LevelInfo.lastFreq LevelInfo.nextCharFreq
         LevelInfo.nextPairFreq LevelInfo.needed asked_level].
    rewrite (loop_throws (LiteralNode.freq n0) (LiteralNode.freq n1)
               (LiteralNode.freq n2)
               ltac:(apply Hpair; rewrite <- Hsame by lia; assumption)
               lst' (Z.of_nat mb) mb fuel _ lc (2 * n - 4));
      [apply throws_stop | | exact Hsq' | unfold mb; lia].
    constructor.
    + now rewrite length_insert.
    + unfold mb; lia.
    + rewrite list_lookup_insert_ne by (unfold mb; lia).
      rewrite Hlow by lia. reflexivity.
    + intros k Hk. rewrite list_lookup_insert_ne by lia. apply Hall. lia.
    + apply list_lookup_insert_eq. rewrite Hlen'. unfold mb; lia.
    + lia.
Qed.

(** When the frequencies are counts and three or more symbols are used,
    [generate] throws, on any encoder built by the constructor or left by
    earlier calls ([freqcache] is never assigned: it stays empty). *)
Theorem generate_throws_on_three_symbols (h : HuffmanEncoder) (freq : list Z)
    (maxBits : Z) :
  freqcache h = [] ->
  (forall f, f ∈ freq -> 0 <= f) ->
  3 <= count_nonzero freq ->
  throws (fst (generate h freq maxBits)).
Proof.
  intros Hcache Hfreq Hcount. unfold generate. rewrite Hcache.
  destruct (generate_collect 0 freq (JS.slice 0 (JS.len freq + 1) []) 0 (codes h))
    as [[[lst count] | s] cs] eqn:E.
  2: { apply collect_stop in E as ->. apply throws_stop. }
  pose proof (collect_count _ _ _ _ _ _ _ _ E) as ->. rewrite Z.add_0_l.
  destruct (Z.leb_spec (count_nonzero freq) 2) as [Hle | _]; [lia |].
  set (lst1 := JS.store (JS.len freq) LiteralNode.default lst).
  destruct (bitCounts_throws (512 * (length (js_sort compareByFreq lst1) + 2)) h
              (js_sort compareByFreq lst1) maxBits) as (e & He).
  - lia.
  - rewrite js_sort_length.
    pose proof (store_length (JS.len freq) LiteralNode.default lst) as Hl.
    pose proof (count_nonzero_length freq). unfold JS.len in *. fold lst1 in Hl. lia.
  - apply js_sort_pair_first.
    + apply store_has.
    + intros nd Hnd. apply store_elem in Hnd as [Hnd | [Hnd | Hnd]];
        [injection Hnd as ->; simpl; lia | | discriminate].
      eapply collect_nodes; [exact E | exact Hfreq | | exact Hnd].
      intros nd' Hnd'. unfold JS.slice in Hnd'. simpl in Hnd'.
      rewrite take_nil in Hnd'. now apply elem_of_nil in Hnd'.
  - unfold bitCounts. rewrite He. apply throws_stop.
Qed.

(** ** Further properties of the code *)

(** *** 32-bit arithmetic *)

Ltac unbool :=
  repeat match goal with
  | H : _ && _ = true |- _ => apply andb_prop in H as [? ?]
  | H : _ || _ = false |- _ => apply orb_false_elim in H as [? ?]
  | H : negb _ = true |- _ => apply negb_true_iff in H
  | H : negb _ = false |- _ => apply negb_false_iff in H
  | H : (_ <=? _) = true |- _ => apply Z.leb_le in H
  | H : (_ <=? _) = false |- _ => apply Z.leb_gt in H
  | H : (_ <? _) = true |- _ => apply Z.ltb_lt in H
  | H : (_ <? _) = false |- _ => apply Z.ltb_ge in H
  | H : (_ >? _) = true |- _ => rewrite Z.gtb_ltb in H; apply Z.ltb_lt in H
  | H : (_ >? _) = false |- _ => rewrite Z.gtb_ltb in H; apply Z.ltb_ge in H
  | H : (_ >=? _) = true |- _ => rewrite Z.geb_leb in H; apply Z.leb_le in H
  | H : (_ >=? _) = false |- _ => rewrite Z.geb_leb in H; apply Z.leb_gt in H
  | H : (_ =? _) = true |- _ => apply Z.eqb_eq in H
  | H : (_ =? _) = false |- _ => apply Z.eqb_neq in H
  end.

Lemma to_int32_small (z : Z) : - 2 ^ 31 <= z < 2 ^ 31 -> JS.to_int32 z = z.
Proof. intros H. unfold JS.to_int32. rewrite Z.mod_small; lia. Qed.

Lemma to_int32_range (z : Z) : - 2 ^ 31 <= JS.to_int32 z < 2 ^ 31.
Proof.
  unfold JS.to_int32.
  pose proof (Z.mod_pos_bound (z + 2 ^ 31) (2 ^ 32) ltac:(lia)). lia.
Qed.

Lemma to_int32_wraps (z : Z) : exists q, JS.to_int32 z = z + q * 2 ^ 32.
Proof.
  exists (- ((z + 2 ^ 31) / 2 ^ 32)). unfold JS.to_int32.
  pose proof (Z.div_mod (z + 2 ^ 31) (2 ^ 32) ltac:(lia)). lia.
Qed.

Lemma to_int32_mod (z k : Z) :
  0 <= k <= 32 -> JS.to_int32 z mod 2 ^ k = z mod 2 ^ k.
Proof.
  intros Hk. destruct (to_int32_wraps z) as [q ->].
  replace (2 ^ 32) with (2 ^ (32 - k) * 2 ^ k)
    by (rewrite <- Z.pow_add_r by lia; f_equal; lia).
  rewrite Z.mul_assoc. apply Z_mod_plus_full.
Qed.

(** [v & (2^k - 1)] keeps the [k] low bits of [v]. *)
Lemma JS_and_ones (v k : Z) :
  0 <= k < 32 -> JS.and v (Z.ones k) = v mod 2 ^ k.
Proof.
  intros Hk. unfold JS.and.
  rewrite (to_int32_small (Z.ones k)).
  - rewrite Z.land_ones by lia. apply to_int32_mod. lia.
  - rewrite Z.ones_equiv.
    assert (0 < 2 ^ k) by (apply Z.pow_pos_nonneg; lia).
    assert (2 ^ k <= 2 ^ 31) by (apply Z.pow_le_mono_r; lia).
    lia.
Qed.

(** Below 2^53 a product is exact. *)
Lemma round53_exact (z : Z) : Z.abs z < 2 ^ 53 -> JS.round53 z = z.
Proof.
  intros H. unfold JS.round53, JS.bitlen.
  destruct (Z.abs z =? 0) eqn:E0; [reflexivity |].
  apply Z.eqb_neq in E0.
  assert (Z.log2 (Z.abs z) < 53) by (apply Z.log2_lt_pow2; lia).
  destruct (Z.log2 (Z.abs z) + 1 - 53 <=? 0) eqn:E; [reflexivity |].
  apply Z.leb_gt in E. lia.
Qed.

(** *** Length and offset codes *)

Lemma all_from_spec (P : Z -> bool) (n : nat) (z : Z) :
  all_from P z n = true ->
  forall x, z <= x < z + Z.of_nat n -> P x = true.
Proof.
  revert z. induction n as [| n IH]; intros z H x Hx; [lia |].
  cbn [all_from] in H. apply andb_prop in H as [Hz Hrest].
  destruct (Z.eq_dec x z) as [-> | Hne]; [exact Hz |].
  apply (IH (z + 1) Hrest). lia.
Qed.

(** X5. For an offset of 0 to 32767 [offsetCode] gives one of the
    30 offset codes, and the base and the number of extra bits the
    writer's tables hold for that code bracket the offset. *)
Theorem offsetCode_brackets_offset (off : Z) :
  0 <= off < 32768 ->
  exists c base extra,
    offsetCode off = Some c /\ 0 <= c < OFFSET_CODE_COUNT
    /\ JS.get OFFSET_BASE c = Some base
    /\ JS.get OFFSET_EXTRA_BITS c = Some extra
    /\ base <= off < base + 2 ^ extra.
Proof.
  intros Hoff.
  destruct (Z.lt_ge_cases off 256) as [Hnear | Hfar].
  - (* the first branch of offsetCode: one entry of the table per offset *)
    assert (H : offset_bracket off = true).
    { apply (all_from_spec offset_bracket (Z.to_nat 256) 0);
        [vm_compute; reflexivity | lia]. }
    unfold offset_bracket in H.
    destruct (offsetCode off) as [c |]; [| discriminate].
    destruct (JS.get OFFSET_BASE c) as [base |] eqn:Ebase;
      [| rewrite andb_false_r in H; discriminate].
    destruct (JS.get OFFSET_EXTRA_BITS c) as [extra |] eqn:Eextra;
      [| rewrite andb_false_r in H; discriminate].
    exists c, base, extra.
    unbool. unfold OFFSET_CODE_COUNT in *.
    repeat split; try reflexivity; try assumption; lia.
  - (* the second: one entry per 128 offsets *)
    assert (Hsar : JS.sar off 7 = off / 128).
    { unfold JS.sar. change (Z.land 7 31) with 7.
      rewrite to_int32_small by lia. now rewrite Z.shiftr_div_pow2 by lia. }
    assert (Hq : 2 <= off / 128 < 256).
    { split; [apply Z.div_le_lower_bound; lia | apply Z.div_lt_upper_bound; lia]. }
    assert (H : offset_bracket_far (off / 128) = true).
    { apply (all_from_spec offset_bracket_far (Z.to_nat 254) 2);
        [vm_compute; reflexivity | lia]. }
    unfold offsetCode. change (JS.len OFFSET_CODES) with 256.
    destruct (off <? 256) eqn:E1; [apply Z.ltb_lt in E1; lia |].
    rewrite Hsar.
    destruct (off / 128 <? 256) eqn:E2; [| apply Z.ltb_ge in E2; lia].
    unfold offset_bracket_far in H.
    destruct (JS.get OFFSET_CODES (off / 128)) as [c0 |]; [| discriminate].
    cbv zeta in H.
    destruct (JS.get OFFSET_BASE (c0 + 14)) as [base |] eqn:Ebase;
      [| rewrite andb_false_r in H; discriminate].
    destruct (JS.get OFFSET_EXTRA_BITS (c0 + 14)) as [extra |] eqn:Eextra;
      [| rewrite andb_false_r in H; discriminate].
    exists (c0 + 14), base, extra.
    unbool. unfold OFFSET_CODE_COUNT in *.
    pose proof (Z.mul_div_le off 128 ltac:(lia)) as Hlo.
    pose proof (Z.mul_succ_div_gt off 128 ltac:(lia)) as Hhi.
    repeat split; try reflexivity; try assumption; lia.
Qed.

(** X4. For a length of 0 to 255 (the match length minus 3)
    [lengthCode] gives one of the 29 length codes, and the base and the
    number of extra bits the writer's tables hold for that code bracket
    the length: base <= len < base + 2^extra.  Any other integer gets no
    code (undefined). *)
Theorem lengthCode_brackets_length (len : Z) :
  (0 <= len < 256 ->
   exists c base extra,
     lengthCode len = Some c /\ 0 <= c < 29
     /\ JS.get LENGTH_BASE c = Some base
     /\ JS.get LENGTH_EXTRA_BITS c = Some extra
     /\ base <= len < base + 2 ^ extra)
  /\ (len < 0 \/ 256 <= len -> lengthCode len = None).
Proof.
  split.
  - intros Hlen.
    assert (H : length_bracket len = true).
    { apply (all_from_spec length_bracket (Z.to_nat 256) 0);
        [vm_compute; reflexivity | lia]. }
    unfold length_bracket in H.
    destruct (lengthCode len) as [c |]; [| discriminate].
    destruct (JS.get LENGTH_BASE c) as [base |] eqn:Ebase;
      [| rewrite andb_false_r in H; discriminate].
    destruct (JS.get LENGTH_EXTRA_BITS c) as [extra |] eqn:Eextra;
      [| rewrite andb_false_r in H; discriminate].
    exists c, base, extra.
    unbool. change (JS.len LENGTH_BASE) with 29 in *.
    repeat split; try reflexivity; try assumption; lia.
  - intros Hlen. unfold lengthCode, JS.get.
    destruct (len <? 0) eqn:E; [reflexivity |].
    apply lookup_ge_None_2. change (length LENGTH_CODES) with 256%nat. lia.
Qed.

Lemma offsetCode_brackets_offset_witness :
  exists c base extra,
    offsetCode 1000 = Some c /\ 0 <= c < OFFSET_CODE_COUNT
    /\ JS.get OFFSET_BASE c = Some base
    /\ JS.get OFFSET_EXTRA_BITS c = Some extra
    /\ base <= 1000 < base + 2 ^ extra.
Proof. apply (offsetCode_brackets_offset 1000). lia. Defined.

(** *** Tokens *)

Lemma MATCH_TYPE_value : MATCH_TYPE = 2 ^ 30.
Proof. reflexivity. Qed.

Lemma OFFSET_MASK_value : OFFSET_MASK = Z.ones 22.
Proof. reflexivity. Qed.

(** X1. A token value laid out as the header of token.ts describes
    (type 1 in the two top bits, xlength in the next 8, xoffset in the low
    22) is taken for a match by the writer's test, and [length()] and
    [offset()] give back the two fields. *)
Theorem token_fields_decode (xlength xoffset : Z) :
  0 <= xlength < 256 -> 0 <= xoffset < 2 ^ 22 ->
  let t := mkToken (MATCH_TYPE + xlength * 2 ^ LENGTH_SHIFT + xoffset) in
  Tok.is_match t = true /\ Tok.length t = xlength /\ Tok.offset t = xoffset.
Proof.
  intros Hl Ho t. subst t.
  unfold Tok.is_match, Tok.length, Tok.offset. cbn [value].
  rewrite MATCH_TYPE_value, OFFSET_MASK_value. unfold LENGTH_SHIFT.
  repeat split.
  - apply negb_true_iff, Z.ltb_ge. lia.
  - unfold JS.sar. change (Z.land 22 31) with 22.
    rewrite to_int32_small by lia.
    rewrite Z.shiftr_div_pow2 by lia.
    replace (2 ^ 30 + xlength * 2 ^ 22 + xoffset - 2 ^ 30)
      with (xoffset + xlength * 2 ^ 22) by lia.
    rewrite Z.div_add by lia. rewrite Z.div_small by lia. lia.
  - rewrite JS_and_ones by lia.
    replace (2 ^ 30 + xlength * 2 ^ 22 + xoffset)
      with (xoffset + (256 + xlength) * 2 ^ 22) by lia.
    rewrite Z_mod_plus_full. apply Z.mod_small. lia.
Qed.

(** X2. Conversely the accessors lose nothing: a token whose value
    is a 32-bit number at or above MATCH_TYPE - 2^31 is
    MATCH_TYPE + length() * 2^22 + offset(), with offset() below 2^22. *)
Theorem token_fields_rebuild (t : Token) :
  - 2 ^ 31 + MATCH_TYPE <= value t < 2 ^ 31 ->
  value t = MATCH_TYPE + Tok.length t * 2 ^ LENGTH_SHIFT + Tok.offset t
  /\ 0 <= Tok.offset t < 2 ^ LENGTH_SHIFT.
Proof.
  intros Hv. unfold Tok.length, Tok.offset.
  rewrite MATCH_TYPE_value in *. rewrite OFFSET_MASK_value. unfold LENGTH_SHIFT.
  rewrite JS_and_ones by lia.
  unfold JS.sar. change (Z.land 22 31) with 22.
  rewrite to_int32_small by lia.
  rewrite Z.shiftr_div_pow2 by lia.
  pose proof (Z.div_mod (value t - 2 ^ 30) (2 ^ 22) ltac:(lia)) as Hdm.
  assert (Hm : (value t - 2 ^ 30) mod 2 ^ 22 = value t mod 2 ^ 22).
  { replace (value t - 2 ^ 30) with (value t + (- 256) * 2 ^ 22) by lia.
    apply Z_mod_plus_full. }
  pose proof (Z.mod_pos_bound (value t) (2 ^ 22) ltac:(lia)).
  split; lia.
Qed.

(** The shift count of [<<] is taken modulo 32. *)
Lemma JS_shl_count (a b : Z) : JS.shl a (Z.land b 31) = JS.shl a b.
Proof. unfold JS.shl. now rewrite <- Z.land_assoc, Z.land_diag. Qed.

(** X3. No call of [matchToken] with an xlength of 0 to 255
    gives a token that the writer takes for a match and whose [length()]
    and [offset()] are the two arguments, whatever the offset. *)
Theorem matchToken_never_reads_back (xlength xoffset : Z) :
  0 <= xlength < 256 ->
  let t := matchToken xlength xoffset in
  ~ (Tok.is_match t = true /\ Tok.length t = xlength /\ Tok.offset t = xoffset).
Proof.
  intros Hl t (Hm & Hlen & Hoff). subst t.
  set (sh := Z.land (LENGTH_SHIFT + xoffset) 31).
  assert (Hsh : 0 <= sh < 32).
  { subst sh. change 31 with (Z.ones 5). rewrite Z.land_ones by lia.
    apply Z.mod_pos_bound. lia. }
  assert (Hno : reads_back xlength sh = false).
  { assert (Hall : all_from (fun xl => all_from (fun s => negb (reads_back xl s)) 0 32)
                     0 256 = true) by (vm_compute; reflexivity).
    pose proof (all_from_spec _ _ _ Hall xlength ltac:(lia)) as Hrow.
    cbv beta in Hrow.
    pose proof (all_from_spec _ _ _ Hrow sh ltac:(lia)) as Hcell.
    now apply negb_true_iff in Hcell. }
  unfold reads_back in Hno. unfold matchToken in *.
  subst sh. rewrite JS_shl_count in Hno.
  rewrite Hm, Hlen, Hoff in Hno.
  rewrite !Z.eqb_refl in Hno. discriminate.
Qed.

(** X6. From 32768 on (and below 2^22, the width of the offset
    field) [offsetCode] gives a code of 30 or more, which the 30-entry
    tables of the writer do not have. *)
Theorem offsetCode_beyond_window (off : Z) :
  32768 <= off < 2 ^ 22 ->
  exists c, offsetCode off = Some c /\ OFFSET_CODE_COUNT <= c.
Proof.
  intros Hoff. unfold offsetCode.
  change (JS.len OFFSET_CODES) with 256.
  destruct (off <? 256) eqn:E1; [apply Z.ltb_lt in E1; lia |].
  assert (Hsar : forall k, 0 <= k < 32 -> JS.sar off k = off / 2 ^ k).
  { intros k Hk. unfold JS.sar.
    replace (Z.land k 31) with k.
    - rewrite to_int32_small by lia. apply Z.shiftr_div_pow2. lia.
    - change 31 with (Z.ones 5). rewrite Z.land_ones by lia.
      symmetry. apply Z.mod_small. lia. }
  rewrite !Hsar by lia.
  assert (256 <= off / 2 ^ 7).
  { apply Z.div_le_lower_bound; lia. }
  destruct (off / 2 ^ 7 <? 256) eqn:E2; [apply Z.ltb_lt in E2; lia |].
  assert (2 <= off / 2 ^ 14 < 256).
  { split; [apply Z.div_le_lower_bound; lia | apply Z.div_lt_upper_bound; lia]. }
  assert (Hall : all_from (fun k => match JS.get OFFSET_CODES k with
                                    | Some c => 2 <=? c
                                    | None => false
                                    end) 2 254 = true) by (vm_compute; reflexivity).
  pose proof (all_from_spec _ _ _ Hall (off / 2 ^ 14) ltac:(lia)) as Hk.
  cbv beta in Hk.
  destruct (JS.get OFFSET_CODES (off / 2 ^ 14)) as [c |]; [| discriminate].
  apply Z.leb_le in Hk. exists (c + 28). split; [reflexivity |].
  unfold OFFSET_CODE_COUNT. lia.
Qed.

Lemma token_fields_decode_witness :
  let t := mkToken (MATCH_TYPE + 5 * 2 ^ LENGTH_SHIFT + 100) in
  Tok.is_match t = true /\ Tok.length t = 5 /\ Tok.offset t = 100.
Proof. apply (token_fields_decode 5 100); lia. Defined.

Lemma token_fields_rebuild_witness :
  value (mkToken 1094713444)
  = MATCH_TYPE + Tok.length (mkToken 1094713444) * 2 ^ LENGTH_SHIFT
    + Tok.offset (mkToken 1094713444)
  /\ 0 <= Tok.offset (mkToken 1094713444) < 2 ^ LENGTH_SHIFT.
Proof. apply (token_fields_rebuild (mkToken 1094713444)). vm_compute. split; [discriminate | reflexivity]. Defined.

Lemma matchToken_never_reads_back_witness :
  let t := matchToken 1 0 in
  ~ (Tok.is_match t = true /\ Tok.length t = 1 /\ Tok.offset t = 0).
Proof. apply (matchToken_never_reads_back 1 0). lia. Defined.

Lemma offsetCode_beyond_window_witness :
  exists c, offsetCode 40000 = Some c /\ OFFSET_CODE_COUNT <= c.
Proof. apply (offsetCode_beyond_window 40000). lia. Defined.

(** *** load32 and load64 *)

Lemma TABLE_MASK_value : TABLE_MASK = Z.ones 14.
Proof. reflexivity. Qed.

(** Whatever number is hashed, the slot looked up exists in a table of
    TABLE_SIZE entries. *)
Lemma table_slot_in_table (h : Z) : 0 <= JS.and h TABLE_MASK < TABLE_SIZE.
Proof.
  rewrite TABLE_MASK_value, JS_and_ones by lia.
  change TABLE_SIZE with (2 ^ 14). apply Z.mod_pos_bound. lia.
Qed.

(** Bits that do not overlap add up. *)
Lemma lor_disjoint_add (a b k : Z) :
  0 <= k -> 0 <= a < 2 ^ k -> Z.lor a (b * 2 ^ k) = a + b * 2 ^ k.
Proof.
  intros Hk Ha.
  assert (Hland : Z.land a (b * 2 ^ k) = 0).
  { apply Z.bits_inj'. intros n Hn. rewrite Z.land_spec, Z.bits_0.
    destruct (Z.lt_ge_cases n k) as [Hlt | Hge].
    - rewrite <- Z.shiftl_mul_pow2 by lia.
      rewrite Z.shiftl_spec_low by lia. apply andb_false_r.
    - destruct (Z.eq_dec a 0) as [-> | Hne]; [now rewrite Z.bits_0 |].
      rewrite (Z.bits_above_log2 a n); [reflexivity | lia |].
      apply Z.lt_le_trans with k; [| lia].
      apply Z.log2_lt_pow2; lia. }
  rewrite <- Z.lxor_lor by exact Hland.
  symmetry. apply Z.add_nocarry_lxor. exact Hland.
Qed.

Lemma JS_mul_exact (a b : Z) : Z.abs (a * b) < 2 ^ 53 -> JS.mul a b = a * b.
Proof. apply round53_exact. Qed.

(** The four bytes as [load32] puts them together. *)
Lemma load32_sum (b0 b1 b2 b3 : Z) :
  0 <= b0 < 256 -> 0 <= b1 < 256 -> 0 <= b2 < 256 -> 0 <= b3 < 256 ->
  JS.or (JS.or (JS.or b0 (JS.mul b1 (2 ^ 8))) (JS.mul b2 (2 ^ 16)))
        (JS.mul b3 (2 ^ 24))
  = JS.to_int32 (b0 + b1 * 2 ^ 8 + b2 * 2 ^ 16 + b3 * 2 ^ 24).
Proof.
  intros H0 H1 H2 H3.
  rewrite !JS_mul_exact by (rewrite Z.abs_eq; lia).
  unfold JS.or.
  rewrite (to_int32_small b0), (to_int32_small (b1 * 2 ^ 8)) by lia.
  rewrite (lor_disjoint_add b0 b1 8) by lia.
  rewrite (to_int32_small (b0 + b1 * 2 ^ 8)), (to_int32_small (b2 * 2 ^ 16)) by lia.
  rewrite (lor_disjoint_add _ b2 16) by lia.
  rewrite (to_int32_small (b0 + b1 * 2 ^ 8 + b2 * 2 ^ 16)) by lia.
  destruct (Z.lt_ge_cases b3 128) as [Hlo | Hhi].
  - rewrite (to_int32_small (b3 * 2 ^ 24)) by lia.
    rewrite (lor_disjoint_add _ b3 24) by lia.
    symmetry. apply to_int32_small. lia.
  - replace (JS.to_int32 (b3 * 2 ^ 24)) with ((b3 - 256) * 2 ^ 24).
    + rewrite (lor_disjoint_add _ (b3 - 256) 24) by lia.
      unfold JS.to_int32.
      replace (b0 + b1 * 2 ^ 8 + b2 * 2 ^ 16 + b3 * 2 ^ 24 + 2 ^ 31)
        with (b0 + b1 * 2 ^ 8 + b2 * 2 ^ 16 + (b3 - 128) * 2 ^ 24 + 1 * 2 ^ 32) by lia.
      rewrite Z_mod_plus_full. rewrite Z.mod_small by lia. lia.
    + unfold JS.to_int32.
      replace (b3 * 2 ^ 24 + 2 ^ 31) with ((b3 - 128) * 2 ^ 24 + 1 * 2 ^ 32) by lia.
      rewrite Z_mod_plus_full. rewrite Z.mod_small by lia. lia.
Qed.

(** A byte read from an array of bytes, or 0 for a missing one. *)
Lemma byte_or_zero (b : list Z) (k : Z) :
  (forall x, x ∈ b -> 0 <= x < 256) -> 0 <= default 0 (JS.get b k) < 256.
Proof.
  intros Hb. unfold JS.get.
  destruct (k <? 0); [cbn; lia |].
  destruct (b !! Z.to_nat k) as [x |] eqn:E; [| cbn; lia].
  cbn. apply Hb. eapply list_elem_of_lookup_2. exact E.
Qed.

(** X7. [load32] reads four bytes, the first the least
    significant, as a signed 32-bit number; a byte past the end of the
    array counts as 0. *)
Theorem load32_little_endian (b : list Z) (i : Z) :
  (forall x, x ∈ b -> 0 <= x < 256) ->
  let byte k := default 0 (JS.get b k) in
  load32 b i = JS.to_int32 (byte i + byte (i + 1) * 2 ^ 8
                            + byte (i + 2) * 2 ^ 16 + byte (i + 3) * 2 ^ 24).
Proof.
  intros Hb byte. subst byte. unfold load32. cbv beta zeta.
  apply load32_sum; now apply byte_or_zero.
Qed.

(** Eight bytes put together with [|] and [<<] on BigInts add up. *)
Lemma load64_sum (b0 b1 b2 b3 b4 b5 b6 b7 : Z) :
  0 <= b0 < 256 -> 0 <= b1 < 256 -> 0 <= b2 < 256 -> 0 <= b3 < 256 ->
  0 <= b4 < 256 -> 0 <= b5 < 256 -> 0 <= b6 < 256 -> 0 <= b7 < 256 ->
  Z.lor (Z.lor (Z.lor (Z.lor (Z.lor (Z.lor (Z.lor b0
    (Z.shiftl b1 8)) (Z.shiftl b2 16)) (Z.shiftl b3 24))
    (Z.shiftl b4 32)) (Z.shiftl b5 40)) (Z.shiftl b6 48)) (Z.shiftl b7 56)
  = b0 + b1 * 2 ^ 8 + b2 * 2 ^ 16 + b3 * 2 ^ 24
    + b4 * 2 ^ 32 + b5 * 2 ^ 40 + b6 * 2 ^ 48 + b7 * 2 ^ 56.
Proof.
  intros H0 H1 H2 H3 H4 H5 H6 H7.
  rewrite !Z.shiftl_mul_pow2 by lia.
  rewrite (lor_disjoint_add b0 b1 8) by lia.
  rewrite (lor_disjoint_add _ b2 16) by lia.
  rewrite (lor_disjoint_add _ b3 24) by lia.
  rewrite (lor_disjoint_add _ b4 32) by lia.
  rewrite (lor_disjoint_add _ b5 40) by lia.
  rewrite (lor_disjoint_add _ b6 48) by lia.
  rewrite (lor_disjoint_add _ b7 56) by lia.
  reflexivity.
Qed.

Lemma to_int32_low (lo hi : Z) : JS.to_int32 (lo + hi * 2 ^ 32) = JS.to_int32 lo.
Proof.
  unfold JS.to_int32.
  replace (lo + hi * 2 ^ 32 + 2 ^ 31) with (lo + 2 ^ 31 + hi * 2 ^ 32) by lia.
  now rewrite Z_mod_plus_full.
Qed.

Lemma JS_get_none_inv {A} (a : list A) (j : Z) :
  JS.get a j = None -> j < 0 \/ JS.len a <= j.
Proof.
  unfold JS.get, JS.len. destruct (j <? 0) eqn:E; [apply Z.ltb_lt in E; lia |].
  intros H. apply lookup_ge_None in H. lia.
Qed.

Lemma JS_get_in_range {A} (a : list A) (j : Z) (x : A) :
  JS.get a j = Some x -> 0 <= j < JS.len a /\ x ∈ a.
Proof.
  unfold JS.get, JS.len. destruct (j <? 0) eqn:E; [discriminate |].
  apply Z.ltb_ge in E. intros H. split.
  - apply lookup_lt_Some in H. lia.
  - eapply list_elem_of_lookup_2. exact H.
Qed.

(** X21. [load64] throws a TypeError when one of the eight bytes
    is missing.  Otherwise it gives the eight bytes as one unsigned
    number, the first the least significant, and the low 32 bits of that
    number are what [load32] reads at the same place. *)
Theorem load64_little_endian (b : list Z) (i : Z) :
  (forall x, x ∈ b -> 0 <= x < 256) ->
  let byte k := default 0 (JS.get b (i + k)) in
  match load64 b i with
  | Ok x =>
      0 <= i /\ i + 7 < JS.len b
      /\ x = byte 0 + byte 1 * 2 ^ 8 + byte 2 * 2 ^ 16 + byte 3 * 2 ^ 24
             + byte 4 * 2 ^ 32 + byte 5 * 2 ^ 40 + byte 6 * 2 ^ 48
             + byte 7 * 2 ^ 56
      /\ JS.to_int32 x = load32 b i
  | Stop s => s = Throw TypeError /\ (i < 0 \/ JS.len b <= i + 7)
  end.
Proof.
  intros Hb byte. subst byte. cbv beta.
  unfold load64, load32. cbv beta zeta. rewrite !Z.add_0_r.
  destruct (JS.get b i) as [b0 |] eqn:E0; cbn [res_bind];
    [| apply JS_get_none_inv in E0; split; [reflexivity | lia]].
  destruct (JS.get b (i + 1)) as [b1 |] eqn:E1; cbn [res_bind];
    [| apply JS_get_none_inv in E1; split; [reflexivity | lia]].
  destruct (JS.get b (i + 2)) as [b2 |] eqn:E2; cbn [res_bind];
    [| apply JS_get_none_inv in E2; split; [reflexivity | lia]].
  destruct (JS.get b (i + 3)) as [b3 |] eqn:E3; cbn [res_bind];
    [| apply JS_get_none_inv in E3; split; [reflexivity | lia]].
  destruct (JS.get b (i + 4)) as [b4 |] eqn:E4; cbn [res_bind];
    [| apply JS_get_none_inv in E4; split; [reflexivity | lia]].
  destruct (JS.get b (i + 5)) as [b5 |] eqn:E5; cbn [res_bind];
    [| apply JS_get_none_inv in E5; split; [reflexivity | lia]].
  destruct (JS.get b (i + 6)) as [b6 |] eqn:E6; cbn [res_bind];
    [| apply JS_get_none_inv in E6; split; [reflexivity | lia]].
  destruct (JS.get b (i + 7)) as [b7 |] eqn:E7; cbn [res_bind];
    [| apply JS_get_none_inv in E7; split; [reflexivity | lia]].
  apply JS_get_in_range in E0 as [R0 M0]. apply JS_get_in_range in E1 as [_ M1].
  apply JS_get_in_range in E2 as [_ M2]. apply JS_get_in_range in E3 as [_ M3].
  apply JS_get_in_range in E4 as [_ M4]. apply JS_get_in_range in E5 as [_ M5].
  apply JS_get_in_range in E6 as [_ M6]. apply JS_get_in_range in E7 as [R7 M7].
  apply Hb in M0, M1, M2, M3, M4, M5, M6, M7.
  cbn [default from_option id].
  rewrite load64_sum by assumption. rewrite load32_sum by assumption.
  split; [lia |]. split; [lia |]. split; [reflexivity |].
  replace (b0 + b1 * 2 ^ 8 + b2 * 2 ^ 16 + b3 * 2 ^ 24 + b4 * 2 ^ 32
           + b5 * 2 ^ 40 + b6 * 2 ^ 48 + b7 * 2 ^ 56)
    with (b0 + b1 * 2 ^ 8 + b2 * 2 ^ 16 + b3 * 2 ^ 24
          + (b4 + b5 * 2 ^ 8 + b6 * 2 ^ 16 + b7 * 2 ^ 24) * 2 ^ 32) by lia.
  apply to_int32_low.
Qed.

Lemma load32_little_endian_witness :
  let byte k := default 0 (JS.get [1; 2; 3; 200] k) in
  load32 [1; 2; 3; 200] 0
  = JS.to_int32 (byte 0 + byte (0 + 1) * 2 ^ 8
                 + byte (0 + 2) * 2 ^ 16 + byte (0 + 3) * 2 ^ 24).
Proof.
  apply (load32_little_endian [1; 2; 3; 200] 0).
  apply Forall_forall. repeat constructor; lia.
Defined.

Lemma load64_little_endian_witness :
  let byte k := default 0 (JS.get [1; 2; 3; 200; 5; 6; 7; 8] (0 + k)) in
  match load64 [1; 2; 3; 200; 5; 6; 7; 8] 0 with
  | Ok x =>
      0 <= 0 /\ 0 + 7 < JS.len [1; 2; 3; 200; 5; 6; 7; 8]
      /\ x = byte 0 + byte 1 * 2 ^ 8 + byte 2 * 2 ^ 16 + byte 3 * 2 ^ 24
             + byte 4 * 2 ^ 32 + byte 5 * 2 ^ 40 + byte 6 * 2 ^ 48
             + byte 7 * 2 ^ 56
      /\ JS.to_int32 x = load32 [1; 2; 3; 200; 5; 6; 7; 8] 0
  | Stop s => s = Throw TypeError
              /\ (0 < 0 \/ JS.len [1; 2; 3; 200; 5; 6; 7; 8] <= 0 + 7)
  end.
Proof.
  apply (load64_little_endian [1; 2; 3; 200; 5; 6; 7; 8] 0).
  apply Forall_forall. repeat constructor; lia.
Defined.

(** *** Slices *)

Lemma JS_get_none_neg {A} (a : list A) (i : Z) : i < 0 -> JS.get a i = None.
Proof. intros H. unfold JS.get. destruct (i <? 0) eqn:E; [reflexivity |]. apply Z.ltb_ge in E. lia. Qed.

Lemma JS_get_none_past {A} (a : list A) (i : Z) : JS.len a <= i -> JS.get a i = None.
Proof.
  intros H. unfold JS.get, JS.len in *.
  destruct (i <? 0); [reflexivity |]. apply lookup_ge_None_2. lia.
Qed.

Lemma JS_get_some_lt {A} (a : list A) (i : Z) (x : A) :
  JS.get a i = Some x -> 0 <= i < JS.len a.
Proof.
  unfold JS.get, JS.len. destruct (i <? 0) eqn:E; [discriminate |].
  apply Z.ltb_ge in E. intros H. apply lookup_lt_Some in H. lia.
Qed.

Lemma JS_len_slice {A} (lo hi : Z) (a : list A) :
  0 <= lo -> 0 <= hi ->
  JS.len (JS.slice lo hi a) = Z.max 0 (Z.min hi (JS.len a) - Z.min lo (JS.len a)).
Proof.
  intros Hlo Hhi. unfold JS.len, JS.slice, JS.rel.
  destruct (lo <? 0) eqn:E1; [apply Z.ltb_lt in E1; lia |].
  destruct (hi <? 0) eqn:E2; [apply Z.ltb_lt in E2; lia |].
  rewrite length_take, length_drop. lia.
Qed.

Lemma JS_get_slice {A} (lo hi : Z) (a : list A) (k : Z) :
  0 <= lo -> 0 <= hi ->
  JS.get (JS.slice lo hi a) k
  = if (0 <=? k) && (lo + k <? hi) then JS.get a (lo + k) else None.
Proof.
  intros Hlo Hhi.
  destruct (0 <=? k) eqn:Ek; cbn [andb].
  2:{ apply Z.leb_gt in Ek. now apply JS_get_none_neg. }
  apply Z.leb_le in Ek.
  destruct (lo + k <? hi) eqn:Eh.
  - apply Z.ltb_lt in Eh. unfold JS.get, JS.slice, JS.rel.
    destruct (lo <? 0) eqn:E1; [apply Z.ltb_lt in E1; lia |].
    destruct (hi <? 0) eqn:E2; [apply Z.ltb_lt in E2; lia |].
    destruct (k <? 0) eqn:E3; [apply Z.ltb_lt in E3; lia |].
    destruct (lo + k <? 0) eqn:E4; [apply Z.ltb_lt in E4; lia |].
    destruct (Z.lt_ge_cases (lo + k) (Z.of_nat (length a))) as [Hin | Hout].
    + rewrite lookup_take_lt by lia. rewrite lookup_drop. f_equal. lia.
    + rewrite (lookup_ge_None_2 a) by lia.
      apply lookup_ge_None_2. rewrite length_take, length_drop. lia.
  - apply Z.ltb_ge in Eh. apply JS_get_none_past.
    rewrite JS_len_slice by lia. lia.
Qed.

Lemma JS_get_slice_from {A} (lo : Z) (a : list A) (k : Z) :
  0 <= lo -> 0 <= k -> JS.get (JS.slice_from lo a) k = JS.get a (lo + k).
Proof.
  intros Hlo Hk. unfold JS.slice_from. rewrite JS_get_slice by lia.
  destruct (0 <=? k) eqn:E1; [| apply Z.leb_gt in E1; lia].
  cbn [andb]. destruct (lo + k <? Z.of_nat (length a)) eqn:E2; [reflexivity |].
  apply Z.ltb_ge in E2. symmetry. apply JS_get_none_past. unfold JS.len. lia.
Qed.

Lemma JS_len_slice_from {A} (lo : Z) (a : list A) :
  0 <= lo -> JS.len (JS.slice_from lo a) = Z.max 0 (JS.len a - lo).
Proof.
  intros Hlo. unfold JS.slice_from. rewrite JS_len_slice by lia.
  unfold JS.len. lia.
Qed.

Lemma JS_len_nonneg {A} (a : list A) : 0 <= JS.len a.
Proof. unfold JS.len. lia. Qed.

Lemma JS_get_app_l {A} (a b : list A) (i : Z) :
  i < JS.len a -> JS.get (a ++ b) i = JS.get a i.
Proof.
  intros H. unfold JS.get, JS.len in *. destruct (i <? 0) eqn:E; [reflexivity |].
  apply Z.ltb_ge in E. apply lookup_app_l. lia.
Qed.

Lemma JS_get_app_r {A} (a b : list A) (i : Z) :
  0 <= i -> JS.get (a ++ b) (JS.len a + i) = JS.get b i.
Proof.
  intros H. unfold JS.get, JS.len.
  destruct (Z.of_nat (length a) + i <? 0) eqn:E1; [apply Z.ltb_lt in E1; lia |].
  destruct (i <? 0) eqn:E2; [apply Z.ltb_lt in E2; lia |].
  rewrite lookup_app_r by lia. f_equal. lia.
Qed.

(** *** The comparison loop *)

Lemma first_diff_some (n : nat) (i : Z) (a b : list Z) (j : Z) :
  first_diff n i a b = Some j ->
  i <= j < i + Z.of_nat n
  /\ (forall k, i <= k < j -> JS.get a k = JS.get b k)
  /\ JS.get a j <> JS.get b j.
Proof.
  revert i. induction n as [| n IH]; intros i H; [discriminate |].
  cbn [first_diff] in H.
  destruct (bool_decide (JS.get a i = JS.get b i)) eqn:E.
  - apply bool_decide_eq_true in E.
    destruct (IH _ H) as (Hj & Hsame & Hdiff).
    split; [lia |]. split; [| exact Hdiff].
    intros k Hk. destruct (Z.eq_dec k i) as [-> | Hne]; [exact E |].
    apply Hsame. lia.
  - apply bool_decide_eq_false in E. injection H as <-.
    split; [lia |]. split; [intros k Hk; lia | exact E].
Qed.

Lemma first_diff_none (n : nat) (i : Z) (a b : list Z) :
  first_diff n i a b = None ->
  forall k, i <= k < i + Z.of_nat n -> JS.get a k = JS.get b k.
Proof.
  revert i. induction n as [| n IH]; intros i H k Hk; [lia |].
  cbn [first_diff] in H.
  destruct (bool_decide (JS.get a i = JS.get b i)) eqn:E; [| discriminate].
  apply bool_decide_eq_true in E.
  destruct (Z.eq_dec k i) as [-> | Hne]; [exact E |].
  apply (IH _ H). lia.
Qed.

(** *** matchLen *)

Lemma len_of_length {A} (a : list A) : Z.of_nat (length a) = JS.len a.
Proof. reflexivity. Qed.

(** X8. [matchLen] gives the length of the longest common run of
    [src] from [s] and of the text behind it from [t] (a negative [t]
    starts in [prev], which [src] follows), capped at
    MAX_MATCH_LENGTH - 4 and at the end of [src]: the bytes agree up to
    that length and, below the cap, differ right after. *)
Theorem matchLen_longest_match (prev src : list Z) (s t : Z) :
  0 <= s <= JS.len src -> - JS.len prev <= t ->
  let l := DeflateFast.matchLen prev s t src in
  let limit := Z.min (DeflateFast.MAX_MATCH_LENGTH - 4) (JS.len src - s) in
  let back k := JS.get (prev ++ src) (JS.len prev + t + k) in
  0 <= l <= limit
  /\ (forall k, 0 <= k < l -> JS.get src (s + k) = back k)
  /\ (l < limit -> JS.get src (s + l) <> back l).
Proof.
  intros Hs Ht l limit back.
  pose proof (JS_len_nonneg prev) as Hprev.
  unfold DeflateFast.MAX_MATCH_LENGTH in *.
  set (s1 := if s + 258 - 4 >? JS.len src then JS.len src else s + 258 - 4).
  assert (Hs1 : s1 = s + limit).
  { subst s1 limit. destruct (s + 258 - 4 >? JS.len src) eqn:E; unbool; lia. }
  assert (Hlimit : 0 <= limit) by (subst limit; lia).
  set (a0 := JS.slice s s1 src).
  assert (Hlen_a0 : JS.len a0 = limit).
  { subst a0. rewrite JS_len_slice by lia. lia. }
  assert (Hget_a0 : forall k, 0 <= k < limit -> JS.get a0 k = JS.get src (s + k)).
  { intros k Hk. subst a0. rewrite JS_get_slice by lia.
    destruct (0 <=? k) eqn:E1; [| unbool; lia].
    destruct (s + k <? s1) eqn:E2; [reflexivity | unbool; lia]. }
  subst l. unfold DeflateFast.matchLen. unfold DeflateFast.MAX_MATCH_LENGTH.
  fold s1. fold a0.
  destruct (t >=? 0) eqn:Et; unbool.
  - (* inside the current block *)
    assert (Hback : forall k, 0 <= k -> back k = JS.get src (t + k)).
    { intros k Hk. subst back. cbv beta.
      replace (JS.len prev + t + k) with (JS.len prev + (t + k)) by lia.
      apply JS_get_app_r. lia. }
    set (b := JS.slice 0 (JS.len a0) (JS.slice_from t src)).
    assert (Hget_b : forall k, 0 <= k < limit -> JS.get b k = JS.get src (t + k)).
    { intros k Hk. subst b. rewrite JS_get_slice by lia.
      destruct (0 <=? k) eqn:E1; [| unbool; lia].
      destruct (0 + k <? JS.len a0) eqn:E2; [| unbool; lia].
      cbn [andb]. rewrite Z.add_0_l. apply JS_get_slice_from; lia. }
    destruct (first_diff (length a0) 0 a0 b) as [j |] eqn:Ed.
    + apply first_diff_some in Ed as (Hj & Hsame & Hdiff).
      rewrite len_of_length, Hlen_a0 in Hj.
      split; [lia |]. split.
      * intros k Hk. rewrite Hback by lia.
        rewrite <- Hget_a0, <- Hget_b by lia. apply Hsame. lia.
      * intros _. rewrite Hback by lia.
        rewrite <- Hget_a0, <- Hget_b by lia. exact Hdiff.
    + pose proof (first_diff_none _ _ _ _ Ed) as Hsame.
      rewrite len_of_length, Hlen_a0 in Hsame. rewrite Hlen_a0.
      split; [lia |]. split; [| lia].
      intros k Hk. rewrite Hback by lia.
      rewrite <- Hget_a0, <- Hget_b by lia. apply Hsame. lia.
  - (* a match that starts in the previous block *)
    destruct (JS.len prev + t <? 0) eqn:Etp; unbool; [lia |].
    set (tp := JS.len prev + t) in *.
    set (b0 := JS.slice_from tp prev).
    assert (Hlen_b0 : JS.len b0 = - t).
    { subst b0. rewrite JS_len_slice_from by lia. lia. }
    set (b := if JS.len b0 >? JS.len a0 then JS.slice 0 (JS.len a0) b0 else b0).
    set (n := Z.min (- t) limit).
    assert (Hlen_b : JS.len b = n).
    { subst b n. rewrite Hlen_b0, Hlen_a0.
      destruct (- t >? limit) eqn:E; unbool.
      - rewrite JS_len_slice by lia. lia.
      - lia. }
    assert (Hget_b : forall k, 0 <= k < n -> JS.get b k = back k).
    { intros k Hk. subst back. cbv beta.
      replace (JS.len prev + t + k) with (tp + k) by lia.
      rewrite JS_get_app_l by lia.
      subst b. rewrite Hlen_b0, Hlen_a0.
      destruct (- t >? limit) eqn:E; unbool.
      - rewrite JS_get_slice by lia.
        destruct (0 <=? k) eqn:E1; [| unbool; lia].
        destruct (0 + k <? limit) eqn:E2; [| unbool; lia].
        cbn [andb]. rewrite Z.add_0_l. subst b0. apply JS_get_slice_from; lia.
      - subst b0. apply JS_get_slice_from; lia. }
    set (a := JS.slice 0 (JS.len b) a0).
    assert (Hget_a : forall k, 0 <= k < n -> JS.get a k = JS.get src (s + k)).
    { intros k Hk. subst a. rewrite JS_get_slice by lia.
      destruct (0 <=? k) eqn:E1; [| unbool; lia].
      destruct (0 + k <? JS.len b) eqn:E2; [| unbool; lia].
      cbn [andb]. rewrite Z.add_0_l. apply Hget_a0. lia. }
    assert (Hn : 0 <= n <= limit) by lia.
    destruct (first_diff (length b) 0 a b) as [j |] eqn:Ed.
    + apply first_diff_some in Ed as (Hj & Hsame & Hdiff).
      rewrite len_of_length, Hlen_b in Hj.
      split; [lia |]. split.
      * intros k Hk. rewrite <- Hget_a, <- Hget_b by lia. apply Hsame. lia.
      * intros _. rewrite <- Hget_a, <- Hget_b by lia. exact Hdiff.
    + pose proof (first_diff_none _ _ _ _ Ed) as Hsame.
      rewrite len_of_length, Hlen_b in Hsame. rewrite Hlen_b.
      assert (Hfirst : forall k, 0 <= k < n -> JS.get src (s + k) = back k).
      { intros k Hk. rewrite <- Hget_a, <- Hget_b by lia. apply Hsame. lia. }
      destruct (s + n =? s1) eqn:Eend; unbool.
      * split; [lia |]. split; [exact Hfirst | lia].
      * (* continue in the current block *)
        assert (Hnt : n = - t) by lia.
        set (a' := JS.slice (s + n) s1 src).
        assert (Hlen_a' : JS.len a' = limit - n).
        { subst a'. rewrite JS_len_slice by lia. lia. }
        set (b' := JS.slice 0 (JS.len a') src).
        assert (Hget_a' : forall k, 0 <= k < limit - n ->
                                    JS.get a' k = JS.get src (s + (n + k))).
        { intros k Hk. subst a'. rewrite JS_get_slice by lia.
          destruct (0 <=? k) eqn:E1; [| unbool; lia].
          destruct (s + n + k <? s1) eqn:E2; [| unbool; lia].
          cbn [andb]. f_equal. lia. }
        assert (Hget_b' : forall k, 0 <= k < limit - n ->
                                    JS.get b' k = back (n + k)).
        { intros k Hk. subst b' back tp. cbv beta.
          replace (JS.len prev + t + (n + k)) with (JS.len prev + k) by lia.
          rewrite JS_get_app_r by lia.
          rewrite JS_get_slice by lia.
          destruct (0 <=? k) eqn:E1; [| unbool; lia].
          destruct (0 + k <? JS.len a') eqn:E2; [| unbool; lia].
          cbn [andb]. f_equal. }
        destruct (first_diff (length a') 0 a' b') as [j |] eqn:Ed'.
        -- apply first_diff_some in Ed' as (Hj & Hsame' & Hdiff).
           rewrite len_of_length, Hlen_a' in Hj.
           split; [lia |]. split.
           ++ intros k Hk. destruct (Z.lt_ge_cases k n) as [Hlt | Hge].
              ** apply Hfirst. lia.
              ** replace k with (n + (k - n)) by lia.
                 rewrite <- Hget_a', <- Hget_b' by lia. apply Hsame'. lia.
           ++ intros _. replace (j + n) with (n + j) by lia.
              rewrite <- Hget_a', <- Hget_b' by lia. exact Hdiff.
        -- pose proof (first_diff_none _ _ _ _ Ed') as Hsame'.
           rewrite len_of_length, Hlen_a' in Hsame'. rewrite Hlen_a'.
           split; [lia |]. split; [| lia].
           intros k Hk. destruct (Z.lt_ge_cases k n) as [Hlt | Hge].
           ++ apply Hfirst. lia.
           ++ replace k with (n + (k - n)) by lia.
              rewrite <- Hget_a', <- Hget_b' by lia. apply Hsame'. lia.
Qed.

Lemma matchLen_longest_match_witness :
  let l := DeflateFast.matchLen [7; 8; 9] 3 (-2) [8; 9; 1; 8; 9; 8; 9; 5] in
  let limit := Z.min (DeflateFast.MAX_MATCH_LENGTH - 4)
                 (JS.len [8; 9; 1; 8; 9; 8; 9; 5] - 3) in
  let back k := JS.get ([7; 8; 9] ++ [8; 9; 1; 8; 9; 8; 9; 5])
                  (JS.len [7; 8; 9] + -2 + k) in
  0 <= l <= limit
  /\ (forall k, 0 <= k < l -> JS.get [8; 9; 1; 8; 9; 8; 9; 5] (3 + k) = back k)
  /\ (l < limit -> JS.get [8; 9; 1; 8; 9; 8; 9; 5] (3 + l) <> back l).
Proof.
  apply (matchLen_longest_match [7; 8; 9] [8; 9; 1; 8; 9; 8; 9; 5] 3 (-2));
    vm_compute; repeat split; discriminate.
Defined.

(** *** The match finder: shiftOffsets, reset and encode *)

Section MatchFinder.
Import DeflateFast.

Lemma MAX_MATCH_OFFSET_value : MAX_MATCH_OFFSET = 32768.
Proof. reflexivity. Qed.

Lemma BUFFER_RESET_value : BUFFER_RESET = 2147352577.
Proof. reflexivity. Qed.

Lemma table_ok_weaken (b b' : Z) tbl : b <= b' -> table_ok b tbl -> table_ok b' tbl.
Proof.
  intros Hb [Hlen Hall]. split; [exact Hlen |].
  intros o Ho. destruct (Hall o Ho) as (x & -> & Hx). exists x. split; [reflexivity | lia].
Qed.

Lemma new_encoder_ok : encoder_ok DeflateFast.new.
Proof.
  split.
  - split; [apply length_replicate |].
    intros o Ho. apply elem_of_replicate in Ho as [-> _].
    eexists. split; [reflexivity |]. cbn. unfold MAX_STORE_BLOCK_SIZE. lia.
  - cbn. rewrite BUFFER_RESET_value. unfold MAX_STORE_BLOCK_SIZE. lia.
Qed.

(** The second loop of [shiftOffsets] on a table without holes. *)
Lemma shift_entries_ok (cur bound : Z) (tbl : list (option TableEntry.t)) :
  (forall o, o ∈ tbl -> exists x, o = Some x /\ 0 <= TableEntry.offset x < bound) ->
  bound <= cur ->
  exists tbl',
    shift_entries cur tbl = (Ok tt, tbl')
    /\ length tbl' = length tbl
    /\ forall i x, tbl !! i = Some (Some x) ->
         exists x', tbl' !! i = Some (Some x')
           /\ TableEntry.val x' = TableEntry.val x
           /\ 0 <= TableEntry.offset x' < MAX_MATCH_OFFSET + 1
           /\ distance (MAX_MATCH_OFFSET + 1) x'
              = Z.min (distance cur x) (MAX_MATCH_OFFSET + 1).
Proof.
  intros Hall Hb. induction tbl as [| o tbl IH].
  - exists []. repeat split. intros i x Hi. discriminate.
  - destruct (Hall o ltac:(left)) as (x & -> & Hx).
    destruct IH as (tbl' & E & Hlen & Hent).
    { intros o Ho. apply Hall. now right. }
    cbn [shift_entries]. rewrite E.
    eexists. split; [reflexivity |]. split; [cbn; lia |].
    intros [| i] y Hi.
    + injection Hi as <-. eexists. split; [reflexivity |].
      cbn [TableEntry.val TableEntry.offset]. unfold distance.
      cbn [TableEntry.offset]. rewrite MAX_MATCH_OFFSET_value.
      destruct (TableEntry.offset x - cur + 32768 + 1 <? 0) eqn:E0; unbool;
        repeat split; lia.
    + apply (Hent i y Hi).
Qed.

Lemma shiftOffsets_shifts (e : DeflateFast.t) :
  encoder_ok e -> prev e <> [] ->
  exists e',
    shiftOffsets e = (Ok tt, e')
    /\ cur e' = MAX_MATCH_OFFSET + 1 /\ prev e' = prev e
    /\ encoder_ok e'
    /\ forall i x, table e !! i = Some (Some x) ->
         exists x', table e' !! i = Some (Some x')
           /\ TableEntry.val x' = TableEntry.val x
           /\ distance (cur e') x' = Z.min (distance (cur e) x) (MAX_MATCH_OFFSET + 1).
Proof.
  intros [[Hlen Hall] Hcur] Hprev. unfold shiftOffsets.
  destruct (JS.len (prev e) =? 0) eqn:E0; unbool.
  { destruct (prev e); [congruence | unfold JS.len in E0; cbn in E0; lia]. }
  destruct (shift_entries_ok (cur e) (cur e) (table e) Hall ltac:(lia))
    as (tbl' & E & Hlen' & Hent).
  rewrite E. eexists. split; [reflexivity |]. cbn [cur prev table].
  split; [reflexivity |]. split; [reflexivity |]. split.
  - split; cbn [cur prev table].
    + split; [now rewrite Hlen' |]. intros o Ho.
      apply list_elem_of_lookup in Ho as [i Hi].
      destruct (lookup_lt_is_Some_2 (table e) i) as [o0 Ho0].
      { rewrite <- Hlen'. eapply lookup_lt_Some. exact Hi. }
      destruct (Hall o0 (list_elem_of_lookup_2 _ _ _ Ho0)) as (x & -> & _).
      destruct (Hent i x Ho0) as (x' & Hx' & _ & Hoff & _).
      rewrite Hx' in Hi. injection Hi as <-. exists x'. split; [reflexivity | exact Hoff].
    + rewrite MAX_MATCH_OFFSET_value, BUFFER_RESET_value.
      unfold MAX_STORE_BLOCK_SIZE. lia.
  - intros i x Hi. destruct (Hent i x Hi) as (x' & Hx' & Hv & _ & Hd).
    exists x'. auto.
Qed.

(** With no previous block, [shiftOffsets] forgets the table. *)
Lemma shiftOffsets_empty (e : DeflateFast.t) :
  prev e = [] ->
  shiftOffsets e
  = (Ok tt, mk ((fun _ => Some (TableEntry.mk 0 0)) <$> table e) []
              (MAX_MATCH_OFFSET + 1)).
Proof. intros E. unfold shiftOffsets. rewrite E. reflexivity. Qed.

Lemma table_ok_cleared (tbl : list (option TableEntry.t)) (bound : Z) :
  length tbl = Z.to_nat TABLE_SIZE -> 0 < bound ->
  table_ok bound ((fun _ => Some (TableEntry.mk 0 0)) <$> tbl).
Proof.
  intros Hlen Hb. split; [now rewrite length_fmap |].
  intros o Ho. apply list_elem_of_fmap in Ho as (? & -> & _).
  eexists. split; [reflexivity |]. cbn. lia.
Qed.

Lemma shiftOffsets_ok (e : DeflateFast.t) :
  encoder_ok e ->
  exists e',
    shiftOffsets e = (Ok tt, e')
    /\ cur e' = MAX_MATCH_OFFSET + 1 /\ prev e' = prev e /\ encoder_ok e'.
Proof.
  intros Hok. destruct (prev e) as [| p0 ps] eqn:Ep.
  - rewrite shiftOffsets_empty by exact Ep.
    eexists. split; [reflexivity |]. cbn [cur prev].
    split; [reflexivity |]. split; [reflexivity |].
    destruct Hok as [[Hlen _] _]. split; cbn [cur table].
    + apply table_ok_cleared; [exact Hlen | rewrite MAX_MATCH_OFFSET_value; lia].
    + rewrite MAX_MATCH_OFFSET_value, BUFFER_RESET_value.
      unfold MAX_STORE_BLOCK_SIZE. lia.
  - destruct (shiftOffsets_shifts e Hok) as (e' & E & Hc & Hp & Hok' & _).
    { rewrite Ep. discriminate. }
    exists e'. rewrite <- Ep. auto.
Qed.

(** X9. [shiftOffsets] brings [cur] back to MAX_MATCH_OFFSET + 1
    and keeps the encoder well formed.  With a previous block at hand
    every entry keeps its value and its distance to [cur], capped at
    MAX_MATCH_OFFSET + 1: the distance check of [encode] answers as
    before. *)
Theorem shiftOffsets_keeps_distances (e : DeflateFast.t) :
  encoder_ok e ->
  exists e',
    shiftOffsets e = (Ok tt, e')
    /\ cur e' = MAX_MATCH_OFFSET + 1 /\ prev e' = prev e /\ encoder_ok e'
    /\ (prev e <> [] ->
        forall i x, table e !! i = Some (Some x) ->
          exists x', table e' !! i = Some (Some x')
            /\ TableEntry.val x' = TableEntry.val x
            /\ distance (cur e') x'
               = Z.min (distance (cur e) x) (MAX_MATCH_OFFSET + 1)).
Proof.
  intros Hok. destruct (shiftOffsets_ok e Hok) as (e' & E & Hc & Hp & Hok').
  exists e'. repeat (split; [assumption |]).
  intros Hne. destruct (shiftOffsets_shifts e Hok Hne) as (e2 & E2 & _ & _ & _ & Hd).
  rewrite E in E2. injection E2 as <-. exact Hd.
Qed.

Lemma JS_slice_empty {A} (a : list A) : JS.slice 0 0 a = [].
Proof.
  unfold JS.slice, JS.rel. cbn [Z.ltb Z.compare].
  replace (Z.min 0 (Z.of_nat (length a))) with 0 by lia. reflexivity.
Qed.

(** X10. After [reset] the previous block is empty and no entry of
    the table passes the distance check of [encode], at whatever position
    [s] of the next block. *)
Theorem reset_forgets_history (e : DeflateFast.t) :
  encoder_ok e ->
  exists e',
    reset e = (Ok tt, e')
    /\ prev e' = [] /\ encoder_ok e'
    /\ forall o x s, o ∈ table e' -> o = Some x -> 0 <= s ->
         s - (TableEntry.offset x - cur e') > MAX_MATCH_OFFSET.
Proof.
  intros [[Hlen Hall] Hcur]. unfold reset.
  rewrite JS_slice_empty. cbn [cur].
  destruct (cur e + MAX_MATCH_OFFSET >=? BUFFER_RESET) eqn:E; unbool.
  - rewrite shiftOffsets_empty by reflexivity. cbn [table].
    eexists. split; [reflexivity |]. cbn [prev cur table].
    split; [reflexivity |].
    assert (Hok : table_ok (MAX_MATCH_OFFSET + 1)
                    ((fun _ => Some (TableEntry.mk 0 0)) <$> table e)).
    { apply table_ok_cleared; [exact Hlen | rewrite MAX_MATCH_OFFSET_value; lia]. }
    split.
    + split; [exact Hok |]. cbn [cur].
      rewrite MAX_MATCH_OFFSET_value, BUFFER_RESET_value.
      unfold MAX_STORE_BLOCK_SIZE. lia.
    + intros o x s Ho -> Hs.
      apply list_elem_of_fmap in Ho as (? & Hx & _). injection Hx as ->.
      cbn. lia.
  - eexists. split; [reflexivity |]. cbn [prev cur table].
    split; [reflexivity |]. split.
    + split.
      * cbn [cur table].
        apply table_ok_weaken with (cur e); [rewrite MAX_MATCH_OFFSET_value; lia |].
        split; assumption.
      * cbn [cur]. rewrite MAX_MATCH_OFFSET_value in *.
        unfold MAX_STORE_BLOCK_SIZE. lia.
    + intros o x s Ho -> Hs.
      destruct (Hall _ Ho) as (x' & Hx' & Hoff). injection Hx' as <-.
      rewrite MAX_MATCH_OFFSET_value. lia.
Qed.

Lemma shiftOffsets_keeps_distances_witness :
  exists e',
    shiftOffsets DeflateFast.new = (Ok tt, e')
    /\ cur e' = MAX_MATCH_OFFSET + 1 /\ prev e' = prev DeflateFast.new
    /\ encoder_ok e'
    /\ (prev DeflateFast.new <> [] ->
        forall i x, table DeflateFast.new !! i = Some (Some x) ->
          exists x', table e' !! i = Some (Some x')
            /\ TableEntry.val x' = TableEntry.val x
            /\ distance (cur e') x'
               = Z.min (distance (cur DeflateFast.new) x) (MAX_MATCH_OFFSET + 1)).
Proof. apply (shiftOffsets_keeps_distances DeflateFast.new). exact new_encoder_ok. Defined.

Lemma reset_forgets_history_witness :
  exists e',
    reset DeflateFast.new = (Ok tt, e')
    /\ prev e' = [] /\ encoder_ok e'
    /\ forall o x s, o ∈ table e' -> o = Some x -> 0 <= s ->
         s - (TableEntry.offset x - cur e') > MAX_MATCH_OFFSET.
Proof. apply (reset_forgets_history DeflateFast.new). exact new_encoder_ok. Defined.

Lemma JS_sar_small (a k : Z) :
  - 2 ^ 31 <= a < 2 ^ 31 -> 0 <= k < 32 -> JS.sar a k = a / 2 ^ k.
Proof.
  intros Ha Hk. unfold JS.sar.
  replace (Z.land k 31) with k.
  - rewrite to_int32_small by lia. apply Z.shiftr_div_pow2. lia.
  - change 31 with (Z.ones 5). rewrite Z.land_ones by lia.
    symmetry. apply Z.mod_small. lia.
Qed.

Lemma table_ok_get (bound h : Z) tbl :
  table_ok bound tbl ->
  exists c, JS.get tbl (JS.and h TABLE_MASK) = Some (Some c)
            /\ 0 <= TableEntry.offset c < bound.
Proof.
  intros [Hlen Hall]. pose proof (table_slot_in_table h) as Hslot.
  unfold JS.get. destruct (JS.and h TABLE_MASK <? 0) eqn:E; unbool; [lia |].
  destruct (lookup_lt_is_Some_2 tbl (Z.to_nat (JS.and h TABLE_MASK))) as [o Ho].
  { rewrite Hlen. lia. }
  destruct (Hall o (list_elem_of_lookup_2 _ _ _ Ho)) as (c & -> & Hc).
  exists c. auto.
Qed.

Lemma table_ok_store (bound h : Z) (x : TableEntry.t) tbl :
  table_ok bound tbl -> 0 <= TableEntry.offset x < bound ->
  table_ok bound (JS.store (JS.and h TABLE_MASK) x tbl).
Proof.
  intros [Hlen Hall] Hx. pose proof (table_slot_in_table h) as Hslot.
  unfold JS.store.
  destruct (Z.to_nat (JS.and h TABLE_MASK) <? length tbl)%nat eqn:E.
  - split; [now rewrite length_insert |].
    intros o Ho. apply list_elem_of_lookup in Ho as [i Hi].
    destruct (Nat.eq_dec i (Z.to_nat (JS.and h TABLE_MASK))) as [-> | Hne].
    + rewrite list_lookup_insert_eq in Hi by (apply Nat.ltb_lt; exact E).
      injection Hi as <-. exists x. auto.
    + rewrite list_lookup_insert_ne in Hi by congruence.
      apply Hall. eapply list_elem_of_lookup_2. exact Hi.
  - apply Nat.ltb_ge in E. rewrite Hlen in E. lia.
Qed.

Lemma search_ok (fuel : nat) (src : list Z) (cur sLimit bound : Z) :
  0 <= cur -> cur + sLimit <= bound -> sLimit <= 2 ^ 30 ->
  forall skip nextS cv nextHash tbl,
    table_ok bound tbl -> 0 <= nextS -> 32 <= skip <= nextS + 32 ->
    Z.max 0 (sLimit - nextS) < Z.of_nat fuel ->
    exists r tbl',
      search fuel src cur sLimit skip nextS cv nextHash tbl = (Ok r, tbl')
      /\ table_ok bound tbl'
      /\ match r with
         | None => True
         | Some (s, c) => nextS <= s < sLimit /\ 0 <= TableEntry.offset c < bound
         end.
Proof.
  intros Hcur Hbound Hlim.
  induction fuel as [| fuel IH]; intros skip nextS cv nextHash tbl Htbl Hn Hskip Hfuel;
    [lia |].
  cbn [search].
  destruct (nextS + JS.sar skip 5 >? sLimit) eqn:Eout.
  { exists None, tbl. auto. }
  unbool.
  assert (Hskip' : skip < 2 ^ 31).
  { destruct (Z.lt_ge_cases skip (2 ^ 31)) as [? | Hbig]; [assumption |].
    (* then the step alone would pass the limit *)
    exfalso.
    pose proof (to_int32_range skip).
    unfold JS.sar in Eout. change (Z.land 5 31) with 5 in Eout.
    rewrite Z.shiftr_div_pow2 in Eout by lia.
    assert (- 2 ^ 26 <= JS.to_int32 skip / 2 ^ 5)
      by (apply Z.div_le_lower_bound; lia).
    lia. }
  rewrite JS_sar_small in * by lia.
  assert (Hstep : 1 <= skip / 2 ^ 5) by (apply Z.div_le_lower_bound; lia).
  destruct (table_ok_get bound nextHash tbl Htbl) as (c & -> & Hc).
  set (tbl1 := JS.store _ _ tbl).
  assert (Htbl1 : table_ok bound tbl1).
  { apply table_ok_store; [exact Htbl |]. cbn [TableEntry.offset]. lia. }
  destruct ((nextS - (TableEntry.offset c - cur) >? MAX_MATCH_OFFSET)
            || negb (cv =? TableEntry.val c)) eqn:Etest.
  - destruct (IH (skip + skip / 2 ^ 5) (nextS + skip / 2 ^ 5)
                (load32 src (nextS + skip / 2 ^ 5))
                (hash (load32 src (nextS + skip / 2 ^ 5))) tbl1)
      as (r & tbl' & E & Htbl' & Hr); [assumption | lia | lia | lia |].
    exists r, tbl'. split; [exact E |]. split; [exact Htbl' |].
    destruct r as [[s c'] |]; [| exact I]. split; [lia | tauto].
  - exists (Some (nextS, c)), tbl1. split; [reflexivity |].
    split; [exact Htbl1 |]. split; [lia | exact Hc].
Qed.

Lemma first_diff_nonneg (n : nat) (i : Z) (a b : list Z) (j : Z) :
  first_diff n i a b = Some j -> i <= j.
Proof. intros H. apply first_diff_some in H. lia. Qed.

Lemma matchLen_nonneg (prev src : list Z) (s t : Z) : 0 <= matchLen prev s t src.
Proof.
  unfold matchLen.
  repeat match goal with
  | |- context [if ?c then _ else _] => destruct c eqn:?
  | |- context [match first_diff ?n ?i ?a ?b with _ => _ end] =>
      let E := fresh "E" in
      destruct (first_diff n i a b) eqn:E;
      [apply first_diff_nonneg in E |]
  end;
  try match goal with |- context [JS.len ?l] => pose proof (JS_len_nonneg l) end;
  repeat match goal with |- context [JS.len ?l] =>
    lazymatch goal with
    | _ : 0 <= JS.len l |- _ => fail
    | _ => pose proof (JS_len_nonneg l)
    end end;
  lia.
Qed.

Lemma load64_ok (b : list Z) (i : Z) :
  0 <= i -> i + 7 < JS.len b -> exists x, load64 b i = Ok x.
Proof.
  intros Hi Hlen. unfold load64.
  assert (Hget : forall k, 0 <= k <= 7 -> exists v, JS.get b (i + k) = Some v).
  { intros k Hk. unfold JS.get, JS.len in *.
    destruct (i + k <? 0) eqn:E; unbool; [lia |].
    apply lookup_lt_is_Some_2. lia. }
  destruct (Hget 0 ltac:(lia)) as [v0 ->].
  destruct (Hget 1 ltac:(lia)) as [v1 ->].
  destruct (Hget 2 ltac:(lia)) as [v2 ->].
  destruct (Hget 3 ltac:(lia)) as [v3 ->].
  destruct (Hget 4 ltac:(lia)) as [v4 ->].
  destruct (Hget 5 ltac:(lia)) as [v5 ->].
  destruct (Hget 6 ltac:(lia)) as [v6 ->].
  destruct (Hget 7 ltac:(lia)) as [v7 ->].
  cbn [res_bind]. eexists. reflexivity.
Qed.

Lemma extend_ok (fuel : nat) (prev src : list Z) (cur sLimit bound : Z) :
  0 <= cur -> cur + sLimit <= bound -> sLimit = JS.len src - INPUT_MARGIN ->
  forall s c dst tbl,
    table_ok bound tbl -> 0 <= s ->
    Z.max 0 (sLimit - s) < Z.of_nat fuel ->
    exists r tbl',
      extend fuel prev src cur sLimit s c dst tbl = (Ok r, tbl')
      /\ table_ok bound tbl'
      /\ match r with
         | Remainder dst' _ => dst `prefix_of` dst'
         | Resume dst' _ s' _ _ => dst `prefix_of` dst' /\ s + 4 < s' <= sLimit
         end.
Proof.
  intros Hcur Hbound HsLimit.
  induction fuel as [| fuel IH]; intros s c dst tbl Htbl Hs Hfuel; [lia |].
  cbn [extend].
  pose proof (matchLen_nonneg prev src (s + 4)
                (TableEntry.offset c - cur + 4)) as Hl.
  set (l := matchLen prev (s + 4) (TableEntry.offset c - cur + 4) src) in *.
  set (dst1 := dst ++ [_]).
  assert (Hdst1 : dst `prefix_of` dst1) by (apply prefix_app_r; reflexivity).
  destruct (s + 4 + l >=? sLimit) eqn:Eend.
  { exists (Remainder dst1 (s + 4 + l)), tbl. auto. }
  unbool. unfold INPUT_MARGIN in HsLimit.
  destruct (load64_ok src (s + 4 + l - 1)) as [x ->]; [lia | lia |].
  set (tbl1 := JS.store _ _ tbl).
  assert (Htbl1 : table_ok bound tbl1).
  { apply table_ok_store; [exact Htbl |]. cbn [TableEntry.offset]. lia. }
  destruct (table_ok_get bound (hash_bigint (Z.shiftr x 8)) tbl1 Htbl1)
    as (c' & -> & Hc').
  set (tbl2 := JS.store _ _ tbl1).
  assert (Htbl2 : table_ok bound tbl2).
  { apply table_ok_store; [exact Htbl1 |]. cbn [TableEntry.offset]. lia. }
  destruct ((s + 4 + l - (TableEntry.offset c' - cur) >? MAX_MATCH_OFFSET)
            || negb (JS.round53 (Z.shiftr x 8) =? TableEntry.val c')) eqn:Etest.
  - eexists (Resume dst1 _ _ _ _), tbl2. split; [reflexivity |].
    split; [exact Htbl2 |]. split; [exact Hdst1 | lia].
  - destruct (IH (s + 4 + l) c' dst1 tbl2) as (r & tbl' & E & Htbl' & Hr);
      [assumption | lia | lia |].
    exists r, tbl'. split; [exact E |]. split; [exact Htbl' |].
    destruct r as [dst' ne | dst' ne s' cv nh].
    + etransitivity; eassumption.
    + destruct Hr as [Hp Hs']. split; [etransitivity; eassumption | lia].
Qed.

Lemma encode_loop_ok (fuel turns : nat) (prev src : list Z)
    (cur sLimit bound : Z) :
  0 <= cur -> cur + sLimit <= bound -> sLimit = JS.len src - INPUT_MARGIN ->
  sLimit <= 2 ^ 30 -> sLimit < Z.of_nat fuel ->
  forall s nextEmit cv nextHash dst tbl,
    table_ok bound tbl -> 0 <= s <= sLimit ->
    sLimit - s < Z.of_nat turns ->
    exists dst' nextEmit' tbl',
      encode_loop fuel turns prev src cur sLimit s nextEmit cv nextHash dst tbl
      = (Ok (dst', nextEmit'), tbl')
      /\ table_ok bound tbl' /\ dst `prefix_of` dst'.
Proof.
  intros Hcur Hbound HsLimit Hlim Hfuel.
  induction turns as [| turns IH];
    intros s nextEmit cv nextHash dst tbl Htbl Hs Hturns; [lia |].
  cbn [encode_loop].
  destruct (search_ok fuel src cur sLimit bound Hcur Hbound Hlim
              32 s cv nextHash tbl Htbl) as (r & tbl1 & -> & Htbl1 & Hr);
    [lia | lia | lia |].
  destruct r as [[s1 c] |].
  2:{ exists dst, nextEmit, tbl1. auto. }
  destruct Hr as [Hs1 Hc].
  set (dst1 := emitLiteral dst _).
  assert (Hdst1 : dst `prefix_of` dst1) by (apply prefix_app_r; reflexivity).
  destruct (extend_ok fuel prev src cur sLimit bound Hcur Hbound HsLimit
              s1 c dst1 tbl1 Htbl1) as (r & tbl2 & -> & Htbl2 & Hr);
    [lia | lia |].
  destruct r as [dst2 ne | dst2 ne s2 cv2 nh2].
  - exists dst2, ne, tbl2. split; [reflexivity |]. split; [exact Htbl2 |].
    etransitivity; eassumption.
  - destruct Hr as [Hp Hs2].
    destruct (IH s2 ne cv2 nh2 dst2 tbl2) as (dst' & ne' & tbl' & E & Htbl' & Hp');
      [assumption | lia | lia |].
    exists dst', ne', tbl'. split; [exact E |]. split; [exact Htbl' |].
    etransitivity; [exact Hdst1 |]. etransitivity; eassumption.
Qed.

Lemma set_u8_insert (k : nat) (v : Z) (p : list Z) :
  JS.set_u8 (Z.of_nat k) v p = <[k := v mod 256]> p.
Proof.
  unfold JS.set_u8, JS.set.
  destruct (Z.of_nat k <? 0) eqn:E; unbool; [lia |]. now rewrite Nat2Z.id.
Qed.

Lemma copy_block_lookup (src p : list Z) (k j : nat) :
  copy_block (Z.of_nat k) src p !! j
  = if bool_decide (k <= j < k + length src /\ j < length p)%nat
    then (fun v => v mod 256) <$> src !! (j - k)%nat
    else p !! j.
Proof.
  revert k p. induction src as [| v src IH]; intros k p.
  - cbn [copy_block]. rewrite bool_decide_eq_false_2; [reflexivity |]. cbn. lia.
  - cbn [copy_block]. rewrite set_u8_insert.
    replace (Z.of_nat k + 1) with (Z.of_nat (S k)) by lia.
    rewrite IH, length_insert. cbn [length].
    destruct (Nat.eq_dec j k) as [-> | Hne].
    + rewrite bool_decide_eq_false_2 by lia.
      destruct (Nat.lt_ge_cases k (length p)) as [Hlt | Hge].
      * rewrite bool_decide_eq_true_2 by lia.
        rewrite list_lookup_insert_eq by exact Hlt.
        now rewrite Nat.sub_diag.
      * rewrite bool_decide_eq_false_2 by lia.
        now rewrite list_insert_ge by exact Hge.
    + rewrite list_lookup_insert_ne by congruence.
      destruct (bool_decide (S k <= j < S k + length src /\ j < length p)%nat) eqn:E.
      * apply bool_decide_eq_true in E.
        rewrite bool_decide_eq_true_2 by lia.
        replace (j - k)%nat with (S (j - S k)) by lia. reflexivity.
      * apply bool_decide_eq_false in E.
        rewrite bool_decide_eq_false_2 by lia. reflexivity.
Qed.

Lemma JS_slice_take {A} (n : Z) (a : list A) :
  0 <= n -> JS.slice 0 n a = take (Z.to_nat n) a.
Proof.
  intros Hn. unfold JS.slice, JS.rel. cbn [Z.ltb Z.compare].
  destruct (n <? 0) eqn:E; unbool; [lia |].
  replace (Z.min 0 (Z.of_nat (length a))) with 0 by lia.
  rewrite drop_0, Z.sub_0_r.
  destruct (Z.le_gt_cases n (Z.of_nat (length a))).
  - now rewrite Z.min_l by lia.
  - rewrite Z.min_r by lia. rewrite Nat2Z.id.
    rewrite !take_ge by lia. reflexivity.
Qed.

(** The block [encode] leaves in [prev]. *)
Lemma copy_block_prev (src prev : list Z) :
  copy_block 0 src (JS.slice 0 (JS.len src) prev)
  = take (length prev) ((fun v => v mod 256) <$> src).
Proof.
  rewrite JS_slice_take by apply JS_len_nonneg.
  unfold JS.len. rewrite Nat2Z.id.
  apply list_eq. intros j.
  change 0 with (Z.of_nat 0). rewrite copy_block_lookup.
  rewrite length_take, Nat.sub_0_r.
  destruct (bool_decide (0 <= j < 0 + length src
                         /\ j < length src `min` length prev)%nat) eqn:E.
  - apply bool_decide_eq_true in E.
    assert (Hj : (j < length prev)%nat) by lia.
    rewrite lookup_take_lt by exact Hj. now rewrite list_lookup_fmap.
  - apply bool_decide_eq_false in E.
    destruct (Nat.lt_ge_cases j (length prev)) as [Hlt | Hge].
    + rewrite (lookup_take_lt (_ <$> _)) by lia.
      rewrite (lookup_ge_None_2 (take _ _)) by (rewrite length_take; lia).
      symmetry. apply lookup_ge_None_2. rewrite length_fmap. lia.
    + rewrite (lookup_take_ge _ (length prev)) by lia.
      apply lookup_ge_None_2. rewrite length_take. lia.
Qed.

(** X11. Every call of [encode] on a block of at most
    MAX_STORE_BLOCK_SIZE bytes returns: no loop runs out of turns and no
    table access misses.  The tokens extend [dst], the table stays whole,
    [cur] advances by the size of the block and [prev] never grows.  A
    block shorter than MIN_NON_LITERAL_BLOCK_SIZE comes out as its
    literals. *)
Theorem encode_keeps_encoder (dst : list Token) (src : list Z)
    (e : DeflateFast.t) :
  encoder_ok e -> JS.len src <= MAX_STORE_BLOCK_SIZE ->
  exists tokens e',
    encode dst src e = (Ok tokens, e')
    /\ encoder_ok e'
    /\ dst `prefix_of` tokens
    /\ cur e' = (if cur e >=? BUFFER_RESET then MAX_MATCH_OFFSET + 1 else cur e)
                + (if JS.len src <? MIN_NON_LITERAL_BLOCK_SIZE
                   then MAX_STORE_BLOCK_SIZE else JS.len src)
    /\ prev e' = (if JS.len src <? MIN_NON_LITERAL_BLOCK_SIZE then []
                  else take (length (prev e)) ((fun v => v mod 256) <$> src))
    /\ (JS.len src < MIN_NON_LITERAL_BLOCK_SIZE ->
        tokens = dst ++ (literalToken <$> src)).
Proof.
  intros Hok Hsrc. unfold encode.
  assert (Hstart : exists e0,
            (if cur e >=? BUFFER_RESET then shiftOffsets e else (Ok tt, e))
            = (Ok tt, e0)
            /\ encoder_ok e0 /\ prev e0 = prev e /\ cur e0 < BUFFER_RESET
            /\ cur e0 = if cur e >=? BUFFER_RESET then MAX_MATCH_OFFSET + 1
                        else cur e).
  { destruct (cur e >=? BUFFER_RESET) eqn:E; unbool.
    - destruct (shiftOffsets_ok e Hok) as (e0 & E0 & Hc & Hp & Hok0).
      exists e0. repeat (split; [assumption |]).
      split; [| exact Hc]. rewrite Hc, MAX_MATCH_OFFSET_value, BUFFER_RESET_value. lia.
    - exists e. auto. }
  destruct Hstart as (e0 & -> & [Htbl0 Hcur0] & Hprev0 & Hlt0 & Hc0).
  rewrite <- Hc0. unfold MIN_NON_LITERAL_BLOCK_SIZE, INPUT_MARGIN.
  pose proof (JS_len_nonneg src) as Hlen.
  unfold MAX_STORE_BLOCK_SIZE in *.
  destruct (JS.len src <? 1 + 1 + (16 - 1)) eqn:Eshort; unbool.
  - eexists _, _. split; [reflexivity |]. cbn [cur prev table].
    split.
    { split; cbn [cur table]; unfold MAX_STORE_BLOCK_SIZE; [| lia].
      apply table_ok_weaken with (cur e0); [lia | exact Htbl0]. }
    split; [apply prefix_app_r; reflexivity |].
    split; [reflexivity |]. split; [apply JS_slice_empty | reflexivity].
  - destruct (encode_loop_ok (S (length src)) (S (length src)) (prev e0) src
                (cur e0) (JS.len src - (16 - 1)) (cur e0 + JS.len src))
      with (s := 0) (nextEmit := 0) (cv := load32 src 0)
           (nextHash := hash (load32 src 0)) (dst := dst) (tbl := table e0)
      as (dst' & ne & tbl' & -> & Htbl' & Hp);
      try (unfold JS.len in *; lia); try reflexivity.
    { apply table_ok_weaken with (cur e0); [lia | exact Htbl0]. }
    eexists _, _. split; [reflexivity |]. cbn [cur prev table].
    split.
    { split; cbn [cur table]; [exact Htbl' |].
      unfold MAX_STORE_BLOCK_SIZE. lia. }
    split.
    { destruct (ne <? JS.len src); [| exact Hp].
      etransitivity; [exact Hp |]. apply prefix_app_r. reflexivity. }
    split; [reflexivity |].
    split; [rewrite Hprev0; apply copy_block_prev | lia].
Qed.

Lemma encode_keeps_encoder_witness :
  let src := [97; 98; 99; 100; 97; 98; 99; 100; 120; 121;
              1; 2; 3; 4; 5; 6; 7; 8; 9; 10;
              11; 12; 13; 14; 15; 16; 17; 18; 19; 20] in
  exists tokens e',
    encode [] src DeflateFast.new = (Ok tokens, e')
    /\ encoder_ok e'
    /\ [] `prefix_of` tokens
    /\ cur e' = (if cur DeflateFast.new >=? BUFFER_RESET
                 then MAX_MATCH_OFFSET + 1 else cur DeflateFast.new)
                + (if JS.len src <? MIN_NON_LITERAL_BLOCK_SIZE
                   then MAX_STORE_BLOCK_SIZE else JS.len src)
    /\ prev e' = (if JS.len src <? MIN_NON_LITERAL_BLOCK_SIZE then []
                  else take (length (prev DeflateFast.new))
                         ((fun v => v mod 256) <$> src))
    /\ (JS.len src < MIN_NON_LITERAL_BLOCK_SIZE ->
        tokens = [] ++ (literalToken <$> src)).
Proof.
  intro src. apply (encode_keeps_encoder [] src DeflateFast.new).
  - exact new_encoder_ok.
  - vm_compute. discriminate.
Defined.

(** On that block of 30 bytes the three loops run: the search finds the
    second "abcd" four bytes behind, the match is emitted, [load64] and
    the table are used to look at what follows, and the search resumes up
    to the margin. *)
Example encode_finds_a_match :
  let src := [97; 98; 99; 100; 97; 98; 99; 100; 120; 121;
              1; 2; 3; 4; 5; 6; 7; 8; 9; 10;
              11; 12; 13; 14; 15; 16; 17; 18; 19; 20] in
  fst (encode [] src DeflateFast.new)
  = Ok ((literalToken <$> [97; 98; 99; 100]) ++ [matchToken 1 3]
        ++ (literalToken <$> drop 8 src))
  /\ cur (snd (encode [] src DeflateFast.new)) = MAX_STORE_BLOCK_SIZE + 30.
Proof. vm_compute. split; reflexivity. Qed.

End MatchFinder.

(** *** The small case of generate *)

Lemma store_length_le {A} (i : Z) (v : A) (l : list (option A)) (n : nat) :
  (length l <= n)%nat -> (Z.to_nat i < n)%nat -> (length (JS.store i v l) <= n)%nat.
Proof.
  intros Hl Hi. unfold JS.store.
  destruct (Nat.ltb_spec (Z.to_nat i) (length l)).
  - now rewrite length_insert.
  - rewrite !length_app, length_replicate. cbn. lia.
Qed.

(** The array [generate] collects into is no longer than the number of
    frequencies read, nor than the number of used symbols plus one. *)
Lemma collect_length (freq : list Z) :
  forall i lst count cs lst' count' cs',
    generate_collect i freq lst count cs = (Ok (lst', count'), cs') ->
    0 <= count ->
    forall m : nat,
      (length lst <= m)%nat -> count <= Z.of_nat m ->
      (length lst <= Z.to_nat count + 1)%nat ->
      (length lst' <= m + length freq)%nat
      /\ (length lst' <= Z.to_nat count' + 1)%nat.
Proof.
  induction freq as [| f freq IH];
    intros i lst count cs lst' count' cs' E Hc m Hm Hcm Hl.
  - cbn in E. injection E as <- <- _. cbn. lia.
  - cbn [generate_collect] in E. cbn [length].
    destruct (Z.eqb_spec f 0) as [-> | Hf]; cbn [negb] in E.
    + destruct (JS.get cs i) as [[c |] |]; try discriminate.
      destruct (IH _ _ _ _ _ _ _ E Hc (S m)) as [H1 H2].
      * apply store_length_le; lia.
      * lia.
      * apply store_length_le; lia.
      * lia.
    + destruct (IH _ _ _ _ _ _ _ E ltac:(lia) (S m)) as [H1 H2].
      * apply store_length_le; lia.
      * lia.
      * apply store_length_le; lia.
      * lia.
Qed.

Lemma small_no_hole (lst : list (option LiteralNode.t)) :
  forall i cs cs', generate_small i lst cs = (Ok tt, cs') -> None ∉ lst.
Proof.
  induction lst as [| [nd |] lst IH]; intros i cs cs' E; cbn in E.
  - apply not_elem_of_nil.
  - destruct (JS.get cs (LiteralNode.literal nd)) as [[c |] |]; try discriminate.
    apply IH in E. intros H. apply elem_of_cons in H as [H | H]; [discriminate | auto].
  - discriminate.
Qed.

(** The last node the small case visits decides the entry of its literal. *)
Lemma small_last (lst : list (option LiteralNode.t)) (nd : LiteralNode.t) :
  forall i cs cs',
    generate_small i (lst ++ [Some nd]) cs = (Ok tt, cs') ->
    0 <= LiteralNode.literal nd ->
    cs' !! Z.to_nat (LiteralNode.literal nd)
    = Some (Some (Hcode.mk (i + JS.len lst) 1)).
Proof.
  induction lst as [| [x |] lst IH]; intros i cs cs' E Hlit; cbn in E.
  - destruct (JS.get cs (LiteralNode.literal nd)) as [[c |] |] eqn:Eg;
      try discriminate.
    injection E as <-. rewrite JS_set_nat by exact Hlit.
    rewrite JS_get_nat in Eg by exact Hlit.
    rewrite list_lookup_insert_eq by (eapply lookup_lt_Some; exact Eg).
    unfold Hcode.set, JS.len. cbn. now rewrite Z.add_0_r.
  - destruct (JS.get cs (LiteralNode.literal x)) as [[c |] |]; try discriminate.
    rewrite (IH _ _ _ E Hlit). unfold JS.len. cbn [length].
    do 3 f_equal. lia.
  - discriminate.
Qed.

Lemma store_append {A} (i : Z) (v : A) (l : list (option A)) :
  (length l <= Z.to_nat i)%nat ->
  JS.store i v l = (l ++ replicate (Z.to_nat i - length l) None) ++ [Some v].
Proof.
  intros H. unfold JS.store.
  destruct (Nat.ltb_spec (Z.to_nat i) (length l)); [lia |].
  now rewrite app_assoc.
Qed.

(** With more than three frequencies and at most two of them used, the
    small case runs into a hole. *)
Lemma generate_small_case_stops (h : HuffmanEncoder) (freq : list Z) (maxBits : Z) :
  freqcache h = [] -> count_nonzero freq <= 2 -> (3 < length freq)%nat ->
  fst (generate h freq maxBits) = Stop (Throw TypeError).
Proof.
  intros Hcache Hcount Hlen. unfold generate. rewrite Hcache.
  assert (Hnil : JS.slice 0 (JS.len freq + 1) ([] : list (option LiteralNode.t)) = []).
  { unfold JS.slice. rewrite drop_nil. apply take_nil. }
  rewrite Hnil.
  destruct (generate_collect 0 freq [] 0 (codes h))
    as [[[lst count] | s] cs] eqn:E.
  2:{ apply collect_stop in E as ->. reflexivity. }
  pose proof (collect_count _ _ _ _ _ _ _ _ E) as Hc. rewrite Z.add_0_l in Hc.
  destruct (collect_length _ _ _ _ _ _ _ _ E ltac:(lia) 0%nat)
    as [_ Hl]; [cbn; lia | lia | cbn; lia |].
  subst count. destruct (Z.leb_spec (count_nonzero freq) 2) as [_ | ?]; [| lia].
  destruct (generate_small 0 (JS.store (JS.len freq) LiteralNode.default lst) cs)
    as [[[] | s] cs'] eqn:Es; cbn [fst].
  - exfalso. apply small_no_hole in Es. apply Es.
    rewrite store_append by (unfold JS.len; lia).
    apply elem_of_app. left. apply elem_of_app. right.
    apply elem_of_replicate. split; [reflexivity |]. unfold JS.len. lia.
  - apply small_stop in Es as ->. reflexivity.
Qed.

(** X12. [generate] returns normally only on a table of at most
    three entries with at most two of them used, and then it has set
    [codes[0]] to the code [freq.length] of length 1; on every other table
    of non-negative frequencies it throws. *)
Theorem generate_returns_only_small (h : HuffmanEncoder) (freq : list Z)
    (maxBits : Z) :
  freqcache h = [] -> (forall f, f ∈ freq -> 0 <= f) ->
  match fst (generate h freq maxBits) with
  | Ok _ =>
      (length freq <= 3)%nat /\ count_nonzero freq <= 2
      /\ codes (snd (generate h freq maxBits)) !! 0%nat
         = Some (Some (Hcode.mk (JS.len freq) 1))
  | Stop s => exists e, s = Throw e
  end.
Proof.
  intros Hcache Hfreq.
  destruct (Z.le_gt_cases 3 (count_nonzero freq)) as [Hbig | Hsmall].
  { destruct (generate_throws_on_three_symbols h freq maxBits Hcache Hfreq Hbig)
      as (e & ->). eauto. }
  destruct (Nat.lt_ge_cases 3 (length freq)) as [Hlong | Hshort].
  { rewrite generate_small_case_stops by (assumption || lia). eauto. }
  unfold generate. rewrite Hcache.
  assert (Hnil : JS.slice 0 (JS.len freq + 1) ([] : list (option LiteralNode.t)) = []).
  { unfold JS.slice. rewrite drop_nil. apply take_nil. }
  rewrite Hnil.
  destruct (generate_collect 0 freq [] 0 (codes h))
    as [[[lst count] | s] cs] eqn:E.
  2:{ apply collect_stop in E as ->. cbn. eauto. }
  pose proof (collect_count _ _ _ _ _ _ _ _ E) as Hc. rewrite Z.add_0_l in Hc.
  destruct (collect_length _ _ _ _ _ _ _ _ E ltac:(lia) 0%nat)
    as [Hl _]; [cbn; lia | lia | cbn; lia |].
  subst count. destruct (Z.leb_spec (count_nonzero freq) 2) as [_ | ?]; [| lia].
  rewrite store_append by (unfold JS.len; lia).
  destruct (generate_small 0 _ cs) as [[[] | s] cs'] eqn:Es; cbn [fst snd].
  - split; [exact Hshort |]. split; [lia |].
    apply small_last in Es; [| cbn; lia].
    cbn [LiteralNode.literal LiteralNode.default] in Es.
    change (Z.to_nat 0) with 0%nat in Es. cbn [codes with_codes].
    rewrite Es. do 3 f_equal. unfold JS.len.
    rewrite length_app, length_replicate. lia.
  - apply small_stop in Es as ->. eauto.
Qed.

Lemma generate_returns_only_small_witness :
  match fst (generate (blank_encoder 3) [5; 7; 0] 15) with
  | Ok _ =>
      (length [5; 7; 0] <= 3)%nat /\ count_nonzero [5; 7; 0] <= 2
      /\ codes (snd (generate (blank_encoder 3) [5; 7; 0] 15)) !! 0%nat
         = Some (Some (Hcode.mk (JS.len [5; 7; 0]) 1))
  | Stop s => exists e, s = Throw e
  end.
Proof.
  apply (generate_returns_only_small (blank_encoder 3) [5; 7; 0] 15).
  - reflexivity.
  - apply Forall_forall. repeat constructor; lia.
Defined.

(** *** The block writers *)

(** On a table with more than three slots [generate] throws. *)
Lemma generate_throws_on_long_table (h : HuffmanEncoder) (freq : list Z)
    (maxBits : Z) :
  freqcache h = [] -> (forall f, f ∈ freq -> 0 <= f) -> (3 < length freq)%nat ->
  throws (fst (generate h freq maxBits)).
Proof.
  intros Hcache Hfreq Hlen.
  destruct (Z.le_gt_cases 3 (count_nonzero freq)) as [Hbig | Hsmall].
  - now apply generate_throws_on_three_symbols.
  - rewrite generate_small_case_stops by (assumption || lia). apply throws_stop.
Qed.

Lemma generate_keeps_freqcache (h : HuffmanEncoder) (freq : list Z) (maxBits : Z) :
  freqcache (snd (generate h freq maxBits)) = freqcache h.
Proof.
  unfold generate.
  destruct (generate_collect _ _ _ _ _) as [[[lst count] | s] cs]; [| reflexivity].
  destruct (count <=? 2).
  - destruct (generate_small _ _ _). reflexivity.
  - destruct (bitCounts _ _ _) as [[bc lst'] | s]; [| reflexivity].
    destruct (assignEncodingAndSize _ _ _). reflexivity.
Qed.

Lemma count_nonzero_insert (l : list Z) (i : nat) (v : Z) :
  count_nonzero (<[i := v]> l) <= count_nonzero l + 1.
Proof.
  revert i. induction l as [| x l IH]; intros i.
  { destruct i; cbn; unfold count_nonzero, JS.len; cbn; lia. }
  destruct i as [| i].
  - change (<[0%nat := v]> (x :: l)) with (v :: l).
    rewrite !count_nonzero_cons. destruct (v =? 0), (x =? 0); lia.
  - change (<[S i := v]> (x :: l)) with (x :: <[i := v]> l).
    rewrite !count_nonzero_cons. specialize (IH i). destruct (x =? 0); lia.
Qed.

Lemma count_nonzero_zeros (n : nat) : count_nonzero (replicate n 0) = 0.
Proof.
  induction n as [| n IH]; [reflexivity |].
  cbn [replicate]. rewrite count_nonzero_cons, IH. reflexivity.
Qed.

Lemma huff_table_count (n : nat) : count_nonzero (huff_table n) <= 2.
Proof.
  unfold huff_table.
  pose proof (count_nonzero_insert (replicate n 0) 256 1) as H.
  rewrite count_nonzero_zeros in H. lia.
Qed.

(** X13. [writeBlockHuff] always ends in a TypeError, before
    anything is written: its table has one used symbol among more than
    three, and the small case of [generate] runs into a hole of [list]. *)
Theorem writeBlockHuff_always_throws (eof : bool) (input : list Z) (w : Writer) :
  err w = None ->
  (256 < length (literalFreq w))%nat ->
  freqcache (literalEncoding w) = [] ->
  fst (writeBlockHuff eof input w) = Stop (Throw TypeError)
  /\ writer (snd (writeBlockHuff eof input w)) = writer w
  /\ err (snd (writeBlockHuff eof input w)) = None.
Proof.
  intros Herr Hlen Hcache.
  destruct (huff_frequencies_table input w Hlen) as (ofr & _ & E).
  unfold writeBlockHuff, bind, get_w. rewrite Herr, E.
  unfold huff_encode, bind, get_w, generate_with.
  cbn [literalFreq literalEncoding set_offsetFreq set_literalFreq].
  pose proof (generate_small_case_stops (literalEncoding w)
                (huff_table (length (literalFreq w))) 15 Hcache
                (huff_table_count _)) as Hstop.
  assert (Hlong : (3 < length (huff_table (length (literalFreq w))))%nat).
  { unfold huff_table. rewrite length_insert, length_replicate. lia. }
  specialize (Hstop Hlong).
  destruct (generate (literalEncoding w) (huff_table (length (literalFreq w))) 15)
    as [r h'].
  cbn [fst] in Hstop. subst r. cbn. auto.
Qed.

Lemma writeBlockHuff_always_throws_witness :
  fst (writeBlockHuff false [104; 105] fresh_writer) = Stop (Throw TypeError)
  /\ writer (snd (writeBlockHuff false [104; 105] fresh_writer)) = writer fresh_writer
  /\ err (snd (writeBlockHuff false [104; 105] fresh_writer)) = None.
Proof.
  apply (writeBlockHuff_always_throws false [104; 105] fresh_writer).
  - reflexivity.
  - vm_compute. lia.
  - reflexivity.
Defined.

Lemma freq_incr_cases (i : Z) (a : list Z) :
  (exists a', freq_incr i a = Ok a' /\ length a' = length a
              /\ ((forall f, f ∈ a -> 0 <= f) -> forall f, f ∈ a' -> 0 <= f))
  \/ freq_incr i a = Stop NaN.
Proof.
  unfold freq_incr. destruct (JS.get a i) as [v |] eqn:E; cbn; [left | now right].
  eexists. split; [reflexivity |].
  apply JS_get_some_lt in E as Hi. rewrite JS_set_nat by lia.
  split; [apply length_insert |].
  intros Ha f Hf. apply list_elem_of_lookup in Hf as [j Hj].
  destruct (Nat.eq_dec j (Z.to_nat i)) as [-> | Hne].
  - rewrite JS_get_nat in E by lia.
    rewrite list_lookup_insert_eq in Hj by (eapply lookup_lt_Some; exact E).
    injection Hj as <-.
    assert (0 <= v) by (apply Ha; eapply list_elem_of_lookup_2; exact E). lia.
  - rewrite list_lookup_insert_ne in Hj by congruence.
    apply Ha. eapply list_elem_of_lookup_2. exact Hj.
Qed.

Lemma freq_incr_in_range (i : Z) (a : list Z) :
  0 <= i < JS.len a ->
  exists a', freq_incr i a = Ok a' /\ length a' = length a
             /\ ((forall f, f ∈ a -> 0 <= f) -> forall f, f ∈ a' -> 0 <= f).
Proof.
  intros Hi. destruct (freq_incr_cases i a) as [H | H]; [exact H |].
  exfalso. unfold freq_incr in H. rewrite JS_get_nat in H by lia.
  destruct (lookup_lt_is_Some_2 a (Z.to_nat i)) as [v Hv];
    [unfold JS.len in Hi; lia |].
  rewrite Hv in H. discriminate.
Qed.

(** On tokens whose counters exist the loop of [indexTokens] runs to its
    end, and the tables keep their sizes. *)
Lemma index_loop_counts (tokens : list Token) :
  forall lf ofr,
    Forall (counted (JS.len lf) (JS.len ofr)) tokens ->
    exists lf' ofr',
      index_loop tokens lf ofr = Ok (lf', ofr')
      /\ length lf' = length lf
      /\ ((forall f, f ∈ lf -> 0 <= f) -> forall f, f ∈ lf' -> 0 <= f).
Proof.
  induction tokens as [| token tokens IH]; intros lf ofr Hall; cbn [index_loop].
  - exists lf, ofr. auto.
  - apply Forall_cons in Hall as [Ht Hall]. unfold counted in Ht.
    destruct (value token <? MATCH_TYPE).
    + destruct (freq_incr_in_range _ lf Ht) as (lf1 & -> & Hlen1 & Hpos1).
      cbn [res_bind].
      destruct (IH lf1 ofr) as (lf' & ofr' & -> & Hlen & Hpos).
      { unfold JS.len in *. now rewrite Hlen1. }
      exists lf', ofr'. split; [reflexivity |]. split; [congruence | auto].
    + destruct Ht as (lc & oc & -> & Hlc & -> & Hoc).
      cbn [num res_bind].
      destruct (freq_incr_in_range _ lf Hlc) as (lf1 & -> & Hlen1 & Hpos1).
      cbn [res_bind].
      destruct (freq_incr_in_range _ ofr Hoc) as (ofr1 & -> & Hlen2 & _).
      cbn [res_bind].
      destruct (IH lf1 ofr1) as (lf' & ofr' & -> & Hlen & Hpos).
      { unfold JS.len in *. now rewrite Hlen1, Hlen2. }
      exists lf', ofr'. split; [reflexivity |]. split; [congruence | auto].
Qed.

Lemma freq_put_first (v : Z) (a : list Z) : exists a', freq_put 0 v a = Ok a'.
Proof.
  unfold freq_put, JS.len. destruct a as [| x a]; cbn; eauto.
Qed.

(** [indexTokens] never gets past its call of [literalEncoding.generate]:
    the table it has counted into has more than three slots. *)
Lemma indexTokens_throws (tokens : list Token) (w : Writer) :
  (3 < length (literalFreq w))%nat ->
  freqcache (literalEncoding w) = [] ->
  Forall (counted (JS.len (literalFreq w)) (JS.len (offsetFreq w))) tokens ->
  exists e w',
    indexTokens tokens w = (Stop (Throw e), w') /\ writer w' = writer w.
Proof.
  intros Hlen Hcache Hall.
  unfold indexTokens, bind, modify, get_w, lift, ret.
  cbn [literalFreq offsetFreq set_literalFreq set_offsetFreq].
  destruct (index_loop_counts tokens ((fun _ => 0) <$> literalFreq w)
              ((fun _ => 0) <$> offsetFreq w))
    as (lf & ofr & -> & Hlf & Hpos).
  { unfold JS.len. now rewrite !length_fmap. }
  rewrite length_fmap in Hlf.
  assert (Hnonneg : forall f, f ∈ lf -> 0 <= f).
  { apply Hpos. intros f Hf. apply list_elem_of_fmap in Hf as (? & -> & _). lia. }
  cbn [literalFreq offsetFreq set_literalFreq set_offsetFreq].
  set (numOffsets := trim_offsets (length ofr) (JS.len ofr) ofr).
  destruct (generate_throws_on_long_table (literalEncoding w) lf 15 Hcache Hnonneg
              ltac:(lia)) as (e & He).
  destruct (numOffsets =? 0).
  - destruct (freq_put_first 1 ofr) as (ofr' & ->).
    cbn [literalFreq literalEncoding set_literalFreq set_offsetFreq].
    unfold generate_with.
    cbn [literalFreq literalEncoding set_literalFreq set_offsetFreq].
    destruct (generate (literalEncoding w) lf 15) as [r h']. cbn [fst] in He. subst r.
    eexists _, _. split; reflexivity.
  - cbn [literalFreq literalEncoding set_literalFreq set_offsetFreq].
    unfold generate_with.
    cbn [literalFreq literalEncoding set_literalFreq set_offsetFreq].
    destruct (generate (literalEncoding w) lf 15) as [r h']. cbn [fst] in He. subst r.
    eexists _, _. split; reflexivity.
Qed.

(** X14. [writeBlock] and [writeBlockDynamic] always throw, with
    the sink untouched, on tokens whose counters exist in the frequency
    tables (the literals of bytes are such tokens): [indexTokens] counts
    them and then [literalEncoding.generate] throws, the literal table
    having more than three slots. *)
Theorem block_writers_always_throw (tokens : list Token) (eof : bool)
    (input : option (list Z)) (w : Writer) :
  err w = None ->
  (256 < length (literalFreq w))%nat ->
  freqcache (literalEncoding w) = [] ->
  Forall (counted (JS.len (literalFreq w)) (JS.len (offsetFreq w))) tokens ->
  (throws (fst (writeBlock tokens eof input w))
   /\ writer (snd (writeBlock tokens eof input w)) = writer w)
  /\ (throws (fst (writeBlockDynamic tokens eof input w))
      /\ writer (snd (writeBlockDynamic tokens eof input w)) = writer w).
Proof.
  intros Herr Hlen Hcache Hall.
  destruct (indexTokens_throws (tokens ++ [mkToken END_BLOCK_MARKER]) w
              ltac:(lia) Hcache)
    as (e & w' & E & Hw).
  { apply Forall_app. split; [exact Hall |]. constructor; [| constructor].
    unfold counted, JS.len. cbn [value].
    change (END_BLOCK_MARKER <? MATCH_TYPE) with true.
    change (Tok.literal (mkToken END_BLOCK_MARKER)) with 256. cbv iota. lia. }
  split.
  - unfold writeBlock, bind, get_w. rewrite Herr, E. cbn [fst snd].
    split; [apply throws_stop | exact Hw].
  - unfold writeBlockDynamic, bind, get_w. rewrite Herr, E. cbn [fst snd].
    split; [apply throws_stop | exact Hw].
Qed.

Lemma block_writers_always_throw_witness :
  (throws (fst (writeBlock [literalToken 104; mkToken 1094713444] true None
                  fresh_writer))
   /\ writer (snd (writeBlock [literalToken 104; mkToken 1094713444] true None
                     fresh_writer)) = writer fresh_writer)
  /\ (throws (fst (writeBlockDynamic [literalToken 104; mkToken 1094713444] true
                     None fresh_writer))
      /\ writer (snd (writeBlockDynamic [literalToken 104; mkToken 1094713444]
                        true None fresh_writer)) = writer fresh_writer).
Proof.
  apply (block_writers_always_throw [literalToken 104; mkToken 1094713444] true
           None fresh_writer).
  - reflexivity.
  - vm_compute. lia.
  - reflexivity.
  - constructor; [vm_compute; split; [discriminate | reflexivity] |].
    constructor; [| constructor].
    exists 5, 13. vm_compute. repeat split; discriminate.
Defined.

(** *** flush *)

Lemma same_but_bits_refl n w : same_but_bits n w w.
Proof. unfold same_but_bits. repeat split; reflexivity. Qed.

Lemma JS_get_set_u8_other (i n v : Z) (a : list Z) :
  i <> n -> JS.get (JS.set_u8 n v a) i = JS.get a i.
Proof.
  intros Hne. unfold JS.set_u8, JS.set, JS.get.
  destruct (n <? 0) eqn:En; [reflexivity |].
  destruct (i <? 0) eqn:Ei; [reflexivity |]. unbool.
  apply list_lookup_insert_ne. lia.
Qed.

Lemma length_set_u8 (n v : Z) (a : list Z) : length (JS.set_u8 n v a) = length a.
Proof.
  unfold JS.set_u8, JS.set. destruct (n <? 0); [reflexivity | apply length_insert].
Qed.

(** The loop of [flush] ends with [nbits] at 0, having touched the bit
    buffer and the byte at index [n] only. *)
Lemma flush_loop_ok (fuel : nat) (n : Z) :
  forall w, 0 <= nbits w -> (Z.to_nat (nbits w) < fuel)%nat ->
    exists w', flush_loop fuel n w = (Ok tt, w')
               /\ nbits w' = 0 /\ same_but_bits n w w'.
Proof.
  induction fuel as [| fuel IH]; intros w Hn Hfuel; [lia |].
  cbn [flush_loop]. unfold bind, get_w, modify, ret.
  destruct (nbits w =? 0) eqn:E0; unbool; cbn [negb].
  - exists w. split; [reflexivity |]. split; [exact E0 | apply same_but_bits_refl].
  - cbn [nbits bits bytes set_bytes set_bits set_nbits].
    destruct (nbits w >? 8) eqn:E8; unbool.
    + match goal with |- context [flush_loop fuel n ?w1] =>
        destruct (IH w1) as (w' & E & Hz & Hs)
      end; [cbn; lia | cbn; lia |].
      exists w'. split; [exact E |]. split; [exact Hz |].
      unfold same_but_bits in *. cbn in Hs.
      destruct Hs as (Hl & Hg & Hrest).
      split; [rewrite Hl; apply length_set_u8 |].
      split; [| exact Hrest].
      intros i Hi. rewrite Hg by exact Hi. now apply JS_get_set_u8_other.
    + destruct fuel as [| fuel]; [lia |].
      cbn [flush_loop]. unfold bind, get_w, modify, ret. cbn.
      eexists. split; [reflexivity |]. split; [reflexivity |].
      unfold same_but_bits. cbn.
      split; [apply length_set_u8 |].
      split; [intros i Hi; now apply JS_get_set_u8_other |].
      repeat split; reflexivity.
Qed.

Lemma JS_slice_prefix_agree (n : Z) (a b : list Z) :
  0 <= n -> length a = length b ->
  (forall i, i <> n -> JS.get a i = JS.get b i) ->
  JS.slice 0 n a = JS.slice 0 n b.
Proof.
  intros Hn Hlen Hsame. rewrite !JS_slice_take by exact Hn.
  apply list_eq. intros j.
  destruct (Nat.lt_ge_cases j (Z.to_nat n)) as [Hlt | Hge].
  - rewrite !lookup_take_lt by exact Hlt.
    specialize (Hsame (Z.of_nat j) ltac:(lia)).
    rewrite !JS_get_nat in Hsame by lia. now rewrite Nat2Z.id in Hsame.
  - now rewrite !lookup_take_ge by exact Hge.
Qed.









(** On that writer, with the bytes 7 and 9 staged and the sixteen bits
    0xABCD pending, the sink gets [7; 9] and the byte 0xAB stays at index
    2. *)
Example flush_leaves_last_byte :
  let w := set_nbytes 2 (set_nbits 16 (set_bits 43981
             (set_bytes ([7; 9] ++ replicate 246 0) fresh_writer))) in
  received (writer (snd (flush w))) = [[7; 9]]
  /\ take 3 (bytes (snd (flush w))) = [7; 9; 171].
Proof. vm_compute. split; reflexivity. Qed.

(** *** What writeBits sends to the sink *)












(** The sink does receive bytes: 120 writes of sixteen set bits send 240
    bytes before the flush. *)
Example bit_stream_is_sent :
  length (sink_bytes (writer (snd (write_ops (replicate 120 (Bits 65535 16))
                                     fresh_writer))))
  = 240%nat.
Proof. vm_compute. reflexivity. Qed.

(** A negative bit count: [flush] finds [nbits] at -5, takes one turn of
    its loop and hands the sink the empty chunk. *)
Example bit_stream_negative_count :
  let r := write_ops [Bits 1 (-5)] fresh_writer in
  fst r = Ok tt /\ received (writer (snd r)) = [[]] /\ nbits (snd r) = 0.
Proof. vm_compute. repeat split; reflexivity. Qed.

(** *** writeBytes *)

Lemma drained_length (k : nat) (b : Z) : length (drained k b) = k.
Proof. revert b. induction k as [| k IH]; intros b; cbn; [reflexivity | now rewrite IH]. Qed.

(** The loop of [writeBytes] moves the [k] bytes of the bit buffer into
    the staging buffer, from index [n] on. *)
Lemma writeBytes_loop_ok (k : nat) :
  forall (n : nat) (w : Writer),
    nbits w = 8 * Z.of_nat k -> (n + k <= length (bytes w))%nat ->
    exists w',
      writeBytes_loop k (Z.of_nat n) w = (Ok (Z.of_nat (n + k)), w')
      /\ nbits w' = 0
      /\ bytes w' = take n (bytes w) ++ drained k (bits w) ++ drop (n + k) (bytes w)
      /\ nbytes w' = nbytes w /\ err w' = err w /\ writer w' = writer w.
Proof.
  induction k as [| k IH]; intros n w Hbits Hlen.
  - cbn [writeBytes_loop]. unfold bind, get_w, ret. rewrite Hbits. cbn.
    exists w. rewrite Nat.add_0_r. split; [reflexivity |].
    split; [lia |]. split; [now rewrite take_drop | auto].
  - cbn [writeBytes_loop]. unfold bind, get_w, modify.
    destruct (nbits w =? 0) eqn:E; unbool; [lia |]. cbn [negb].
    cbn [nbits bits bytes set_bytes set_bits set_nbits].
    rewrite set_u8_insert.
    replace (Z.of_nat n + 1) with (Z.of_nat (S n)) by lia.
    match goal with |- context [writeBytes_loop k _ ?w1] =>
      destruct (IH (S n) w1) as (w' & E' & Hz & Hb & Hnb & He & Hw)
    end.
    { cbn. lia. }
    { cbn. rewrite length_insert. lia. }
    exists w'. replace (n + S k)%nat with (S n + k)%nat by lia.
    split; [exact E' |]. split; [exact Hz |]. cbn in Hb, Hnb, He, Hw.
    split; [| auto]. rewrite Hb. cbn [drained].
    rewrite (take_S_r _ n (bits w mod 256))
      by (apply list_lookup_insert_eq; lia).
    rewrite take_insert_ge by lia.
    rewrite drop_insert_lt by lia.
    rewrite <- app_assoc. reflexivity.
Qed.

(** [writeBytes] when the bit buffer holds [k] whole bytes. *)
Lemma writeBytes_aligned (b : list Z) (w : Writer) (k : nat) :
  err w = None -> budget (writer w) = None ->
  nbits w = 8 * Z.of_nat k -> 0 <= nbytes w ->
  nbytes w + Z.of_nat k <= JS.len (bytes w) ->
  exists w',
    writeBytes b w = (Ok tt, w')
    /\ nbits w' = 0 /\ nbytes w' = 0 /\ err w' = None
    /\ budget (writer w') = None
    /\ received (writer w')
       = received (writer w)
         ++ (if nbytes w + Z.of_nat k =? 0 then []
             else [take (Z.to_nat (nbytes w)) (bytes w) ++ drained k (bits w)])
         ++ [b].
Proof.
  intros Herr Hbud Hk Hnbytes Hroom.
  unfold writeBytes, bind, get_w. rewrite Herr.
  change 7 with (Z.ones 3). rewrite JS_and_ones by lia. change (2 ^ 3) with 8.
  assert (Hmod : nbits w mod 8 = 0).
  { rewrite Hk, Z.mul_comm. apply Z_mod_mult. }
  rewrite Hmod. cbn [Z.eqb negb].
  assert (Hdiv : nbits w / 8 = Z.of_nat k).
  { rewrite Hk, Z.mul_comm. apply Z_div_mult. lia. }
  rewrite Hdiv, Nat2Z.id.
  destruct (writeBytes_loop_ok k (Z.to_nat (nbytes w)) w Hk) as
    (w1 & E1 & Hz & Hb & Hnb & He & Hw).
  { unfold JS.len in Hroom. lia. }
  rewrite Z2Nat.id in E1 by lia. rewrite E1.
  replace (Z.of_nat (Z.to_nat (nbytes w) + k)) with (nbytes w + Z.of_nat k) by lia.
  assert (Hchunk : JS.slice 0 (nbytes w + Z.of_nat k) (bytes w1)
                   = take (Z.to_nat (nbytes w)) (bytes w) ++ drained k (bits w)).
  { rewrite JS_slice_take by lia. rewrite Hb, app_assoc.
    rewrite take_app_length'; [reflexivity |].
    rewrite length_app, length_take, drained_length.
    unfold JS.len in Hroom. lia. }
  unfold modify, write, sink_write.
  destruct (nbytes w + Z.of_nat k =? 0) eqn:Enone; cbn [negb]; unfold ret.
  - cbn [err set_nbytes writer]. rewrite He, Herr, Hw, Hbud.
    eexists. split; [reflexivity |]. cbn.
    rewrite ?Hz, ?He, ?Herr, ?Hw. repeat split; reflexivity.
  - cbn [err set_nbytes writer set_writer]. rewrite He, Herr, Hw, Hbud.
    cbn [err set_nbytes writer set_writer budget]. rewrite He, Herr.
    eexists. split; [reflexivity |]. cbn.
    rewrite ?Hz, ?Hchunk, ?He, ?Herr, ?Hw. repeat split; try reflexivity.
    now rewrite <- app_assoc.
Qed.

(** X17. [writeBytes] on a writer with no sticky error and a sink that
    accepts everything, when the bit buffer holds whole bytes
    ([nbits] a multiple of 8, not negative) and these fit the staging
    buffer behind the [nbytes] staged ones: the sink gets what is staged
    followed by the pending bytes, low byte first, as one chunk (unless
    there is nothing), and then the input as the next chunk; nothing is
    left pending. *)
Theorem writeBytes_sends_pending_then_input (b : list Z) (w : Writer) :
  err w = None -> budget (writer w) = None ->
  0 <= nbits w -> nbits w mod 8 = 0 -> 0 <= nbytes w ->
  nbytes w + nbits w / 8 <= JS.len (bytes w) ->
  exists w',
    writeBytes b w = (Ok tt, w')
    /\ nbits w' = 0 /\ nbytes w' = 0 /\ err w' = None
    /\ received (writer w')
       = received (writer w)
         ++ (if nbytes w + nbits w / 8 =? 0 then []
             else [take (Z.to_nat (nbytes w)) (bytes w)
                   ++ drained (Z.to_nat (nbits w / 8)) (bits w)])
         ++ [b].
Proof.
  intros Herr Hbud Hnbits Halign Hnbytes Hroom.
  assert (Hpos : 0 <= nbits w / 8) by (apply Z.div_pos; lia).
  destruct (writeBytes_aligned b w (Z.to_nat (nbits w / 8)) Herr Hbud)
    as (w' & E & Hz & Hn & He & _ & Hr).
  - pose proof (Z.div_mod (nbits w) 8 ltac:(lia)). lia.
  - exact Hnbytes.
  - lia.
  - exists w'. rewrite Z2Nat.id in Hr by lia. auto.
Qed.

(** X22. [writeBytes] with bits left over in the bit buffer ([nbits] not
    a multiple of 8): it sets [err] to the internal error, sends nothing
    and changes nothing else. *)
Theorem writeBytes_rejects_unfinished_bits (b : list Z) (w : Writer) :
  err w = None -> nbits w mod 8 <> 0 ->
  writeBytes b w
  = (Ok tt,
     set_err (Some (Error "flate: internal error: writeBytes with unfinished bits")) w).
Proof.
  intros Herr Halign.
  unfold writeBytes, bind, get_w. rewrite Herr.
  change 7 with (Z.ones 3). rewrite JS_and_ones by lia. change (2 ^ 3) with 8.
  destruct (nbits w mod 8 =? 0) eqn:E; unbool; [lia |]. reflexivity.
Qed.

Lemma writeBits_small (b nb : Z) (w : Writer) :
  err w = None -> nbits w + nb < 48 ->
  writeBits b nb w
  = (Ok tt, set_nbits (nbits w + nb)
              (set_bits (JS.or (bits w) (JS.shl b (nbits w))) w)).
Proof.
  intros Herr Hn. unfold writeBits, bind, get_w, modify. rewrite Herr.
  unfold store_six, bind, get_w, ret. cbn [nbits set_bits set_nbits].
  destruct (nbits w + nb >=? 48) eqn:E; unbool; [lia | reflexivity].
Qed.

Lemma flush_ok (w : Writer) :
  err w = None -> budget (writer w) = None -> 0 <= nbits w -> 0 <= nbytes w ->
  exists w',
    flush w = (Ok tt, w')
    /\ nbits w' = 0 /\ bits w' = 0 /\ nbytes w' = 0 /\ err w' = None
    /\ length (bytes w') = length (bytes w)
    /\ writer w' = mkSink (received (writer w) ++ [JS.slice 0 (nbytes w) (bytes w)]) None.
Proof.
  intros Herr Hbud Hnbits Hnbytes.
  unfold flush, bind, get_w. rewrite Herr.
  destruct (flush_loop_ok (Z.to_nat (nbits w) + 2) (nbytes w) w Hnbits ltac:(lia))
    as (w1 & -> & Hz & Hs).
  destruct Hs as (Hl & Hg & _ & _ & _ & _ & _ & _ & _ & _ & Herr1 & Hw1 & _).
  unfold modify, write, sink_write. cbn [err set_bits bytes writer].
  rewrite Herr1, Herr, Hw1, Hbud.
  rewrite (JS_slice_prefix_agree (nbytes w) (bytes w1) (bytes w)) by assumption.
  eexists. split; [reflexivity |]. cbn. rewrite ?Hz, ?Herr1, ?Herr.
  repeat split; try reflexivity. exact Hl.
Qed.

(** LEN and NLEN as [writeStoredHeader] builds them in the bit buffer. *)
Lemma stored_lengths (len : Z) :
  0 <= len <= 65535 ->
  drained 4 (JS.or (JS.or 0 (JS.shl len 0)) (JS.shl (JS.not len) 16))
  = [len mod 256; len / 256; 255 - len mod 256; 255 - len / 256].
Proof.
  intros Hlen.
  assert (E1 : JS.or 0 (JS.shl len 0) = len).
  { unfold JS.or, JS.shl. change (Z.land 0 31) with 0. rewrite Z.shiftl_0_r.
    rewrite !(to_int32_small len) by lia. apply Z.lor_0_l. }
  assert (E2 : exists m, JS.shl (JS.not len) 16 = m * 2 ^ 16
                         /\ - 2 ^ 15 <= m < 2 ^ 15
                         /\ m mod 2 ^ 16 = 65535 - len).
  { unfold JS.shl, JS.not. change (Z.land 16 31) with 16.
    rewrite (to_int32_small len) by lia.
    rewrite (to_int32_small (Z.lnot len)) by (unfold Z.lnot; lia).
    rewrite Z.shiftl_mul_pow2 by lia. unfold Z.lnot, JS.to_int32.
    exists (((Z.pred (- len) * 2 ^ 16 + 2 ^ 31) mod 2 ^ 32 - 2 ^ 31) / 2 ^ 16).
    change (2 ^ 16) with 65536. change (2 ^ 15) with 32768.
    change (2 ^ 31) with 2147483648. change (2 ^ 32) with 4294967296.
    Z.to_euclidean_division_equations. lia. }
  destruct E2 as (m & E2 & Hm & Hmod).
  rewrite E1, E2. unfold JS.or.
  rewrite (to_int32_small len) by lia.
  rewrite (to_int32_small (m * 2 ^ 16)) by lia.
  rewrite lor_disjoint_add by lia.
  cbn [drained].
  rewrite (JS_sar_small (len + m * 2 ^ 16) 8) by lia.
  assert (H1 : (len + m * 2 ^ 16) / 2 ^ 8 = len / 256 + m * 256).
  { change (2 ^ 16) with (256 * 2 ^ 8). rewrite Z.mul_assoc.
    rewrite Z.div_add by lia. reflexivity. }
  rewrite H1.
  assert (Hq : 0 <= len / 256 < 256).
  { split; [apply Z.div_pos; lia | apply Z.div_lt_upper_bound; lia]. }
  rewrite (JS_sar_small (len / 256 + m * 256) 8) by lia.
  assert (H2 : (len / 256 + m * 256) / 2 ^ 8 = m).
  { change (2 ^ 8) with 256. rewrite Z.div_add by lia.
    rewrite (Z.div_small (len / 256)) by lia. lia. }
  rewrite H2.
  rewrite (JS_sar_small m 8) by lia.
  change (2 ^ 16) with 65536 in *. change (2 ^ 8) with 256 in *.
  change (2 ^ 15) with 32768 in *.
  assert (B0 : (len + m * 65536) mod 256 = len mod 256)
    by (Z.to_euclidean_division_equations; lia).
  assert (B1 : (len / 256 + m * 256) mod 256 = len / 256)
    by (Z.to_euclidean_division_equations; lia).
  assert (B2 : m mod 256 = 255 - len mod 256)
    by (Z.to_euclidean_division_equations; lia).
  assert (B3 : (m / 256) mod 256 = 255 - len / 256)
    by (Z.to_euclidean_division_equations; lia).
  now rewrite B0, B1, B2, B3.
Qed.

Lemma bind_ok {A B} (m : M A) (k : A -> M B) (w w1 : Writer) (a : A) :
  m w = (Ok a, w1) -> bind m k w = k a w1.
Proof. intros E. unfold bind. now rewrite E. Qed.

(** [writeStoredHeader] on a writer with nothing pending. *)
Lemma writeStoredHeader_ok (len : Z) (eof : bool) (w : Writer) :
  err w = None -> budget (writer w) = None ->
  bits w = 0 -> nbits w = 0 -> nbytes w = 0 ->
  exists w',
    writeStoredHeader len eof w = (Ok tt, w')
    /\ err w' = None /\ budget (writer w') = None
    /\ bits w' = JS.or (JS.or 0 (JS.shl len 0)) (JS.shl (JS.not len) 16)
    /\ nbits w' = 32 /\ nbytes w' = 0
    /\ length (bytes w') = length (bytes w)
    /\ received (writer w') = received (writer w) ++ [[]].
Proof.
  intros Herr Hbud Hbits Hnbits Hnbytes.
  unfold writeStoredHeader. unfold bind at 1, get_w. rewrite Herr.
  erewrite bind_ok by (apply writeBits_small; [exact Herr | lia]).
  match goal with |- context [bind flush _ ?w1] =>
    destruct (flush_ok w1) as (w2 & E2 & Hz2 & Hb2 & Hn2 & He2 & Hl2 & Hw2)
  end; try (cbn; assumption || lia).
  cbn [nbytes bytes writer set_nbits set_bits] in Hl2, Hw2.
  rewrite Hnbytes, JS_slice_empty in Hw2.
  erewrite bind_ok by exact E2.
  erewrite bind_ok by (apply writeBits_small; [exact He2 | lia]).
  rewrite writeBits_small by (cbn; assumption || lia).
  eexists. split; [reflexivity |].
  cbn. rewrite Hz2, Hb2, He2, Hn2, Hl2, Hw2. cbn. repeat split; reflexivity.
Qed.

(** X18. A stored block as the block writers emit it
    ([writeStoredHeader] then [writeBytes]), on a writer with nothing
    pending: the sink gets an empty chunk from [flush], then LEN and NLEN,
    then the input.  The three header bits written first are lost in
    [flush]. *)
Theorem stored_block_loses_its_header (input : list Z) (eof : bool) (w : Writer) :
  err w = None -> budget (writer w) = None ->
  bits w = 0 -> nbits w = 0 -> nbytes w = 0 ->
  (4 <= length (bytes w))%nat -> JS.len input <= MAX_STORE_BLOCK_SIZE ->
  exists w',
    stored_block input eof w = (Ok tt, w')
    /\ received (writer w')
       = received (writer w)
         ++ [ [];
              [JS.len input mod 256; JS.len input / 256;
               255 - JS.len input mod 256; 255 - JS.len input / 256];
              input ].
Proof.
  intros Herr Hbud Hbits Hnbits Hnbytes Hroom Hlen.
  pose proof (JS_len_nonneg input) as Hpos. unfold MAX_STORE_BLOCK_SIZE in Hlen.
  destruct (writeStoredHeader_ok (JS.len input) eof w Herr Hbud Hbits Hnbits Hnbytes)
    as (w4 & E4 & He4 & Hbud4 & Hb4 & Hn4 & Hnb4 & Hl4 & Hr4).
  destruct (writeBytes_aligned input w4 4 He4 Hbud4) as (w5 & E5 & _ & _ & _ & _ & Hr5).
  { rewrite Hn4. reflexivity. }
  { lia. }
  { rewrite Hnb4. unfold JS.len. lia. }
  exists w5. unfold stored_block. erewrite bind_ok by exact E4.
  split; [exact E5 |]. rewrite Hr5, Hr4, Hnb4, Hb4.
  cbn [Z.add Z.of_nat Z.eqb Pos.of_succ_nat Pos.succ Z.to_nat take app].
  rewrite stored_lengths by lia. rewrite <- app_assoc. reflexivity.
Qed.

Lemma writeBytes_sends_pending_then_input_witness :
  let w := set_nbytes 2 (set_nbits 16 (set_bits 43981
             (set_bytes ([7; 9] ++ replicate 246 0) fresh_writer))) in
  exists w',
    writeBytes [104; 105] w = (Ok tt, w')
    /\ nbits w' = 0 /\ nbytes w' = 0 /\ err w' = None
    /\ received (writer w')
       = received (writer w)
         ++ (if nbytes w + nbits w / 8 =? 0 then []
             else [take (Z.to_nat (nbytes w)) (bytes w)
                   ++ drained (Z.to_nat (nbits w / 8)) (bits w)])
         ++ [[104; 105]].
Proof.
  intro w. apply (writeBytes_sends_pending_then_input [104; 105] w);
    try reflexivity; vm_compute; discriminate.
Defined.

(** On that writer, with the bytes 7 and 9 staged and the sixteen bits
    0xABCD pending, the sink gets [7; 9; 0xCD; 0xAB] and then the input. *)
Example writeBytes_pending_chunk :
  let w := set_nbytes 2 (set_nbits 16 (set_bits 43981
             (set_bytes ([7; 9] ++ replicate 246 0) fresh_writer))) in
  received (writer (snd (writeBytes [104; 105] w)))
  = [[7; 9; 205; 171]; [104; 105]].
Proof. vm_compute. reflexivity. Qed.

Lemma writeBytes_rejects_unfinished_bits_witness :
  writeBytes [104; 105] (set_nbits 3 (set_bits 5 fresh_writer))
  = (Ok tt,
     set_err (Some (Error "flate: internal error: writeBytes with unfinished bits"))
       (set_nbits 3 (set_bits 5 fresh_writer))).
Proof.
  apply (writeBytes_rejects_unfinished_bits [104; 105]
           (set_nbits 3 (set_bits 5 fresh_writer)));
    [reflexivity | vm_compute; discriminate].
Defined.

Lemma stored_block_loses_its_header_witness :
  exists w',
    stored_block [104; 105] true fresh_writer = (Ok tt, w')
    /\ received (writer w')
       = received (writer fresh_writer)
         ++ [ [];
              [JS.len [104; 105] mod 256; JS.len [104; 105] / 256;
               255 - JS.len [104; 105] mod 256; 255 - JS.len [104; 105] / 256];
              [104; 105] ].
Proof.
  apply (stored_block_loses_its_header [104; 105] true fresh_writer);
    try reflexivity; [vm_compute; lia | vm_compute; discriminate].
Defined.

(** *** dynamicSize *)

Lemma trim_codegens_spec (fuel : nat) :
  forall n cf,
    let r := trim_codegens fuel n cf in
    r <= n /\ (4 <= n -> 4 <= r)
    /\ (forall i, r <= i < n -> ordered_freq cf i = Some 0)
    /\ (n - 4 <= Z.of_nat fuel -> 4 < r -> ordered_freq cf (r - 1) <> Some 0).
Proof.
  induction fuel as [| fuel IH]; intros n cf; cbn [trim_codegens].
  - repeat split; lia.
  - destruct (n >? 4) eqn:E4; unbool; cbn [andb]; [| repeat split; lia].
    fold (ordered_freq cf (n - 1)).
    destruct (ordered_freq cf (n - 1)) as [[| p | p] |] eqn:Ef;
      try (repeat split; try lia; intros _ _; rewrite Ef; discriminate).
    destruct (IH (n - 1) cf) as (H1 & H2 & H3 & H4).
    split; [lia |]. split; [intros _; apply H2; lia |]. split.
    + intros i Hi. destruct (Z.eq_dec i (n - 1)) as [-> | Hne]; [exact Ef |].
      apply H3. lia.
    + intros Hf Hr. apply H4; lia.
Qed.

(** X19. When [dynamicSize] returns, the number of codegen
    lengths it announces fits the 4-bit field of the header; every codegen
    code it leaves out (in [codegenOrder]) has frequency 0 and, above the
    minimum of 4, the last one it keeps has not.  It changes nothing in
    the writer. *)
Theorem dynamicSize_trims_unused_codegens (litEnc offEnc : HuffmanEncoder)
    (extraBits : Z) (w w' : Writer) (size numCodegens : Z) :
  dynamicSize litEnc offEnc extraBits w = (Ok (size, numCodegens), w') ->
  JS.len (codegenFreq w) = CODEGEN_CODE_COUNT ->
  w' = w
  /\ 0 <= numCodegens - 4 < 16
  /\ (forall i, numCodegens <= i < CODEGEN_CODE_COUNT ->
        ordered_freq (codegenFreq w) i = Some 0)
  /\ (4 < numCodegens -> ordered_freq (codegenFreq w) (numCodegens - 1) <> Some 0).
Proof.
  intros E Hlen. unfold dynamicSize, bind, get_w, lift in E.
  destruct (trim_codegens_spec (length (codegenFreq w)) (JS.len (codegenFreq w))
              (codegenFreq w)) as (H1 & H2 & H3 & H4).
  assert (Hfuel : Z.of_nat (length (codegenFreq w)) = 19) by exact Hlen.
  rewrite Hlen, Hfuel in *. unfold CODEGEN_CODE_COUNT in *.
  destruct (bitLength (codegenEncoding w) _) as [cgbits |]; [| discriminate].
  cbn [res_bind] in E.
  destruct (num (JS.get (codegenFreq w) 16)) as [f16 |]; [| discriminate].
  destruct (num (JS.get (codegenFreq w) 17)) as [f17 |]; [| discriminate].
  destruct (num (JS.get (codegenFreq w) 18)) as [f18 |]; [| discriminate].
  cbn [res_bind] in E.
  destruct (bitLength litEnc _) as [lbits |]; [| discriminate].
  destruct (bitLength offEnc _) as [obits |]; [| discriminate].
  cbn [res_bind] in E. injection E as _ <- <-.
  split; [reflexivity |]. split; [lia |]. split; [exact H3 |].
  intros Hr. apply H4; lia.
Qed.

Lemma dynamicSize_trims_unused_codegens_witness :
  let w := set_codegenEncoding (blank_encoder 19)
             (set_codegenFreq (<[5%nat := 2]> (replicate 19 0)) fresh_writer) in
  w = w
  /\ 0 <= 10 - 4 < 16
  /\ (forall i, 10 <= i < CODEGEN_CODE_COUNT ->
        ordered_freq (codegenFreq w) i = Some 0)
  /\ (4 < 10 -> ordered_freq (codegenFreq w) (10 - 1) <> Some 0).
Proof.
  intro w.
  apply (dynamicSize_trims_unused_codegens (blank_encoder 286) (blank_encoder 30)
           0 w w 47 10); vm_compute; reflexivity.
Defined.

(** *** The run-length encoding of generateCodegen *)










Lemma fmap_fmap_app (o : option (list Z)) (a b : list Z) :
  (fun l => a ++ l) <$> ((fun l => b ++ l) <$> o) = (fun l => (a ++ b) ++ l) <$> o.
Proof. destruct o; cbn; [now rewrite app_assoc | reflexivity]. Qed.



















